(** * Ownership vouchers of the bootz reference server

    A shallow embedding of [common/ownership_voucher/ownership_voucher.go]
    (package [ownershipvoucher]) and of the artifact loading of the server's
    [main.go], with the properties of the ownership-voucher design that the
    code decides.

    Go strings and byte slices are sequences of bytes; both are modelled as
    [list ascii] (an [ascii] is one byte), so that [string(b)] and [[]byte(s)]
    are the identity. *)

From Stdlib Require Import ZArith NArith List Ascii String Bool Lia DecimalString.
From stdpp Require Import base strings gmap.
Import ListNotations.

Local Open Scope list_scope.
Set Warnings "-register-all".

(** ** Bytes *)

Definition bytes := list ascii.

(** A Go string literal. *)
Definition lit (s : string) : bytes := list_ascii_of_string s.

Definition LF : ascii := "010"%char.
Definition CR : ascii := "013"%char.

(** The value of a byte. *)
Definition code (c : ascii) : N := N_of_ascii c.

Definition byte_eqb (a b : ascii) : bool := Ascii.eqb a b.

Fixpoint bytes_eqb (s t : bytes) : bool :=
  match s, t with
  | [], [] => true
  | a :: s', b :: t' => byte_eqb a b && bytes_eqb s' t'
  | _, _ => false
  end.

(** A Go function returning [(T, error)]. *)
Inductive Result (E A : Type) : Type :=
| Ok (a : A)
| Err (e : E).
Arguments Ok {E A} a.
Arguments Err {E A} e.

(** ** Package [strings] *)

Module strings.

(** [strings.HasPrefix(s, prefix)]:
    [len(s) >= len(prefix) && s[:len(prefix)] == prefix]. *)
Definition HasPrefix (s prefix : bytes) : bool :=
  (length prefix <=? length s)%nat && bytes_eqb (firstn (length prefix) s) prefix.

(** [strings.HasSuffix(s, suffix)]:
    [len(s) >= len(suffix) && s[len(s)-len(suffix):] == suffix]. *)
Definition HasSuffix (s suffix : bytes) : bool :=
  (length suffix <=? length s)%nat
  && bytes_eqb (skipn (length s - length suffix) s) suffix.

(** [strings.TrimPrefix]: [s] without the leading [prefix]; [s] itself when
    it does not start with [prefix]. *)
Definition TrimPrefix (s prefix : bytes) : bytes :=
  if HasPrefix s prefix then skipn (length prefix) s else s.

(** [strings.TrimSuffix]: [s] without the trailing [suffix]; [s] itself when
    it does not end with [suffix]. *)
Definition TrimSuffix (s suffix : bytes) : bytes :=
  if HasSuffix s suffix then firstn (length s - length suffix) s else s.

End strings.

(** ** The voucher document *)

(** [Inner] defines the Ownership Voucher format (RFC 8366). *)
Record Inner := mkInner {
  CreatedOn : bytes;
  ExpiresOn : bytes;
  SerialNumber : bytes;
  Assertion : bytes;
  PinnedDomainCert : bytes;
  DomainCertRevocationChecks : bool
}.

(** [OwnershipVoucher] wraps [Inner]. *)
Record OwnershipVoucher := mkOwnershipVoucher {
  OV : Inner
}.

(** The zero values of the two struct types. *)
Definition zeroInner : Inner := mkInner [] [] [] [] [] false.
Definition zeroOwnershipVoucher : OwnershipVoucher := mkOwnershipVoucher zeroInner.

(** ** PEM framing *)

Definition pemHeader : bytes := lit "-----BEGIN CERTIFICATE-----" ++ [LF].
Definition pemFooter : bytes := [LF] ++ lit "-----END CERTIFICATE-----" ++ [LF].

(** [RemovePemHeaders] strips the PEM headers from a certificate so it can be
    used in an Ownership Voucher. *)
Definition RemovePemHeaders (pemBlock : bytes) : bytes :=
  let pemBlock := strings.TrimPrefix pemBlock pemHeader in
  let pemBlock := strings.TrimSuffix pemBlock pemFooter in
  pemBlock.

(** The consuming side's re-framing of a stripped certificate. *)
Definition AddPemHeaders (body : bytes) : bytes :=
  pemHeader ++ body ++ pemFooter.

(** A PEM certificate block with the standard framing: the header line, a
    body, and the footer line on a line of its own, each ended by a line
    feed. *)
Definition wellFormedPem (s : bytes) : bool :=
  strings.HasPrefix s pemHeader
  && strings.HasSuffix (skipn (length pemHeader) s) pemFooter.

(** ** Package [unicode/utf8]

    Runes are code points, modelled as [N]; [DecodeRune] and [EncodeRune]
    follow the library's table of first bytes and accept ranges. *)

Module utf8.

Local Open Scope N_scope.

Definition RuneError : N := 65533.   (* U+FFFD *)
Definition MaxRune : N := 1114111.   (* U+10FFFF *)
Definition RuneSelf : N := 128.

Definition byteAt (p : bytes) (i : nat) : N := code (nth i p zero).

(** [byte(x)]: the conversion of an integer to a byte keeps its low 8 bits. *)
Definition toByte (x : N) : ascii := ascii_of_N (N.land x 255).

(** The entry of the table [first] for a leading byte: ASCII, invalid, or the
    size of the sequence with the accept range of its second byte. *)
Inductive firstInfo :=
| as_ascii
| xx_invalid
| lead (sz : nat) (lo hi : N).

Definition first (p0 : N) : firstInfo :=
  if p0 <? 128 then as_ascii
  else if p0 <? 194 then xx_invalid                   (* 0x80..0xC1 *)
  else if p0 <? 224 then lead 2 128 191               (* 0xC2..0xDF *)
  else if p0 =? 224 then lead 3 160 191               (* 0xE0 *)
  else if p0 =? 237 then lead 3 128 159               (* 0xED *)
  else if p0 <? 240 then lead 3 128 191               (* 0xE1..0xEF *)
  else if p0 =? 240 then lead 4 144 191               (* 0xF0 *)
  else if p0 <? 244 then lead 4 128 191               (* 0xF1..0xF3 *)
  else if p0 =? 244 then lead 4 128 143               (* 0xF4 *)
  else xx_invalid.                                    (* 0xF5..0xFF *)

(** [utf8.DecodeRune(p)]: the first rune of [p] and its width in bytes;
    [(RuneError, 0)] on empty input and [(RuneError, 1)] on an encoding that
    is not well-formed UTF-8. *)
Definition DecodeRune (p : bytes) : N * nat :=
  let n := length p in
  if (n <? 1)%nat then (RuneError, 0%nat) else
  let p0 := byteAt p 0 in
  match first p0 with
  | as_ascii => (p0, 1%nat)
  | xx_invalid => (RuneError, 1%nat)
  | lead sz lo hi =>
    if (n <? sz)%nat then (RuneError, 1%nat) else
    let b1 := byteAt p 1 in
    if (b1 <? lo) || (hi <? b1) then (RuneError, 1%nat) else
    if (sz <=? 2)%nat then
      (N.lor (N.shiftl (N.land p0 31) 6) (N.land b1 63), 2%nat)
    else
    let b2 := byteAt p 2 in
    if (b2 <? 128) || (191 <? b2) then (RuneError, 1%nat) else
    if (sz <=? 3)%nat then
      (N.lor (N.lor (N.shiftl (N.land p0 15) 12) (N.shiftl (N.land b1 63) 6))
             (N.land b2 63), 3%nat)
    else
    let b3 := byteAt p 3 in
    if (b3 <? 128) || (191 <? b3) then (RuneError, 1%nat) else
    (N.lor (N.lor (N.lor (N.shiftl (N.land p0 7) 18) (N.shiftl (N.land b1 63) 12))
                  (N.shiftl (N.land b2 63) 6))
           (N.land b3 63), 4%nat)
  end.

Definition encode3 (r : N) : bytes :=
  [ toByte (N.lor 224 (N.shiftr r 12));
    toByte (N.lor 128 (N.land (N.shiftr r 6) 63));
    toByte (N.lor 128 (N.land r 63)) ].

(** [utf8.EncodeRune]/[AppendRune]: the UTF-8 encoding of [r]; a surrogate
    or a value above [MaxRune] is encoded as [RuneError]. *)
Definition EncodeRune (r : N) : bytes :=
  if r <=? 127 then [ toByte r ]
  else if r <=? 2047 then
    [ toByte (N.lor 192 (N.shiftr r 6)); toByte (N.lor 128 (N.land r 63)) ]
  else if (MaxRune <? r) || ((55296 <=? r) && (r <=? 57343)) then encode3 RuneError
  else if r <=? 65535 then encode3 r
  else
    [ toByte (N.lor 240 (N.shiftr r 18));
      toByte (N.lor 128 (N.land (N.shiftr r 12) 63));
      toByte (N.lor 128 (N.land (N.shiftr r 6) 63));
      toByte (N.lor 128 (N.land r 63)) ].

(** [utf8.Valid(p)]: [p] consists of well-formed UTF-8 only.  The loop
    advances by the width of each rune, at least one byte, so [length p]
    rounds are enough. *)
Fixpoint Valid_loop (rounds : nat) (p : bytes) : bool :=
  match rounds with
  | O => match p with [] => true | _ => false end
  | S rounds' =>
    match p with
    | [] => true
    | _ =>
      let '(r, size) := DecodeRune p in
      if (r =? RuneError) && (size =? 1)%nat then false
      else Valid_loop rounds' (skipn size p)
    end
  end.

Definition Valid (p : bytes) : bool := Valid_loop (length p) p.

(** *** Tables and abbreviations for the proofs *)

(** The bytes of a range, listed. *)
Definition byteRange (lo len : nat) : list ascii := map ascii_of_nat (seq lo len).
Definition conts : list ascii := Eval vm_compute in byteRange 128 64.
Definition leads2 : list ascii := Eval vm_compute in byteRange 194 30.
Definition leads3 : list ascii := Eval vm_compute in byteRange 224 16.
Definition leads4 : list ascii := Eval vm_compute in byteRange 240 5.
Definition leads (sz : nat) : list ascii :=
  match sz with 2%nat => leads2 | 3%nat => leads3 | _ => leads4 end.

Definition outside (lo hi : N) (c : ascii) : bool := (code c <? lo) || (hi <? code c).

Definition rune2 (c0 c1 : ascii) : N :=
  N.lor (N.shiftl (N.land (code c0) 31) 6) (N.land (code c1) 63).
Definition rune3 (c0 c1 c2 : ascii) : N :=
  N.lor (N.lor (N.shiftl (N.land (code c0) 15) 12) (N.shiftl (N.land (code c1) 63) 6))
        (N.land (code c2) 63).
Definition rune4 (c0 c1 c2 c3 : ascii) : N :=
  N.lor (N.lor (N.lor (N.shiftl (N.land (code c0) 7) 18) (N.shiftl (N.land (code c1) 63) 12))
               (N.shiftl (N.land (code c2) 63) 6))
        (N.land (code c3) 63).

(** What [first] says about a byte, as a test. *)
Definition first_ok (c : ascii) : bool :=
  match first (code c) with
  | as_ascii => code c <? 128
  | xx_invalid => 128 <=? code c
  | lead sz lo hi =>
    (128 <=? lo) && (hi <=? 191) && (128 <=? code c)
    && ((sz =? 2) || (sz =? 3) || (sz =? 4))%nat
    && existsb (Ascii.eqb c) (leads sz)
  end.

Definition accepted (c0 c1 : ascii) : bool :=
  match first (code c0) with
  | lead _ lo hi => negb (outside lo hi c1)
  | _ => false
  end.

Definition encodes (r : N) (s : bytes) : bool := bytes_eqb (EncodeRune r) s.

(** A rune of three or four bytes is its head, the bits of all bytes but
    the last, followed by the six bits of the last byte. *)
Definition last6 (c : ascii) : N := N.land (code c) 63.
Definition joinBits (h d : N) : N := N.lor (N.shiftl h 6) d.
Definition head3 (c0 c1 : ascii) : N :=
  N.lor (N.shiftl (N.land (code c0) 15) 6) (N.land (code c1) 63).
Definition head4 (c0 c1 c2 : ascii) : N :=
  N.lor (N.lor (N.shiftl (N.land (code c0) 7) 12) (N.shiftl (N.land (code c1) 63) 6))
        (N.land (code c2) 63).

(** The heads of the runes that [EncodeRune] writes on three and on four
    bytes, and the bytes it writes for the head. *)
Definition inHead3 (h : N) : bool :=
  (32 <=? h) && (h <=? 863) || (896 <=? h) && (h <=? 1023).
Definition inHead4 (h : N) : bool := (1024 <=? h) && (h <=? 17407).
Definition encodeHead3 (h : N) : bytes :=
  [ toByte (N.lor 224 (N.shiftr h 6)); toByte (N.lor 128 (N.land h 63)) ].
Definition encodeHead4 (h : N) : bytes :=
  [ toByte (N.lor 240 (N.shiftr h 12));
    toByte (N.lor 128 (N.land (N.shiftr h 6) 63));
    toByte (N.lor 128 (N.land h 63)) ].
Definition head3_ok (c0 c1 : ascii) : bool :=
  inHead3 (head3 c0 c1) && bytes_eqb (encodeHead3 (head3 c0 c1)) [c0; c1].
Definition head4_ok (c0 c1 c2 : ascii) : bool :=
  inHead4 (head4 c0 c1 c2) && bytes_eqb (encodeHead4 (head4 c0 c1 c2)) [c0; c1; c2].

(** The outcomes of [DecodeRune]: the end of the input, an ASCII byte, a
    byte that starts no well-formed sequence, or a well-formed sequence of
    two to four bytes. *)
Inductive decoded (s : bytes) (r : N) (size : nat) : Prop :=
| dec_empty : s = [] -> r = RuneError -> size = 0%nat -> decoded s r size
| dec_ascii c t : s = c :: t -> code c < 128 -> r = code c -> size = 1%nat -> decoded s r size
| dec_invalid c t : s = c :: t -> 128 <= code c -> r = RuneError -> size = 1%nat ->
    decoded s r size
| dec_multi c t : s = c :: t -> 128 <= code c -> (2 <= size <= 4)%nat ->
    (size <= length s)%nat ->
    EncodeRune r = firstn size s ->
    Forall (fun x => 128 <= code x) (firstn size s) ->
    (forall rest, DecodeRune (firstn size s ++ rest) = (r, size)) ->
    decoded s r size.

End utf8.

(** ** Package [unicode/utf16] *)

Module utf16.

Local Open Scope N_scope.

(** [utf16.IsSurrogate(r)]. *)
Definition IsSurrogate (r : N) : bool := (55296 <=? r) && (r <? 57344).

(** [utf16.DecodeRune(r1, r2)]: the code point of a surrogate pair, U+FFFD
    when the pair is not valid. *)
Definition DecodeRune (r1 r2 : N) : N :=
  if (55296 <=? r1) && (r1 <? 56320) && (56320 <=? r2) && (r2 <? 57344)
  then N.lor (N.shiftl (r1 - 55296) 10) (r2 - 56320) + 65536
  else utf8.RuneError.

End utf16.

(** ** Package [encoding/json]

    The part of the package that [json.Marshal] and [json.Unmarshal] run for
    a value of type [OwnershipVoucher]: the encoding of a struct of string and
    bool fields under its [json] tags, the syntax of JSON texts, and the
    decoding of a JSON text into the struct. *)

Module json.

Local Open Scope N_scope.

Definition quote : ascii := "034"%char.
Definition backslash : ascii := "092"%char.
Definition isc (c d : ascii) : bool := Ascii.eqb c d.
(** *** Encoding *)

(** [hex = "0123456789abcdef"], indexed. *)
Definition hex (n : N) : ascii := nth (N.to_nat n) (lit "0123456789abcdef") zero.

(** [htmlSafeSet[b]] for [b < utf8.RuneSelf]: the ASCII characters written
    without escaping, all from the space on except the double quote, the
    backslash, and the HTML characters [<], [>] and [&]. *)
Definition htmlSafeSet (b : ascii) : bool :=
  (32 <=? code b) && negb (isc b quote) && negb (isc b backslash)
  && negb (isc b "<") && negb (isc b ">") && negb (isc b "&").

(** The escape written for an ASCII byte outside [htmlSafeSet]. *)
Definition escapeByte (b : ascii) : bytes :=
  if isc b backslash || isc b quote then [backslash; b]
  else if isc b "010" then [backslash; "n"%char]
  else if isc b "013" then [backslash; "r"%char]
  else if isc b "009" then [backslash; "t"%char]
  else (backslash :: lit "u00") ++ [hex (N.shiftr (code b) 4); hex (N.land (code b) 15)].

(** The loop of [encodeState.string] over [s[i:]], with HTML escaping on (the
    setting of [Marshal]).  Each round advances by at least one byte, so
    [length s] rounds reach the end. *)
Fixpoint string_loop (rounds : nat) (s : bytes) : bytes :=
  match rounds with
  | O => []
  | S rounds' =>
    match s with
    | [] => []
    | b :: rest =>
      if code b <? utf8.RuneSelf then
        (if htmlSafeSet b then [b] else escapeByte b) ++ string_loop rounds' rest
      else
        let '(c, size) := utf8.DecodeRune s in
        if (c =? utf8.RuneError) && (size =? 1)%nat then
          (backslash :: lit "ufffd") ++ string_loop rounds' (skipn size s)
        else if (c =? 8232) || (c =? 8233) then
          (backslash :: lit "u202") ++ [hex (N.land c 15)] ++ string_loop rounds' (skipn size s)
        else
          firstn size s ++ string_loop rounds' (skipn size s)
    end
  end.

(** A Go string as a JSON string literal. *)
Definition encodeString (s : bytes) : bytes :=
  [quote] ++ string_loop (length s) s ++ [quote].

Definition encodeBool (b : bool) : bytes :=
  if b then lit "true" else lit "false".

(** A struct field: its name as a JSON string, a colon, and the encoded
    value. *)
Definition encodeField (name : string) (value : bytes) : bytes :=
  encodeString (lit name) ++ lit ":" ++ value.

Definition encodeInner (v : Inner) : bytes :=
  lit "{"
  ++ encodeField "created-on" (encodeString (CreatedOn v)) ++ lit ","
  ++ encodeField "expires-on" (encodeString (ExpiresOn v)) ++ lit ","
  ++ encodeField "serial-number" (encodeString (SerialNumber v)) ++ lit ","
  ++ encodeField "assertion" (encodeString (Assertion v)) ++ lit ","
  ++ encodeField "pinned-domain-cert" (encodeString (PinnedDomainCert v)) ++ lit ","
  ++ encodeField "domain-cert-revocation-checks"
       (encodeBool (DomainCertRevocationChecks v))
  ++ lit "}".

Definition encodeOwnershipVoucher (v : OwnershipVoucher) : bytes :=
  lit "{" ++ encodeField "ietf-voucher:voucher" (encodeInner (OV v)) ++ lit "}".

Inductive MarshalError := UnsupportedTypeError | UnsupportedValueError.

(** [json.Marshal(ov)].  The struct has string and bool fields only, no
    marshaler, channel, function or cyclic value: no error arises. *)
Definition Marshal (v : OwnershipVoucher) : Result MarshalError bytes :=
  Ok (encodeOwnershipVoucher v).

(** What a Go string becomes when it is written as a JSON string and read
    back: each byte that is not part of a well-formed UTF-8 sequence is
    replaced by U+FFFD; a well-formed sequence is kept. *)
Fixpoint coerce_loop (rounds : nat) (s : bytes) : bytes :=
  match rounds with
  | O => []
  | S rounds' =>
    match s with
    | [] => []
    | _ =>
      let '(c, size) := utf8.DecodeRune s in
      if (c =? utf8.RuneError) && (size =? 1)%nat
      then utf8.EncodeRune utf8.RuneError ++ coerce_loop rounds' (skipn size s)
      else firstn size s ++ coerce_loop rounds' (skipn size s)
    end
  end.

Definition coerce (s : bytes) : bytes := coerce_loop (length s) s.

Definition coerceInner (v : Inner) : Inner :=
  mkInner (coerce (CreatedOn v)) (coerce (ExpiresOn v)) (coerce (SerialNumber v))
          (coerce (Assertion v)) (coerce (PinnedDomainCert v))
          (DomainCertRevocationChecks v).

Definition coerceOwnershipVoucher (v : OwnershipVoucher) : OwnershipVoucher :=
  mkOwnershipVoucher (coerceInner (OV v)).

(** *** JSON texts *)

(** A JSON value.  A number keeps its text; an object keeps its members in
    the order of the text, repeated keys included. *)
Inductive value :=
| JNull
| JBool (b : bool)
| JNumber (text : bytes)
| JString (s : bytes)
| JArray (elems : list value)
| JObject (members : list (bytes * value)).

(** [isSpace]: space, tab, carriage return, line feed. *)
Definition isSpace (c : ascii) : bool :=
  isc c " " || isc c "009" || isc c "013" || isc c "010".

Fixpoint skipSpace (s : bytes) : bytes :=
  match s with
  | c :: s' => if isSpace c then skipSpace s' else s
  | [] => []
  end.

Definition isDigit (c : ascii) : bool := (48 <=? code c) && (code c <=? 57).

Definition isHex (c : ascii) : bool :=
  isDigit c || ((97 <=? code c) && (code c <=? 102))
  || ((65 <=? code c) && (code c <=? 70)).

(** The scanner's states inside a string literal: [stateInString],
    [stateInStringEsc], and [stateInStringEscU], [EscU1], [EscU12], [EscU123]
    as the number of hexadecimal digits still due. *)
Inductive stringState :=
| inString
| inStringEsc
| inStringEscU (due : nat).

Definition consRaw (c : ascii) (r : option (bytes * bytes)) : option (bytes * bytes) :=
  match r with
  | Some (raw, rest) => Some (c :: raw, rest)
  | None => None
  end.

(** The scanner over a string literal, from after its opening quote: the
    text up to the closing quote and the input after it; [None] on a control
    character, a bad escape, or the end of the input. *)
Fixpoint scanString (st : stringState) (s : bytes) : option (bytes * bytes) :=
  match s with
  | [] => None
  | c :: s' =>
    match st with
    | inString =>
      if isc c quote then Some ([], s')
      else if isc c backslash then consRaw c (scanString inStringEsc s')
      else if code c <? 32 then None
      else consRaw c (scanString inString s')
    | inStringEsc =>
      if isc c "b" || isc c "f" || isc c "n" || isc c "r" || isc c "t"
         || isc c backslash || isc c "/" || isc c quote
      then consRaw c (scanString inString s')
      else if isc c "u" then consRaw c (scanString (inStringEscU 4) s')
      else None
    | inStringEscU due =>
      if isHex c then
        consRaw c (scanString (match due with
                               | S (S k) => inStringEscU (S k)
                               | _ => inString
                               end) s')
      else None
    end
  end.

Definition hexValue (c : ascii) : option N :=
  if isDigit c then Some (code c - 48)
  else if (97 <=? code c) && (code c <=? 102) then Some (code c - 97 + 10)
  else if (65 <=? code c) && (code c <=? 70) then Some (code c - 65 + 10)
  else None.

(** [getu4(s)]: the code unit of a leading [\uXXXX]; [None] for [-1]. *)
Definition getu4 (s : bytes) : option N :=
  match s with
  | c0 :: c1 :: h0 :: h1 :: h2 :: h3 :: _ =>
    if isc c0 backslash && isc c1 "u" then
      match hexValue h0, hexValue h1, hexValue h2, hexValue h3 with
      | Some a, Some b, Some c, Some d => Some (((a * 16 + b) * 16 + c) * 16 + d)
      | _, _, _, _ => None
      end
    else None
  | _ => None
  end.

(** The loop of [unquoteBytes] over the text between the quotes.  The
    library first skips the longest prefix that needs no change and copies
    it; the loop below treats those bytes one rune at a time, with the same
    result.  Each round advances by at least one byte. *)
Fixpoint unquote_loop (rounds : nat) (s : bytes) : option bytes :=
  match rounds with
  | O => match s with [] => Some [] | _ => None end
  | S rounds' =>
    match s with
    | [] => Some []
    | c :: s1 =>
      if isc c backslash then
        match s1 with
        | [] => None
        | e :: s2 =>
          let emit (b : bytes) (rest : bytes) :=
            option_map (app b) (unquote_loop rounds' rest) in
          if isc e quote || isc e backslash || isc e "/" || isc e "'" then emit [e] s2
          else if isc e "b" then emit ["008"%char] s2
          else if isc e "f" then emit ["012"%char] s2
          else if isc e "n" then emit ["010"%char] s2
          else if isc e "r" then emit ["013"%char] s2
          else if isc e "t" then emit ["009"%char] s2
          else if isc e "u" then
            match getu4 s with
            | None => None
            | Some rr =>
              let s6 := skipn 6 s in
              if utf16.IsSurrogate rr then
                let dec := match getu4 s6 with
                           | Some rr1 => utf16.DecodeRune rr rr1
                           | None => utf8.RuneError
                           end in
                if negb (dec =? utf8.RuneError)
                then emit (utf8.EncodeRune dec) (skipn 6 s6)
                else emit (utf8.EncodeRune utf8.RuneError) s6
              else emit (utf8.EncodeRune rr) s6
            end
          else None
        end
      else if isc c quote || (code c <? 32) then None
      else if code c <? utf8.RuneSelf then
        option_map (cons c) (unquote_loop rounds' s1)
      else
        let '(rr, size) := utf8.DecodeRune s in
        option_map (app (utf8.EncodeRune rr)) (unquote_loop rounds' (skipn size s))
    end
  end.

Definition unquote (raw : bytes) : option bytes := unquote_loop (length raw) raw.

(** A string literal, from after its opening quote: its value and the input
    after the closing quote. *)
Definition parseString (s : bytes) : option (bytes * bytes) :=
  match scanString inString s with
  | Some (raw, rest) =>
    match unquote raw with
    | Some t => Some (t, rest)
    | None => None
    end
  | None => None
  end.

(** The longest run of digits at the start of the input. *)
Fixpoint digits (s : bytes) : bytes * bytes :=
  match s with
  | c :: s' =>
    if isDigit c then let '(d, rest) := digits s' in (c :: d, rest) else ([], s)
  | [] => ([], [])
  end.

(** One or more digits. *)
Definition digits1 (s : bytes) : option (bytes * bytes) :=
  match digits s with
  | ([], _) => None
  | r => Some r
  end.

(** A number: an optional minus, [0] or a digit from [1] to [9] followed by
    digits, an optional fraction, an optional exponent (the scanner's states
    [stateNeg], [state0], [state1], [stateDot], [stateDot0], [stateE],
    [stateESign], [stateE0]). *)
Definition parseNumber (s : bytes) : option (bytes * bytes) :=
  let '(sign, s0) := match s with
                     | c :: s' => if isc c "-" then ([c], s') else ([], s)
                     | [] => ([], s)
                     end in
  match s0 with
  | [] => None
  | c :: s1 =>
    let int := if isc c "0" then Some ([c], s1)
               else if isDigit c then let '(d, r) := digits s1 in Some (c :: d, r)
               else None in
    match int with
    | None => None
    | Some (i, s2) =>
      let frac := match s2 with
                  | c2 :: s3 =>
                    if isc c2 "." then
                      match digits1 s3 with
                      | Some (d, r) => Some (c2 :: d, r)
                      | None => None
                      end
                    else Some ([], s2)
                  | [] => Some ([], s2)
                  end in
      match frac with
      | None => None
      | Some (f, s4) =>
        let expo := match s4 with
                    | c4 :: s5 =>
                      if isc c4 "e" || isc c4 "E" then
                        let '(sg, s6) := match s5 with
                                         | c5 :: s5' =>
                                           if isc c5 "+" || isc c5 "-"
                                           then ([c5], s5') else ([], s5)
                                         | [] => ([], s5)
                                         end in
                        match digits1 s6 with
                        | Some (d, r) => Some (c4 :: sg ++ d, r)
                        | None => None
                        end
                      else Some ([], s4)
                    | [] => Some ([], s4)
                    end in
        match expo with
        | None => None
        | Some (e, s7) => Some (sign ++ i ++ f ++ e, s7)
        end
      end
    end
  end.

(** [maxNestingDepth]: the scanner refuses arrays and objects nested deeper
    than this. *)
Definition maxNestingDepth : N := 10000.

(** The grammar of values, as the scanner accepts it and the decoder reads
    it.  [parseValue] reads a value from its first character; [parseElements]
    the elements of an array from the first one on; [parseMembers] the
    members of an object from the first key on.  [depth] counts the arrays and
    objects that are open; [rounds] bounds the number of calls, each of which
    consumes input. *)
Fixpoint parseValue (rounds : nat) (depth : N) (s : bytes) : option (value * bytes) :=
  match rounds with
  | O => None
  | S rounds' =>
    match s with
    | [] => None
    | c :: s' =>
      if isc c "{" then
        if maxNestingDepth <? depth + 1 then None else
        match skipSpace s' with
        | c1 :: s1 =>
          if isc c1 "}" then Some (JObject [], s1)
          else match parseMembers rounds' (depth + 1) (c1 :: s1) with
               | Some (ms, rest) => Some (JObject ms, rest)
               | None => None
               end
        | [] => None
        end
      else if isc c "[" then
        if maxNestingDepth <? depth + 1 then None else
        match skipSpace s' with
        | c1 :: s1 =>
          if isc c1 "]" then Some (JArray [], s1)
          else match parseElements rounds' (depth + 1) (c1 :: s1) with
               | Some (vs, rest) => Some (JArray vs, rest)
               | None => None
               end
        | [] => None
        end
      else if isc c quote then
        match parseString s' with
        | Some (t, rest) => Some (JString t, rest)
        | None => None
        end
      else if isc c "-" || isDigit c then
        match parseNumber s with
        | Some (t, rest) => Some (JNumber t, rest)
        | None => None
        end
      else if strings.HasPrefix s (lit "true") then Some (JBool true, skipn 4 s)
      else if strings.HasPrefix s (lit "false") then Some (JBool false, skipn 5 s)
      else if strings.HasPrefix s (lit "null") then Some (JNull, skipn 4 s)
      else None
    end
  end
with parseElements (rounds : nat) (depth : N) (s : bytes) : option (list value * bytes) :=
  match rounds with
  | O => None
  | S rounds' =>
    match parseValue rounds' depth s with
    | Some (v, rest) =>
      match skipSpace rest with
      | c :: s1 =>
        if isc c "]" then Some ([v], s1)
        else if isc c "," then
          match parseElements rounds' depth (skipSpace s1) with
          | Some (vs, rest') => Some (v :: vs, rest')
          | None => None
          end
        else None
      | [] => None
      end
    | None => None
    end
  end
with parseMembers (rounds : nat) (depth : N) (s : bytes) : option (list (bytes * value) * bytes) :=
  match rounds with
  | O => None
  | S rounds' =>
    match s with
    | c :: s' =>
      if isc c quote then
        match parseString s' with
        | Some (key, rest) =>
          match skipSpace rest with
          | c1 :: s1 =>
            if isc c1 ":" then
              match parseValue rounds' depth (skipSpace s1) with
              | Some (v, rest1) =>
                match skipSpace rest1 with
                | c2 :: s2 =>
                  if isc c2 "}" then Some ([(key, v)], s2)
                  else if isc c2 "," then
                    match parseMembers rounds' depth (skipSpace s2) with
                    | Some (ms, rest2) => Some ((key, v) :: ms, rest2)
                    | None => None
                    end
                  else None
                | [] => None
                end
              | None => None
              end
            else None
          | [] => None
          end
        | None => None
        end
      else None
    | [] => None
    end
  end.

(** [checkValid]: the whole input is one JSON value between optional white
    space.  A call of [parseValue], [parseElements] or [parseMembers] that
    succeeds consumes at least one byte, and between two calls for the same
    array or object a byte is consumed: [2 * length data + 2] rounds do not
    run out. *)
Definition parse (data : bytes) : option value :=
  match parseValue (2 * length data + 2) 0 (skipSpace data) with
  | Some (v, rest) =>
    match skipSpace rest with
    | [] => Some v
    | _ => None
    end
  | None => None
  end.

(** *** Decoding into the struct *)

Definition isLetter (c : ascii) : bool :=
  let u := N.land (code c) 223 in (65 <=? u) && (u <=? 90).

(** Equality of a field name [s], which is ASCII, and a key [t] under simple
    case folding: an ASCII letter matches both of its cases, [s] and [k] match
    also U+017F (long s) and U+212A (Kelvin sign). *)
Fixpoint equalFold (s t : bytes) : bool :=
  match s with
  | [] => match t with [] => true | _ => false end
  | sb :: s' =>
    match t with
    | [] => false
    | tb :: t' =>
      if code tb <? utf8.RuneSelf then
        if isc sb tb then equalFold s' t'
        else if isLetter sb
        then (N.land (code sb) 223 =? N.land (code tb) 223) && equalFold s' t'
        else false
      else
        let '(tr, size) := utf8.DecodeRune t in
        if isc sb "s" || isc sb "S" then (tr =? 383) && equalFold s' (skipn size t)
        else if isc sb "k" || isc sb "K" then (tr =? 8490) && equalFold s' (skipn size t)
        else false
    end
  end.

Fixpoint findIndex {A} (f : A -> bool) (l : list A) : option nat :=
  match l with
  | [] => None
  | x :: l' => if f x then Some O else option_map S (findIndex f l')
  end.

(** The field for a key: the one with exactly that name, otherwise the first
    whose name equals the key under case folding. *)
Definition findField (names : list bytes) (key : bytes) : option nat :=
  match findIndex (bytes_eqb key) names with
  | Some i => Some i
  | None => findIndex (fun name => equalFold name key) names
  end.

(** A decoding in progress: the value so far, and whether an
    [UnmarshalTypeError] has been saved. *)
Definition decoding (A : Type) : Type := A * bool.

(** A JSON value stored into a field of type [string]: a string is stored,
    [null] changes nothing, anything else is a type error. *)
Definition storeString (j : value) (cur : bytes) : decoding bytes :=
  match j with
  | JString t => (t, false)
  | JNull => (cur, false)
  | _ => (cur, true)
  end.

(** A JSON value stored into a field of type [bool]. *)
Definition storeBool (j : value) (cur : bool) : decoding bool :=
  match j with
  | JBool b => (b, false)
  | JNull => (cur, false)
  | _ => (cur, true)
  end.

Definition namesInner : list bytes :=
  [ lit "created-on"; lit "expires-on"; lit "serial-number"; lit "assertion";
    lit "pinned-domain-cert"; lit "domain-cert-revocation-checks" ].

Definition storeInnerField (i : nat) (j : value) (v : Inner) : decoding Inner :=
  match i with
  | 0%nat => let '(x, e) := storeString j (CreatedOn v) in
       (mkInner x (ExpiresOn v) (SerialNumber v) (Assertion v) (PinnedDomainCert v)
                (DomainCertRevocationChecks v), e)
  | 1%nat => let '(x, e) := storeString j (ExpiresOn v) in
       (mkInner (CreatedOn v) x (SerialNumber v) (Assertion v) (PinnedDomainCert v)
                (DomainCertRevocationChecks v), e)
  | 2%nat => let '(x, e) := storeString j (SerialNumber v) in
       (mkInner (CreatedOn v) (ExpiresOn v) x (Assertion v) (PinnedDomainCert v)
                (DomainCertRevocationChecks v), e)
  | 3%nat => let '(x, e) := storeString j (Assertion v) in
       (mkInner (CreatedOn v) (ExpiresOn v) (SerialNumber v) x (PinnedDomainCert v)
                (DomainCertRevocationChecks v), e)
  | 4%nat => let '(x, e) := storeString j (PinnedDomainCert v) in
       (mkInner (CreatedOn v) (ExpiresOn v) (SerialNumber v) (Assertion v) x
                (DomainCertRevocationChecks v), e)
  | _ => let '(x, e) := storeBool j (DomainCertRevocationChecks v) in
       (mkInner (CreatedOn v) (ExpiresOn v) (SerialNumber v) (Assertion v)
                (PinnedDomainCert v) x, e)
  end.

(** The members of an object stored into the struct they are for, in the
    order of the text: a key that names no field is skipped, a later member
    overwrites an earlier one, and a type error does not stop the decoding. *)
Definition storeMembers {A} (names : list bytes) (store : nat -> value -> A -> decoding A)
    (members : list (bytes * value)) (v : A) : decoding A :=
  fold_left
    (fun (acc : decoding A) (m : bytes * value) =>
       match findField names (fst m) with
       | Some i => let '(v', e) := store i (snd m) (fst acc) in (v', snd acc || e)
       | None => acc
       end)
    members (v, false).

(** A JSON value stored into a value of type [Inner]. *)
Definition storeInner (j : value) (v : Inner) : decoding Inner :=
  match j with
  | JObject members => storeMembers namesInner storeInnerField members v
  | JNull => (v, false)
  | _ => (v, true)
  end.

Definition namesOwnershipVoucher : list bytes := [ lit "ietf-voucher:voucher" ].

Definition storeOwnershipVoucherField (i : nat) (j : value) (v : OwnershipVoucher)
    : decoding OwnershipVoucher :=
  let '(x, e) := storeInner j (OV v) in (mkOwnershipVoucher x, e).

Definition storeOwnershipVoucher (j : value) (v : OwnershipVoucher)
    : decoding OwnershipVoucher :=
  match j with
  | JObject members =>
    storeMembers namesOwnershipVoucher storeOwnershipVoucherField members v
  | JNull => (v, false)
  | _ => (v, true)
  end.

Inductive UnmarshalError :=
| SyntaxError           (* the input is not a JSON text *)
| UnmarshalTypeError.   (* a JSON value does not fit the Go type it is for *)

(** [json.Unmarshal(data, &v)] for [v] of type [OwnershipVoucher]: the input
    is checked to be a JSON text, then decoded into [v]; the first type error
    is returned after the decoding has run to its end. *)
Definition Unmarshal (data : bytes) (v : OwnershipVoucher)
    : Result UnmarshalError OwnershipVoucher :=
  match parse data with
  | None => Err SyntaxError
  | Some j =>
    match storeOwnershipVoucher j v with
    | (v', false) => Ok v'
    | (_, true) => Err UnmarshalTypeError
    end
  end.

(** *** Abbreviations for the proofs *)

Definition prependRaw (chunk : bytes) (r : option (bytes * bytes)) : option (bytes * bytes) :=
  match r with
  | Some (raw, rest) => Some (chunk ++ raw, rest)
  | None => None
  end.

(** What the string encoder writes in one round ([chunk]) for the bytes that
    are read back as [dec]: the scanner passes over the chunk inside a
    string literal, and one round of unquoting turns it into [dec]. *)
Definition goodChunk (chunk dec : bytes) : Prop :=
  chunk <> []
  /\ (forall X, scanString inString (chunk ++ X) = prependRaw chunk (scanString inString X))
  /\ (forall m Y, unquote_loop (S m) (chunk ++ Y) = option_map (app dec) (unquote_loop m Y)).

(** The scanner's state after a chunk inside a string literal; [None] when
    the chunk ends the literal or is refused. *)
Fixpoint scanChunk (st : stringState) (chunk : bytes) : option stringState :=
  match chunk with
  | [] => Some st
  | c :: chunk' =>
    match st with
    | inString =>
      if isc c quote then None
      else if isc c backslash then scanChunk inStringEsc chunk'
      else if code c <? 32 then None
      else scanChunk inString chunk'
    | inStringEsc =>
      if isc c "b" || isc c "f" || isc c "n" || isc c "r" || isc c "t"
         || isc c backslash || isc c "/" || isc c quote
      then scanChunk inString chunk'
      else if isc c "u" then scanChunk (inStringEscU 4) chunk'
      else None
    | inStringEscU due =>
      if isHex c then
        scanChunk (match due with
                   | S (S k) => inStringEscU (S k)
                   | _ => inString
                   end) chunk'
      else None
    end
  end.

(** The JSON values that the encoder's texts denote. *)
Definition valueOfInner (v : Inner) : value :=
  JObject [ (lit "created-on", JString (coerce (CreatedOn v)));
            (lit "expires-on", JString (coerce (ExpiresOn v)));
            (lit "serial-number", JString (coerce (SerialNumber v)));
            (lit "assertion", JString (coerce (Assertion v)));
            (lit "pinned-domain-cert", JString (coerce (PinnedDomainCert v)));
            (lit "domain-cert-revocation-checks", JBool (DomainCertRevocationChecks v)) ].

Definition valueOfOwnershipVoucher (v : OwnershipVoucher) : value :=
  JObject [ (lit "ietf-voucher:voucher", valueOfInner (OV v)) ].

End json.

(** Claims whose string fields are text: well-formed UTF-8. *)
Definition validClaims (v : OwnershipVoucher) : bool :=
  utf8.Valid (CreatedOn (OV v)) && utf8.Valid (ExpiresOn (OV v))
  && utf8.Valid (SerialNumber (OV v)) && utf8.Valid (Assertion (OV v))
  && utf8.Valid (PinnedDomainCert (OV v)).

(** *** Well-formed runes and printable bytes, for the proofs *)

(** Bytes that [DecodeRune] reads as one rune of their width, and not as a
    byte in error, whatever follows them. *)
Definition wellFormedRune (c : bytes) : Prop :=
  c <> [] /\
  forall rest, exists r,
    utf8.DecodeRune (c ++ rest) = (r, length c)
    /\ ((r =? utf8.RuneError)%N && (length c =? 1)%nat) = false.


(** The numbers from [lo] on, [len] of them. *)
Fixpoint nRange (lo : N) (len : nat) : list N :=
  match len with
  | O => []
  | S len' => lo :: nRange (N.succ lo) len'
  end.

(** The tests that the bytes which [EncodeRune] writes for a rune are
    accepted by [DecodeRune]: the two bytes for the head of a rune of two
    bytes, the last byte of a rune, and the first bytes for the heads of the
    runes of three and four bytes. *)
Definition encodedHead2_ok (h : N) : bool :=
  match utf8.first (code (utf8.toByte (N.lor 192 h))) with
  | utf8.lead sz lo hi => (sz =? 2)%nat && (lo =? 128)%N && (hi =? 191)%N
  | _ => false
  end.
Definition encodedLast_ok (d : N) : bool :=
  negb (utf8.outside 128 191 (utf8.toByte (N.lor 128 d))).
Definition encodedHead3_ok (h : N) : bool :=
  match utf8.encodeHead3 h with
  | [c0; c1] =>
    match utf8.first (code c0) with
    | utf8.lead sz lo hi => (sz =? 3)%nat && negb (utf8.outside lo hi c1)
    | _ => false
    end
  | _ => false
  end.
Definition encodedHead4_ok (h : N) : bool :=
  match utf8.encodeHead4 h with
  | [c0; c1; c2] =>
    match utf8.first (code c0) with
    | utf8.lead sz lo hi =>
      (sz =? 4)%nat && negb (utf8.outside lo hi c1) && negb (utf8.outside 128 191 c2)
    | _ => false
    end
  | _ => false
  end.

(** The strings that are values in a JSON value are well-formed UTF-8. *)
Fixpoint stringsValid (v : json.value) : bool :=
  match v with
  | json.JString s => utf8.Valid s
  | json.JArray elems => forallb stringsValid elems
  | json.JObject members => forallb (fun m => stringsValid (snd m)) members
  | _ => true
  end.

(** The strings of the inner struct are well-formed UTF-8. *)
Definition validInner (v : Inner) : bool :=
  utf8.Valid (CreatedOn v) && utf8.Valid (ExpiresOn v) && utf8.Valid (SerialNumber v)
  && utf8.Valid (Assertion v) && utf8.Valid (PinnedDomainCert v).

(** ** The external packages

    The code calls packages that are not part of the repository: [time],
    [go.mozilla.org/pkcs7] with [crypto/x509] and [crypto/rsa], [crypto/tls]
    and [path/filepath].  Each is an interface here: its types and
    operations, and for [pkcs7] the contract of a signed-data library that the
    voucher code relies on. *)

(** Package [time].  A [Duration] is a number of nanoseconds. *)
Definition Duration := Z.
Definition Nanosecond : Duration := 1%Z.
Definition Microsecond : Duration := (1000 * Nanosecond)%Z.
Definition Millisecond : Duration := (1000 * Microsecond)%Z.
Definition Second : Duration := (1000 * Millisecond)%Z.
Definition Minute : Duration := (60 * Second)%Z.
Definition Hour : Duration := (60 * Minute)%Z.

Class TimePkg := {
  Time : Type;
  (** [t.Add(d)] *)
  Time_Add : Time -> Duration -> Time;
  (** [t.String()] *)
  Time_String : Time -> bytes
}.

(** An ASN.1 object identifier. *)
Definition ObjectIdentifier := list Z.
Definition OIDDigestAlgorithmSHA256 : ObjectIdentifier := [2; 16; 840; 1; 101; 3; 4; 2; 1]%Z.
Definition OIDEncryptionAlgorithmRSA : ObjectIdentifier := [1; 2; 840; 113549; 1; 1; 1]%Z.

(** Package [pkcs7], with the [x509] and [rsa] types it is called with. *)
Class Pkcs7Pkg (T : TimePkg) := {
  Certificate : Type;        (* [*x509.Certificate] *)
  PrivateKey : Type;         (* [*rsa.PrivateKey] *)
  CertPool : Type;           (* [*x509.CertPool] *)
  PKCS7 : Type;              (* [*pkcs7.PKCS7], a parsed envelope *)
  SignedData : Type;         (* [*pkcs7.SignedData], an envelope being built *)
  SignerInfoConfig : Type;
  Pkcs7Error : Type;
  (** [p7.Content] *)
  Content : PKCS7 -> bytes;
  (** [SignerInfoConfig{}] *)
  SignerInfoConfig_zero : SignerInfoConfig;
  (** [pkcs7.Parse(data)] *)
  Parse : bytes -> Result Pkcs7Error PKCS7;
  (** [pkcs7.NewSignedData(data)] *)
  NewSignedData : bytes -> Result Pkcs7Error SignedData;
  (** [sd.SetDigestAlgorithm(oid)], [sd.SetEncryptionAlgorithm(oid)] *)
  SetDigestAlgorithm : ObjectIdentifier -> SignedData -> SignedData;
  SetEncryptionAlgorithm : ObjectIdentifier -> SignedData -> SignedData;
  (** [sd.AddSigner(cert, key, config)], which stamps the signer with the
      time it reads from the clock: the reading is the argument [now]. *)
  AddSignerAt : Time -> Certificate -> PrivateKey -> SignerInfoConfig -> SignedData
                -> Result Pkcs7Error SignedData;
  (** [sd.Finish()] *)
  Finish : SignedData -> Result Pkcs7Error bytes;
  (** [p7.VerifyWithChain(truststore)]; [None] is the [nil] error. *)
  VerifyWithChain : PKCS7 -> CertPool -> option Pkcs7Error;

  (** [key] is the private key of [cert] and can sign with RSA and SHA-256. *)
  ValidSigner : Certificate -> PrivateKey -> Prop;
  (** [cert] is in the pool or chains to a certificate of the pool, and is
      valid at the time [t]. *)
  Trusts : CertPool -> Certificate -> Time -> Prop;

  (** The contract of signing: an envelope over [data] with the one signer
      [cert], built with SHA-256 and RSA, is finished into bytes that are not
      empty and parse back to an envelope whose content is [data]; it
      verifies against every pool that trusts [cert] at the signing time. *)
  sign_then_verify :
    forall (data : bytes) (cert : Certificate) (key : PrivateKey) (now : Time),
      ValidSigner cert key ->
      exists sd0 sd1 out p7,
        NewSignedData data = Ok sd0
        /\ AddSignerAt now cert key SignerInfoConfig_zero
             (SetEncryptionAlgorithm OIDEncryptionAlgorithmRSA
                (SetDigestAlgorithm OIDDigestAlgorithmSHA256 sd0)) = Ok sd1
        /\ Finish sd1 = Ok out
        /\ out <> []
        /\ Parse out = Ok p7
        /\ Content p7 = data
        /\ (forall pool, Trusts pool cert now -> VerifyWithChain p7 pool = None)
}.

(** Package [crypto/tls]. *)
Class TlsPkg := {
  tls_Certificate : Type;
  TlsError : Type;
  (** [tls.X509KeyPair(certPEMBlock, keyPEMBlock)]: fails when the blocks do
      not parse or the private key does not match the certificate. *)
  X509KeyPair : bytes -> bytes -> Result TlsError tls_Certificate
}.

(** Package [path/filepath]. *)
Class FilepathPkg := {
  (** [filepath.Join(dir, name)] *)
  Join : bytes -> bytes -> bytes
}.

(** ** The process and its surroundings

    What the code reads besides its arguments: the clock, the file system,
    and the flags of the command line.  The clock is the sequence of its
    future readings. *)

Inductive OsError := ErrNotExist | ErrPermission | ErrOther (msg : bytes).

Record World {T : TimePkg} := mkWorld {
  clock : nat -> Time;
  (** [os.ReadFile(path)] *)
  files : bytes -> Result OsError bytes;
  (** [os.ReadDir(path)]: the names of the directory's entries, sorted. *)
  dirs : bytes -> Result OsError (list bytes);
  (** the flag [-artifact_dir] *)
  artifactDirectory : bytes
}.
Arguments World : clear implicits.
Arguments mkWorld {T}.

(** A computation that may read and change the world. *)
Definition IO {T : TimePkg} (A : Type) : Type := World T -> A * World T.

Definition ret {T : TimePkg} {A} (a : A) : IO A := fun w => (a, w).

Definition bind {T : TimePkg} {A B} (m : IO A) (k : A -> IO B) : IO B :=
  fun w => let '(a, w') := m w in k a w'.

Notation "x <- m ;; k" := (bind m (fun x => k))
  (at level 100, m at next level, right associativity).

(** [time.Now()]: the next reading of the clock. *)
Definition time_Now {T : TimePkg} : IO Time :=
  fun w => (clock w O,
            mkWorld (fun n => clock w (S n)) (files w) (dirs w) (artifactDirectory w)).

(** [os.ReadFile], [os.ReadDir] and the flag, read from the world. *)
Definition os_ReadFile {T : TimePkg} (path : bytes) : IO (Result OsError bytes) :=
  fun w => (files w path, w).

Definition os_ReadDir {T : TimePkg} (path : bytes) : IO (Result OsError (list bytes)) :=
  fun w => (dirs w path, w).

Definition flag_artifactDirectory {T : TimePkg} : IO bytes :=
  fun w => (artifactDirectory w, w).

(** ** Package [ownershipvoucher] *)

Section OwnershipVoucher.

Context {T : TimePkg} {P : Pkcs7Pkg T}.

Definition ovExpiry : Duration := (Hour * 24 * 365)%Z.

(** [sd.AddSigner(cert, key, config)]. *)
Definition AddSigner (cert : Certificate) (key : PrivateKey) (config : SignerInfoConfig)
    (sd : SignedData) : IO (Result Pkcs7Error SignedData) :=
  now <- time_Now ;;
  ret (AddSignerAt now cert key config sd).

(** The errors of [VerifyAndUnmarshal], by their messages. *)
Inductive VerifyError :=
| ErrEmpty                                   (* "ownership voucher is empty" *)
| ErrParse (err : Pkcs7Error)                (* "unable to parse into pkcs7 format: ..." *)
| ErrUnmarshal (err : json.UnmarshalError)   (* "failed unmarshalling ownership voucher: ..." *)
| ErrVerify (err : Pkcs7Error).              (* "failed to verify OV: ..." *)

(** [VerifyAndUnmarshal] unmarshals the contents of an Ownership Voucher and
    verifies that it has been signed by a signer in the given cert pool. *)
Definition VerifyAndUnmarshal (in_ : bytes) (certPool : CertPool)
    : IO (Result VerifyError OwnershipVoucher) :=
  if (length in_ =? 0)%nat then ret (Err ErrEmpty) else
  match Parse in_ with
  | Err err => ret (Err (ErrParse err))
  | Ok p7 =>
    let ov := zeroOwnershipVoucher in
    match json.Unmarshal (Content p7) ov with
    | Err err => ret (Err (ErrUnmarshal err))
    | Ok ov =>
      match VerifyWithChain p7 certPool with
      | Some err => ret (Err (ErrVerify err))
      | None => ret (Ok ov)
      end
    end
  end.

(** The errors of [New]: those of the calls it makes, passed on unchanged. *)
Inductive NewError :=
| ErrMarshal (err : json.MarshalError)
| ErrSign (err : Pkcs7Error).

(** The voucher that [New] builds at the time [currentTime]. *)
Definition newVoucher (currentTime : Time) (serial : bytes) (pdcPem : bytes)
    : OwnershipVoucher :=
  {| OV := {| CreatedOn := Time_String currentTime;
              ExpiresOn := Time_String (Time_Add currentTime ovExpiry);
              SerialNumber := serial;
              Assertion := [];
              PinnedDomainCert := RemovePemHeaders pdcPem;
              DomainCertRevocationChecks := false |} |}.

(** [New] generates an Ownership Voucher which is signed by the vendor's CA. *)
Definition New (serial : bytes) (pdcPem : bytes) (vendorCACert : Certificate)
    (vendorCAPriv : PrivateKey) : IO (Result NewError bytes) :=
  currentTime <- time_Now ;;
  let ov := newVoucher currentTime serial pdcPem in
  match json.Marshal ov with
  | Err err => ret (Err (ErrMarshal err))
  | Ok ovBytes =>
    match NewSignedData ovBytes with
    | Err err => ret (Err (ErrSign err))
    | Ok signedMessage =>
      let signedMessage := SetDigestAlgorithm OIDDigestAlgorithmSHA256 signedMessage in
      let signedMessage := SetEncryptionAlgorithm OIDEncryptionAlgorithmRSA signedMessage in
      r <- AddSigner vendorCACert vendorCAPriv SignerInfoConfig_zero signedMessage ;;
      match r with
      | Err err => ret (Err (ErrSign err))
      | Ok signedMessage =>
        match Finish signedMessage with
        | Err err => ret (Err (ErrSign err))
        | Ok out => ret (Ok out)
        end
      end
    end
  end.

(** The world after two readings of the clock. *)
Definition afterNew (w : World T) : World T := snd (time_Now (snd (time_Now w))).

End OwnershipVoucher.

(** ** The server's [main] package: loading the security artifacts *)

Section Server.

Context {T : TimePkg} {L : TlsPkg} {F : FilepathPkg}.

(** [service.KeyPair]: a PEM certificate and its PEM private key. *)
Record KeyPair := mkKeyPair {
  Cert : bytes;
  Key : bytes
}.

(** [service.OVList]: a map from an identifier to a signed voucher. *)
Definition OVList := gmap bytes bytes.

(** [service.SecurityArtifacts]. *)
Record SecurityArtifacts := mkSecurityArtifacts {
  OC : KeyPair;
  PDC : KeyPair;
  VendorCA : KeyPair;
  OVs : OVList;
  TLSKeypair : tls_Certificate
}.

(** The errors of the artifact loading, by their messages. *)
Inductive LoadError :=
| ErrReadCert (name : bytes) (err : OsError)   (* "unable to read %v cert: %v" *)
| ErrReadKey (name : bytes) (err : OsError)    (* "unable to read %v key: %v" *)
| ErrListDir (err : OsError)     (* "unable to list files in artifact directory: %v" *)
| ErrReadOV (err : OsError)      (* the error of [os.ReadFile], unchanged *)
| ErrNoOVs                       (* "found no OVs in artifacts directory" *)
| ErrTLS (err : TlsError).       (* "unable to generate Server TLS Certificate from PDC %v" *)

(** [readKeypair] reads the cert/key pair from the specified artifacts
    directory.  Certs must have the format [{name}_pub.pem] and keys must have
    the format [{name}_priv.pem]. *)
Definition readKeypair (name : bytes) : IO (Result LoadError KeyPair) :=
  dir <- flag_artifactDirectory ;;
  cert <- os_ReadFile (Join dir (name ++ lit "_pub.pem")) ;;
  match cert with
  | Err err => ret (Err (ErrReadCert name err))
  | Ok cert =>
    key <- os_ReadFile (Join dir (name ++ lit "_priv.pem")) ;;
    match key with
    | Err err => ret (Err (ErrReadKey name err))
    | Ok key => ret (Ok {| Cert := cert; Key := key |})
    end
  end.

(** The loop of [readOVs] over the directory's entries. *)
Fixpoint readOVs_loop (dir : bytes) (entries : list bytes) (ovs : OVList)
    : IO (Result LoadError OVList) :=
  match entries with
  | [] => ret (Ok ovs)
  | name :: entries' =>
    if strings.HasPrefix name (lit "ov") then
      data <- os_ReadFile (Join dir name) ;;
      match data with
      | Err err => ret (Err (ErrReadOV err))
      | Ok data =>
        let trimmed := strings.TrimPrefix name (lit "ov_") in
        let trimmed := strings.TrimSuffix trimmed (lit ".txt") in
        readOVs_loop dir entries' (<[trimmed := data]> ovs)
      end
    else readOVs_loop dir entries' ovs
  end.

(** [readOVs] discovers and reads all available OVs in the artifacts
    directory. *)
Definition readOVs : IO (Result LoadError OVList) :=
  dir <- flag_artifactDirectory ;;
  entries <- os_ReadDir dir ;;
  match entries with
  | Err err => ret (Err (ErrListDir err))
  | Ok entries =>
    r <- readOVs_loop dir entries ∅ ;;
    match r with
    | Err err => ret (Err err)
    | Ok ovs =>
      if (size ovs =? 0)%nat then ret (Err ErrNoOVs)
      else ret (Ok ovs)
    end
  end.

(** [generateServerTlsCert] creates a new TLS keypair from the PDC. *)
Definition generateServerTlsCert (pdc : KeyPair) : Result LoadError tls_Certificate :=
  match X509KeyPair (Cert pdc) (Key pdc) with
  | Err err => Err (ErrTLS err)
  | Ok tlsCert => Ok tlsCert
  end.

(** [parseSecurityArtifacts] reads from the specified directory to find the
    required keypairs and ownership vouchers. *)
Definition parseSecurityArtifacts : IO (Result LoadError SecurityArtifacts) :=
  oc <- readKeypair (lit "oc") ;;
  match oc with
  | Err err => ret (Err err)
  | Ok oc =>
    pdc <- readKeypair (lit "pdc") ;;
    match pdc with
    | Err err => ret (Err err)
    | Ok pdc =>
      vendorCA <- readKeypair (lit "vendorca") ;;
      match vendorCA with
      | Err err => ret (Err err)
      | Ok vendorCA =>
        ovs <- readOVs ;;
        match ovs with
        | Err err => ret (Err err)
        | Ok ovs =>
          match generateServerTlsCert pdc with
          | Err err => ret (Err err)
          | Ok tlsCert =>
            ret (Ok {| OC := oc; PDC := pdc; VendorCA := vendorCA;
                       OVs := ovs; TLSKeypair := tlsCert |})
          end
        end
      end
    end
  end.

End Server.

(** *** The vouchers of a directory, entry by entry *)

(** The key under which [readOVs] files the entry [name]: the name without
    a leading [ov_] and without a trailing [.txt]. *)
Definition trimmed (name : bytes) : bytes :=
  strings.TrimSuffix (strings.TrimPrefix name (lit "ov_")) (lit ".txt").

(** The entries that [readOVs] reads: those whose name starts with [ov]. *)
Definition isOV (name : bytes) : bool := strings.HasPrefix name (lit "ov").

(** ** A small implementation of the external packages

    The interfaces are inhabited: a clock of integers, a signed-data library
    over one-byte names and keys whose signature is a keyed checksum, a TLS
    key-pair check and a path join.  The examples run the code on them. *)

Module Ref.

(** Package [time]: an instant is a number of nanoseconds, printed in
    decimal. *)
Definition timeString (t : Z) : bytes := lit (NilZero.string_of_int (Z.to_int t)).

#[export] Instance time : TimePkg :=
  {| Time := Z; Time_Add := Z.add; Time_String := timeString |}.

(** A certificate: the names of its subject and of its issuer, and its
    public key. *)
Record certificate := mkcertificate {
  subject : ascii;
  issuer : ascii;
  publicKey : ascii
}.

Record signer := mksigner {
  signerCert : certificate;
  signature : ascii
}.

Record signedData := mksignedData {
  content : bytes;
  signers : list signer
}.

Inductive error := NotAnEnvelope | NoSigners | UntrustedSigner | BadSignature.

(** The signature of [data] under a key: a checksum started from the key. *)
Definition sign (key : ascii) (data : bytes) : ascii :=
  fold_left (fun acc c => ascii_of_N ((code acc + code c) mod 256)) data key.

Definition encodeSigner (s : signer) : bytes :=
  [ "S"%char; subject (signerCert s); issuer (signerCert s); publicKey (signerCert s);
    signature s ].

(** The bytes of an envelope: a tag, the signers, and the content after a
    mark. *)
Definition finish (sd : signedData) : Result error bytes :=
  Ok ("0"%char :: concat (map encodeSigner (signers sd)) ++ "C"%char :: content sd).

Fixpoint parseSigners (data : bytes) : Result error signedData :=
  match data with
  | m :: rest =>
    if Ascii.eqb m "C" then Ok (mksignedData rest [])
    else if Ascii.eqb m "S" then
      match rest with
      | s :: i :: k :: g :: rest' =>
        match parseSigners rest' with
        | Ok sd => Ok (mksignedData (content sd) (mksigner (mkcertificate s i k) g :: signers sd))
        | Err e => Err e
        end
      | _ => Err NotAnEnvelope
      end
    else Err NotAnEnvelope
  | [] => Err NotAnEnvelope
  end.

Definition parseEnvelope (data : bytes) : Result error signedData :=
  match data with
  | t :: rest => if Ascii.eqb t "0" then parseSigners rest else Err NotAnEnvelope
  | [] => Err NotAnEnvelope
  end.

Definition newSignedData (data : bytes) : Result error signedData :=
  Ok (mksignedData data []).

Definition addSignerAt (now : Z) (cert : certificate) (key : ascii) (config : unit)
    (sd : signedData) : Result error signedData :=
  Ok (mksignedData (content sd) (signers sd ++ [mksigner cert (sign key (content sd))])).

Definition cert_eqb (a b : certificate) : bool :=
  Ascii.eqb (subject a) (subject b) && Ascii.eqb (issuer a) (issuer b)
  && Ascii.eqb (publicKey a) (publicKey b).

(** The certificate is in the pool, or a certificate of the pool issued it. *)
Definition trusted (pool : list certificate) (cert : certificate) : bool :=
  existsb (cert_eqb cert) pool
  || existsb (fun ca => Ascii.eqb (subject ca) (issuer cert)) pool.

Definition verifySigner (data : bytes) (pool : list certificate) (s : signer) : option error :=
  if negb (trusted pool (signerCert s)) then Some UntrustedSigner
  else if negb (Ascii.eqb (signature s) (sign (publicKey (signerCert s)) data))
  then Some BadSignature
  else None.

Fixpoint verifySigners (data : bytes) (pool : list certificate) (l : list signer)
    : option error :=
  match l with
  | [] => None
  | s :: l' =>
    match verifySigner data pool s with
    | Some e => Some e
    | None => verifySigners data pool l'
    end
  end.

Definition verifyWithChain (p7 : signedData) (pool : list certificate) : option error :=
  match signers p7 with
  | [] => Some NoSigners
  | l => verifySigners (content p7) pool l
  end.

Lemma sign_then_verify_ref (data : bytes) (cert : certificate) (key : ascii) (now : Z) :
  publicKey cert = key ->
  exists sd0 sd1 out p7,
    newSignedData data = Ok sd0
    /\ addSignerAt now cert key tt sd0 = Ok sd1
    /\ finish sd1 = Ok out
    /\ out <> []
    /\ parseEnvelope out = Ok p7
    /\ content p7 = data
    /\ (forall pool, trusted pool cert = true -> verifyWithChain p7 pool = None).
Proof.
  intros <-.
  exists (mksignedData data []),
         (mksignedData data [mksigner cert (sign (publicKey cert) data)]),
         ("0"%char :: encodeSigner (mksigner cert (sign (publicKey cert) data))
                   ++ "C"%char :: data),
         (mksignedData data [mksigner cert (sign (publicKey cert) data)]).
  repeat split; try discriminate.
  - destruct cert; reflexivity.
  - intros pool Ht. unfold verifyWithChain, verifySigners, verifySigner.
    cbn [signers content signerCert signature]. rewrite Ht, Ascii.eqb_refl. reflexivity.
Qed.

#[export] Instance pkcs7 : Pkcs7Pkg time :=
  {| Certificate := certificate;
     PrivateKey := ascii;
     CertPool := list certificate;
     PKCS7 := signedData;
     SignedData := signedData;
     SignerInfoConfig := unit;
     Pkcs7Error := error;
     Content := content;
     SignerInfoConfig_zero := tt;
     Parse := parseEnvelope;
     NewSignedData := newSignedData;
     SetDigestAlgorithm := fun _ sd => sd;
     SetEncryptionAlgorithm := fun _ sd => sd;
     AddSignerAt := addSignerAt;
     Finish := finish;
     VerifyWithChain := verifyWithChain;
     ValidSigner := fun cert key => publicKey cert = key;
     Trusts := fun pool cert _ => trusted pool cert = true;
     sign_then_verify := sign_then_verify_ref |}.

(** Package [crypto/tls]: the certificate block is the three bytes of a
    certificate, the key block the one byte of its key. *)
Inductive tlsError := BadPEM | KeyMismatch.

Definition x509KeyPair (certPEM keyPEM : bytes) : Result tlsError (certificate * ascii) :=
  match certPEM, keyPEM with
  | [s; i; k], [key] =>
    if Ascii.eqb k key then Ok (mkcertificate s i k, key) else Err KeyMismatch
  | _, _ => Err BadPEM
  end.

#[export] Instance tls : TlsPkg :=
  {| tls_Certificate := certificate * ascii; TlsError := tlsError;
     X509KeyPair := x509KeyPair |}.

(** Package [path/filepath]: the two parts, with one separator between. *)
Definition join (dir name : bytes) : bytes :=
  if strings.HasSuffix dir (lit "/") then dir ++ name else dir ++ lit "/" ++ name.

#[export] Instance filepath : FilepathPkg := {| Join := join |}.

(** A file system given by the list of its files. *)
Fixpoint lookupFile (fs : list (bytes * bytes)) (path : bytes) : Result OsError bytes :=
  match fs with
  | [] => Err ErrNotExist
  | (p, data) :: fs' => if bytes_eqb p path then Ok data else lookupFile fs' path
  end.

(** A world: a clock that starts at [start] and advances by one second at
    each reading, the files [fs], one directory [dir] with the entries
    [entries]. *)
Definition world (start : Z) (fs : list (bytes * bytes)) (dir : bytes) (entries : list bytes)
    : World time :=
  mkWorld (fun n => (start + Z.of_nat n * 1000000000)%Z)
          (lookupFile fs)
          (fun p => if bytes_eqb p dir then Ok entries else Err ErrNotExist)
          dir.

End Ref.

(** ** Examples *)

Module Ex.
(** The examples: a vendor CA that signs its own certificate, a pool that
    holds it, a domain certificate, and a world whose clock starts in
    November 2023. *)
Definition vendorCert : Ref.certificate := Ref.mkcertificate "V" "V" "k".
Definition vendorKey : ascii := "k"%char.
Definition pool : list Ref.certificate := [vendorCert].
Definition domainPem : bytes := pemHeader ++ lit "MIIBszCCAVmgAwIBAgIU" ++ pemFooter.
Definition t0 : Z := 1700000000000000000%Z.
Definition w0 : World Ref.time := Ref.world t0 [] (lit "../testdata/") [].
Definition claims0 : OwnershipVoucher :=
  newVoucher (T := Ref.time) t0 (lit "123A") domainPem.

(** An envelope over [data], signed by the vendor CA. *)
Definition seal (data : bytes) : bytes :=
  "0"%char :: Ref.encodeSigner (Ref.mksigner vendorCert (Ref.sign vendorKey data))
  ++ "C"%char :: data.

(** Artifact directories: the three key pairs, where the PDC key is not the
    key of the PDC certificate, with one voucher and with none. *)
Definition keyFiles : list (bytes * bytes) :=
  [ (lit "../testdata/oc_pub.pem", lit "OOa"); (lit "../testdata/oc_priv.pem", lit "a");
    (lit "../testdata/pdc_pub.pem", lit "PPb"); (lit "../testdata/pdc_priv.pem", lit "x");
    (lit "../testdata/vendorca_pub.pem", lit "VVk");
    (lit "../testdata/vendorca_priv.pem", lit "k") ].
Definition entries : list bytes :=
  [ lit "oc_priv.pem"; lit "oc_pub.pem"; lit "ov_123A.txt"; lit "pdc_priv.pem";
    lit "pdc_pub.pem"; lit "vendorca_priv.pem"; lit "vendorca_pub.pem" ].
Definition wMismatch : World Ref.time :=
  Ref.world t0
    ((lit "../testdata/ov_123A.txt", seal (lit "{}")) :: keyFiles)
    (lit "../testdata/") entries.
Definition wNoVouchers : World Ref.time :=
  Ref.world t0 keyFiles (lit "../testdata/")
    [ lit "oc_priv.pem"; lit "oc_pub.pem"; lit "pdc_priv.pem"; lit "pdc_pub.pem";
      lit "vendorca_priv.pem"; lit "vendorca_pub.pem" ].

(** Artifact directories that load: the key pairs with a PDC key that is
    the key of the PDC certificate, two vouchers, and a file of another name
    that cannot be read; the same vouchers alone; a directory in which one of
    the two vouchers cannot be read; and one with two entries of one key. *)
Definition goodKeyFiles : list (bytes * bytes) :=
  [ (lit "../testdata/oc_pub.pem", lit "OOa"); (lit "../testdata/oc_priv.pem", lit "a");
    (lit "../testdata/pdc_pub.pem", lit "PPb"); (lit "../testdata/pdc_priv.pem", lit "b");
    (lit "../testdata/vendorca_pub.pem", lit "VVk");
    (lit "../testdata/vendorca_priv.pem", lit "k") ].
Definition voucherFiles : list (bytes * bytes) :=
  [ (lit "../testdata/ov_123A.txt", seal (lit "{}"));
    (lit "../testdata/ov_123B.txt", seal (lit "null")) ].
Definition loadedEntries : list bytes :=
  [ lit "README"; lit "oc_priv.pem"; lit "oc_pub.pem"; lit "ov_123A.txt"; lit "ov_123B.txt";
    lit "pdc_priv.pem"; lit "pdc_pub.pem"; lit "vendorca_priv.pem"; lit "vendorca_pub.pem" ].
Definition wLoaded : World Ref.time :=
  Ref.world t0 (voucherFiles ++ goodKeyFiles) (lit "../testdata/") loadedEntries.
Definition wOnlyVouchers : World Ref.time :=
  Ref.world t0 voucherFiles (lit "../testdata/") [ lit "ov_123A.txt"; lit "ov_123B.txt" ].
Definition wUnreadable : World Ref.time :=
  Ref.world t0 [ (lit "../testdata/ov_123A.txt", seal (lit "{}")) ] (lit "../testdata/")
    [ lit "ov_123A.txt"; lit "ov_123B.txt"; lit "ov_123C.txt" ].
Definition wSameKey : World Ref.time :=
  Ref.world t0
    [ (lit "../testdata/ov_123A", lit "first"); (lit "../testdata/ov_123A.txt", lit "second") ]
    (lit "../testdata/") [ lit "ov_123A"; lit "ov_123A.txt" ].
Definition ovsLoaded : OVList :=
  <[lit "123B" := seal (lit "null")]> (<[lit "123A" := seal (lit "{}")]> ∅).

(** The voucher that the vendor CA signs for 123A at the start of the
    clock, and a directory that stores it. *)
Definition signedVoucher : bytes := seal (json.encodeOwnershipVoucher claims0).
Definition wStored : World Ref.time :=
  Ref.world t0 ((lit "../testdata/ov_123A.txt", signedVoucher) :: goodKeyFiles)
    (lit "../testdata/") entries.
Definition ovsStored : OVList := <[lit "123A" := signedVoucher]> ∅.

(** A content whose serial number is written with a byte that is not UTF-8
    and the escape of a surrogate without its pair, and what it decodes
    to. *)
Definition rawContent : bytes :=
  lit "{" ++ [json.quote] ++ lit "ietf-voucher:voucher" ++ [json.quote] ++ lit ":{"
  ++ [json.quote] ++ lit "serial-number" ++ [json.quote] ++ lit ":"
  ++ [json.quote] ++ ["255"%char] ++ (json.backslash :: lit "ud800") ++ [json.quote]
  ++ lit "}}".
Definition rawClaims : OwnershipVoucher :=
  {| OV := {| CreatedOn := []; ExpiresOn := [];
              SerialNumber := ["239"; "191"; "189"; "239"; "191"; "189"]%char;
              Assertion := []; PinnedDomainCert := [];
              DomainCertRevocationChecks := false |} |}.
End Ex.

(** * Lemmas *)

(** ** Basic facts about bytes and [strings] *)

Lemma byte_eqb_eq a b : byte_eqb a b = true <-> a = b.
Proof. apply Ascii.eqb_eq. Qed.

Lemma bytes_eqb_eq s t : bytes_eqb s t = true <-> s = t.
Proof.
  revert t; induction s as [|a s IH]; intros [|b t]; simpl; try (split; congruence).
  rewrite andb_true_iff, byte_eqb_eq, IH. split.
  - intros [-> ->]; reflexivity.
  - intros [= -> ->]; auto.
Qed.

Lemma bytes_eqb_refl s : bytes_eqb s s = true.
Proof. apply bytes_eqb_eq; reflexivity. Qed.

Lemma HasPrefix_app p s : strings.HasPrefix (p ++ s) p = true.
Proof.
  unfold strings.HasPrefix. rewrite length_app.
  rewrite firstn_app, Nat.sub_diag, firstn_all. simpl. rewrite app_nil_r.
  rewrite bytes_eqb_refl, andb_true_r. apply Nat.leb_le. lia.
Qed.

Lemma HasPrefix_inv s p : strings.HasPrefix s p = true -> s = p ++ skipn (length p) s.
Proof.
  unfold strings.HasPrefix. intros [_ H]%andb_true_iff.
  apply bytes_eqb_eq in H.
  rewrite <- (firstn_skipn (length p) s) at 1. f_equal. exact H.
Qed.

Lemma HasSuffix_app s p : strings.HasSuffix (s ++ p) p = true.
Proof.
  unfold strings.HasSuffix. rewrite length_app.
  replace (length s + length p - length p)%nat with (length s) by lia.
  rewrite skipn_app, Nat.sub_diag, skipn_all. simpl.
  rewrite bytes_eqb_refl, andb_true_r. apply Nat.leb_le. lia.
Qed.

Lemma HasSuffix_inv s p :
  strings.HasSuffix s p = true -> s = firstn (length s - length p) s ++ p.
Proof.
  unfold strings.HasSuffix. intros [_ H]%andb_true_iff.
  apply bytes_eqb_eq in H.
  rewrite <- (firstn_skipn (length s - length p) s) at 1. f_equal. exact H.
Qed.

Lemma TrimPrefix_app p s : strings.TrimPrefix (p ++ s) p = s.
Proof.
  unfold strings.TrimPrefix. rewrite HasPrefix_app.
  rewrite skipn_app, Nat.sub_diag, skipn_all. reflexivity.
Qed.

Lemma TrimSuffix_app s p : strings.TrimSuffix (s ++ p) p = s.
Proof.
  unfold strings.TrimSuffix. rewrite HasSuffix_app, length_app.
  replace (length s + length p - length p)%nat with (length s) by lia.
  rewrite firstn_app, Nat.sub_diag, firstn_all. simpl. apply app_nil_r.
Qed.

Lemma TrimPrefix_absent s p : strings.HasPrefix s p = false -> strings.TrimPrefix s p = s.
Proof. unfold strings.TrimPrefix. intros ->. reflexivity. Qed.

Lemma TrimSuffix_absent s p : strings.HasSuffix s p = false -> strings.TrimSuffix s p = s.
Proof. unfold strings.TrimSuffix. intros ->. reflexivity. Qed.

Lemma wellFormedPem_shape s :
  wellFormedPem s = true <-> exists body, s = pemHeader ++ body ++ pemFooter.
Proof.
  unfold wellFormedPem. rewrite andb_true_iff. split.
  - intros [Hp Hs]. apply HasPrefix_inv in Hp. apply HasSuffix_inv in Hs.
    eexists. rewrite Hp at 1. f_equal. exact Hs.
  - intros [body ->]. rewrite HasPrefix_app. split; [reflexivity|].
    rewrite skipn_app, Nat.sub_diag, skipn_all. simpl. apply HasSuffix_app.
Qed.

Lemma RemovePemHeaders_framed body :
  RemovePemHeaders (pemHeader ++ body ++ pemFooter) = body.
Proof.
  unfold RemovePemHeaders. rewrite TrimPrefix_app. apply TrimSuffix_app.
Qed.

(** ** Facts about [unicode/utf8] *)

Section Utf8Facts.

Import utf8.
Local Open Scope N_scope.

Lemma first_ok_all c : first_ok c = true.
Proof. destruct c as [[] [] [] [] [] [] [] []]; vm_compute; reflexivity. Qed.

Lemma all2_true :
  (forallb (fun c0 => forallb (fun c1 =>
    implb (accepted c0 c1) (encodes (rune2 c0 c1) [c0; c1])) conts) leads2) = true.
Proof. vm_cast_no_check (eq_refl true). Qed.

Lemma heads3_true :
  (forallb (fun c0 => forallb (fun c1 =>
    implb (accepted c0 c1) (head3_ok c0 c1)) conts) leads3) = true.
Proof. vm_cast_no_check (eq_refl true). Qed.

Lemma heads4_true :
  (forallb (fun c0 => forallb (fun c1 =>
    if accepted c0 c1 then forallb (fun c2 => head4_ok c0 c1 c2) conts
    else true) conts) leads4) = true.
Proof. vm_cast_no_check (eq_refl true). Qed.

Lemma lasts_true :
  forallb (fun c => Ascii.eqb (toByte (N.lor 128 (last6 c))) c) conts = true.
Proof. vm_cast_no_check (eq_refl true). Qed.

Lemma In_conts c : outside 128 191 c = false -> In c conts.
Proof.
  unfold outside, code. intros [H1 H2]%orb_false_iff.
  apply N.ltb_ge in H1, H2.
  change conts with (byteRange 128 64). unfold byteRange.
  rewrite <- (ascii_nat_embedding c). apply in_map. apply in_seq.
  unfold nat_of_ascii. lia.
Qed.

Lemma existsb_In c l : existsb (Ascii.eqb c) l = true -> In c l.
Proof.
  rewrite existsb_exists. intros [x [Hx E]]. apply Ascii.eqb_eq in E. subst. exact Hx.
Qed.

(** The facts about a leading byte. *)
Lemma first_lead c sz lo hi :
  first (code c) = lead sz lo hi ->
  128 <= lo /\ hi <= 191 /\ 128 <= code c /\ (sz = 2 \/ sz = 3 \/ sz = 4)%nat /\ In c (leads sz).
Proof.
  intros F. pose proof (first_ok_all c) as H. unfold first_ok in H. rewrite F in H.
  apply andb_true_iff in H as [H He]. apply andb_true_iff in H as [H Hs].
  apply andb_true_iff in H as [H Hc]. apply andb_true_iff in H as [Hl Hh].
  repeat split; try (apply N.leb_le; assumption).
  - apply orb_true_iff in Hs as [Hs|Hs]; [apply orb_true_iff in Hs as [Hs|Hs]|];
      apply Nat.eqb_eq in Hs; auto.
  - apply existsb_In; assumption.
Qed.

Lemma first_ascii c : first (code c) = as_ascii -> code c < 128.
Proof.
  intros F. pose proof (first_ok_all c) as H. unfold first_ok in H. rewrite F in H.
  apply N.ltb_lt; assumption.
Qed.

Lemma first_invalid c : first (code c) = xx_invalid -> 128 <= code c.
Proof.
  intros F. pose proof (first_ok_all c) as H. unfold first_ok in H. rewrite F in H.
  apply N.leb_le; assumption.
Qed.

Lemma outside_weaken lo hi c :
  128 <= lo -> hi <= 191 -> outside lo hi c = false -> outside 128 191 c = false.
Proof.
  unfold outside. intros Hl Hh [H1 H2]%orb_false_iff.
  apply N.ltb_ge in H1, H2. apply orb_false_iff; split; apply N.ltb_ge; lia.
Qed.

(** [DecodeRune] by the shape of its input. *)
Lemma DecodeRune_cons c0 t :
  DecodeRune (c0 :: t) =
  match first (code c0) with
  | as_ascii => (code c0, 1%nat)
  | xx_invalid => (RuneError, 1%nat)
  | lead sz lo hi =>
    match t with
    | [] => (RuneError, 1%nat)
    | c1 :: t1 =>
      if outside lo hi c1 then (RuneError, 1%nat) else
      if (sz <=? 2)%nat then (rune2 c0 c1, 2%nat) else
      match t1 with
      | [] => (RuneError, 1%nat)
      | c2 :: t2 =>
        if outside 128 191 c2 then (RuneError, 1%nat) else
        if (sz <=? 3)%nat then (rune3 c0 c1 c2, 3%nat) else
        match t2 with
        | [] => (RuneError, 1%nat)
        | c3 :: _ =>
          if outside 128 191 c3 then (RuneError, 1%nat) else (rune4 c0 c1 c2 c3, 4%nat)
        end
      end
    end
  end.
Proof.
  unfold DecodeRune. change (byteAt (c0 :: t) 0) with (code c0).
  destruct (first (code c0)) as [| |sz lo hi] eqn:F; try reflexivity.
  destruct (first_lead _ _ _ _ F) as (_ & _ & _ & Hsz & _).
  destruct t as [|c1 [|c2 [|c3 t3]]];
    destruct Hsz as [->|[->| ->]]; try reflexivity;
    cbn [length Nat.ltb Nat.leb byteAt nth];
    unfold outside, code;
    repeat match goal with |- context [if ?b then _ else _] => destruct b end;
    reflexivity.
Qed.

Lemma encodes_eq r s : encodes r s = true -> EncodeRune r = s.
Proof. apply bytes_eqb_eq. Qed.

Lemma accepted_lead c0 c1 sz lo hi :
  first (code c0) = lead sz lo hi -> outside lo hi c1 = false -> accepted c0 c1 = true.
Proof. unfold accepted. intros -> ->. reflexivity. Qed.

Lemma enc2 c0 c1 lo hi :
  first (code c0) = lead 2 lo hi -> outside lo hi c1 = false ->
  EncodeRune (rune2 c0 c1) = [c0; c1].
Proof.
  intros F O1. destruct (first_lead _ _ _ _ F) as (Hl & Hh & _ & _ & I0).
  pose proof (In_conts _ (outside_weaken _ _ _ Hl Hh O1)) as I1.
  pose proof all2_true as A.
  rewrite forallb_forall in A. specialize (A _ I0).
  rewrite forallb_forall in A. specialize (A _ I1).
  rewrite (accepted_lead _ _ _ _ _ F O1) in A. apply encodes_eq, A.
Qed.

(** *** The last byte of a rune, apart from its head *)

Lemma land63_lt x : N.land x 63 < 64.
Proof.
  change 63 with (N.ones 6). rewrite N.land_ones.
  apply N.mod_lt. discriminate.
Qed.

Lemma shiftr6_small d : d < 64 -> N.shiftr d 6 = 0.
Proof.
  intros H. rewrite N.shiftr_div_pow2. apply N.div_small. exact H.
Qed.

Lemma land63_small d : d < 64 -> N.land d 63 = d.
Proof.
  intros H. change 63 with (N.ones 6). rewrite N.land_ones.
  apply N.mod_small. exact H.
Qed.

Lemma land63_shiftl6 h : N.land (N.shiftl h 6) 63 = 0.
Proof.
  change 63 with (N.ones 6). rewrite N.land_ones, N.shiftl_mul_pow2.
  apply N.Div0.mod_mul.
Qed.

(** A rune as its head [h] and its last six bits [d]. *)
Lemma shiftr6_join h d : d < 64 -> N.shiftr (joinBits h d) 6 = h.
Proof.
  intros H. unfold joinBits. rewrite N.shiftr_lor, N.shiftr_shiftl_r by reflexivity.
  rewrite shiftr6_small by exact H. cbn. apply N.lor_0_r.
Qed.

Lemma land63_join h d : d < 64 -> N.land (joinBits h d) 63 = d.
Proof.
  intros H. unfold joinBits. rewrite N.land_lor_distr_l, land63_shiftl6, land63_small by exact H.
  reflexivity.
Qed.

Lemma join_value h d : d < 64 -> joinBits h d = h * 64 + d.
Proof.
  intros H. set (r := joinBits h d).
  rewrite (N.div_mod r 64) by discriminate.
  assert (r / 64 = h) as ->.
  { change 64 with (2 ^ 6). rewrite <- N.shiftr_div_pow2. apply shiftr6_join, H. }
  assert (r mod 64 = d) as ->.
  { change 64 with (2 ^ 6). rewrite <- N.land_ones. apply land63_join, H. }
  lia.
Qed.

Lemma join_shiftr h d n : d < 64 -> N.shiftr (joinBits h d) (6 + n) = N.shiftr h n.
Proof.
  intros H. rewrite <- N.shiftr_shiftr, shiftr6_join by exact H. reflexivity.
Qed.

Lemma rune3_join c0 c1 c2 : rune3 c0 c1 c2 = joinBits (head3 c0 c1) (last6 c2).
Proof.
  unfold rune3, joinBits, head3, last6.
  rewrite N.shiftl_lor, N.shiftl_shiftl. reflexivity.
Qed.

Lemma rune4_join c0 c1 c2 c3 : rune4 c0 c1 c2 c3 = joinBits (head4 c0 c1 c2) (last6 c3).
Proof.
  unfold rune4, joinBits, head4, last6.
  rewrite !N.shiftl_lor, !N.shiftl_shiftl. reflexivity.
Qed.

Lemma EncodeRune_join3 h d :
  d < 64 -> inHead3 h = true ->
  EncodeRune (joinBits h d) = encodeHead3 h ++ [toByte (N.lor 128 d)].
Proof.
  intros Hd Hh. pose proof (join_value h d Hd) as V.
  assert (R : 2048 <= joinBits h d <= 65535
              /\ (joinBits h d < 55296 \/ 57343 < joinBits h d)).
  { unfold inHead3 in Hh. apply orb_true_iff in Hh as [Hh|Hh];
      apply andb_true_iff in Hh as [H1 H2];
      apply N.leb_le in H1, H2; lia. }
  unfold EncodeRune, MaxRune.
  destruct (N.leb_spec (joinBits h d) 127); [lia|].
  destruct (N.leb_spec (joinBits h d) 2047); [lia|].
  destruct (N.ltb_spec 1114111 (joinBits h d)); [lia|].
  assert ((55296 <=? joinBits h d) && (joinBits h d <=? 57343) = false) as ->.
  { apply andb_false_iff. destruct R as [_ [R|R]];
      [left; apply N.leb_gt; exact R | right; apply N.leb_gt; exact R]. }
  cbn [orb].
  destruct (N.leb_spec (joinBits h d) 65535); [|lia].
  unfold encode3, encodeHead3.
  change 12 with (6 + 6).
  rewrite join_shiftr, shiftr6_join, land63_join by exact Hd. reflexivity.
Qed.

Lemma EncodeRune_join4 h d :
  d < 64 -> inHead4 h = true ->
  EncodeRune (joinBits h d) = encodeHead4 h ++ [toByte (N.lor 128 d)].
Proof.
  intros Hd Hh. pose proof (join_value h d Hd) as V.
  assert (R : 65536 <= joinBits h d <= 1114111).
  { unfold inHead4 in Hh. apply andb_true_iff in Hh as [H1 H2].
    apply N.leb_le in H1, H2. lia. }
  unfold EncodeRune, MaxRune.
  destruct (N.leb_spec (joinBits h d) 127); [lia|].
  destruct (N.leb_spec (joinBits h d) 2047); [lia|].
  destruct (N.ltb_spec 1114111 (joinBits h d)); [lia|].
  assert ((55296 <=? joinBits h d) && (joinBits h d <=? 57343) = false) as ->.
  { apply andb_false_iff. right. apply N.leb_gt. lia. }
  cbn [orb].
  destruct (N.leb_spec (joinBits h d) 65535); [lia|].
  unfold encodeHead4.
  change 18 with (6 + 12). change 12 with (6 + 6) at 2.
  rewrite !join_shiftr, shiftr6_join, land63_join by exact Hd. reflexivity.
Qed.

Lemma last_byte c : In c conts -> toByte (N.lor 128 (last6 c)) = c.
Proof.
  intros I. pose proof lasts_true as A. rewrite forallb_forall in A.
  apply Ascii.eqb_eq, A, I.
Qed.

Lemma enc3 c0 c1 c2 lo hi :
  first (code c0) = lead 3 lo hi -> outside lo hi c1 = false ->
  outside 128 191 c2 = false ->
  EncodeRune (rune3 c0 c1 c2) = [c0; c1; c2].
Proof.
  intros F O1 O2. destruct (first_lead _ _ _ _ F) as (Hl & Hh & _ & _ & I0).
  pose proof (In_conts _ (outside_weaken _ _ _ Hl Hh O1)) as I1.
  pose proof (In_conts _ O2) as I2.
  pose proof heads3_true as A.
  rewrite forallb_forall in A. specialize (A _ I0).
  rewrite forallb_forall in A. specialize (A _ I1).
  rewrite (accepted_lead _ _ _ _ _ F O1) in A.
  apply andb_true_iff in A as [R E]. apply bytes_eqb_eq in E.
  rewrite rune3_join, EncodeRune_join3, E, last_byte;
    [reflexivity | exact I2 | apply land63_lt | exact R].
Qed.

Lemma enc4 c0 c1 c2 c3 lo hi :
  first (code c0) = lead 4 lo hi -> outside lo hi c1 = false ->
  outside 128 191 c2 = false -> outside 128 191 c3 = false ->
  EncodeRune (rune4 c0 c1 c2 c3) = [c0; c1; c2; c3].
Proof.
  intros F O1 O2 O3. destruct (first_lead _ _ _ _ F) as (Hl & Hh & _ & _ & I0).
  pose proof (In_conts _ (outside_weaken _ _ _ Hl Hh O1)) as I1.
  pose proof (In_conts _ O2) as I2. pose proof (In_conts _ O3) as I3.
  pose proof heads4_true as A.
  rewrite forallb_forall in A. specialize (A _ I0).
  rewrite forallb_forall in A. specialize (A _ I1).
  rewrite (accepted_lead _ _ _ _ _ F O1) in A.
  rewrite forallb_forall in A. specialize (A _ I2).
  apply andb_true_iff in A as [R E]. apply bytes_eqb_eq in E.
  rewrite rune4_join, EncodeRune_join4, E, last_byte;
    [reflexivity | exact I3 | apply land63_lt | exact R].
Qed.

Lemma outside_high lo hi c : 128 <= lo -> outside lo hi c = false -> 128 <= code c.
Proof.
  unfold outside. intros Hl [H1 _]%orb_false_iff. apply N.ltb_ge in H1. lia.
Qed.

Lemma DecodeRune_decoded s r size : DecodeRune s = (r, size) -> decoded s r size.
Proof.
  destruct s as [|c0 t].
  { intros [= <- <-]. apply dec_empty; reflexivity. }
  rewrite DecodeRune_cons.
  destruct (first (code c0)) as [| |sz lo hi] eqn:F.
  { intros [= <- <-]. eapply dec_ascii; eauto using first_ascii. }
  { intros [= <- <-]. eapply dec_invalid; eauto using first_invalid. }
  destruct (first_lead _ _ _ _ F) as (Hl & Hh & Hc & Hsz & _).
  assert (Inv : (RuneError, 1%nat) = (r, size) -> decoded (c0 :: t) r size).
  { intros [= <- <-]. eapply dec_invalid; eauto. }
  destruct t as [|c1 t1]; [exact Inv|].
  destruct (outside lo hi c1) eqn:O1; [exact Inv|].
  pose proof (outside_high _ _ _ Hl O1) as H1.
  destruct Hsz as [->|[->| ->]]; cbn [Nat.leb].
  - intros [= <- <-]. eapply dec_multi; eauto; cbn [firstn length]; try lia.
    + eapply enc2; eauto.
    + repeat constructor; assumption.
    + intros rest. cbn [app]. rewrite DecodeRune_cons, F, O1. reflexivity.
  - destruct t1 as [|c2 t2]; [exact Inv|].
    destruct (outside 128 191 c2) eqn:O2; [exact Inv|].
    assert (128 <= code c2) by (eapply outside_high; [|exact O2]; lia).
    intros [= <- <-]. eapply dec_multi; eauto; cbn [firstn length]; try lia.
    + eapply enc3; eauto.
    + repeat constructor; assumption.
    + intros rest. cbn [app]. rewrite DecodeRune_cons, F, O1, O2. reflexivity.
  - destruct t1 as [|c2 t2]; [exact Inv|].
    destruct (outside 128 191 c2) eqn:O2; [exact Inv|].
    assert (128 <= code c2) by (eapply outside_high; [|exact O2]; lia).
    destruct t2 as [|c3 t3]; [exact Inv|].
    destruct (outside 128 191 c3) eqn:O3; [exact Inv|].
    assert (128 <= code c3) by (eapply outside_high; [|exact O3]; lia).
    intros [= <- <-]. eapply dec_multi; eauto; cbn [firstn length]; try lia.
    + eapply enc4; eauto.
    + repeat constructor; assumption.
    + intros rest. cbn [app]. rewrite DecodeRune_cons, F, O1, O2, O3. reflexivity.
Qed.

End Utf8Facts.

(** ** Facts about [encoding/json] *)

Section JsonFacts.

Import utf8 json.
Local Open Scope N_scope.

Lemma prependRaw_nil r : prependRaw [] r = r.
Proof. destruct r as [[raw rest]|]; reflexivity. Qed.

Lemma consRaw_prependRaw c chunk r : consRaw c (prependRaw chunk r) = prependRaw (c :: chunk) r.
Proof. destruct r as [[raw rest]|]; reflexivity. Qed.

Lemma scanString_chunk chunk : forall st st' X,
  scanChunk st chunk = Some st' ->
  scanString st (chunk ++ X) = prependRaw chunk (scanString st' X).
Proof.
  induction chunk as [|c chunk IH]; intros st st' X H.
  - injection H as <-. symmetry. apply prependRaw_nil.
  - cbn [app scanString]. cbn [scanChunk] in H.
    destruct st as [| |due].
    + destruct (isc c quote); [discriminate|].
      destruct (isc c backslash).
      { rewrite (IH _ _ _ H). apply consRaw_prependRaw. }
      destruct (code c <? 32); [discriminate|].
      rewrite (IH _ _ _ H). apply consRaw_prependRaw.
    + destruct (isc c "b" || isc c "f" || isc c "n" || isc c "r" || isc c "t"
                || isc c backslash || isc c "/" || isc c quote).
      { rewrite (IH _ _ _ H). apply consRaw_prependRaw. }
      destruct (isc c "u"); [|discriminate].
      rewrite (IH _ _ _ H). apply consRaw_prependRaw.
    + destruct (isHex c); [|discriminate].
      rewrite (IH _ _ _ H). apply consRaw_prependRaw.
Qed.

Lemma goodChunk_intro chunk dec :
  chunk <> [] ->
  scanChunk inString chunk = Some inString ->
  (forall m Y, unquote_loop (S m) (chunk ++ Y) = option_map (app dec) (unquote_loop m Y)) ->
  goodChunk chunk dec.
Proof.
  intros H1 H2 H3. split; [exact H1|]. split; [|exact H3].
  intros X. apply scanString_chunk, H2.
Qed.

Lemma ascii_chunk b :
  code b < 128 -> goodChunk (if htmlSafeSet b then [b] else escapeByte b) [b].
Proof.
  intros H.
  destruct b as [[] [] [] [] [] [] [] []]; try (vm_compute in H; discriminate H);
    (apply goodChunk_intro; [discriminate | reflexivity | intros m Y; reflexivity]).
Qed.

Lemma high_byte x :
  128 <= code x ->
  isc x quote = false /\ isc x backslash = false /\ (code x <? 32) = false
  /\ (code x <? utf8.RuneSelf) = false.
Proof.
  intros H. unfold isc. repeat split.
  - destruct (Ascii.eqb_spec x quote) as [->|]; [vm_compute in H; congruence|reflexivity].
  - destruct (Ascii.eqb_spec x backslash) as [->|]; [vm_compute in H; congruence|reflexivity].
  - apply N.ltb_ge. lia.
  - apply N.ltb_ge. unfold utf8.RuneSelf. lia.
Qed.

Lemma scanChunk_high chunk :
  Forall (fun x => 128 <= code x) chunk -> scanChunk inString chunk = Some inString.
Proof.
  induction 1 as [|x chunk Hx _ IH]; [reflexivity|].
  destruct (high_byte x Hx) as (E1 & E2 & E3 & _).
  cbn [scanChunk]. rewrite E1, E2, E3. exact IH.
Qed.

Lemma skipn_firstn_app {A} n (s Y : list A) :
  (n <= length s)%nat -> skipn n (firstn n s ++ Y) = Y.
Proof.
  intros H. rewrite skipn_app, length_firstn, Nat.min_l by exact H.
  rewrite Nat.sub_diag. cbn [skipn].
  rewrite skipn_all2; [reflexivity|]. rewrite length_firstn. lia.
Qed.

(** One round of the encoder on an input that is not empty. *)
Lemma string_step k b t :
  exists chunk dec s',
    string_loop (S k) (b :: t) = chunk ++ string_loop k s'
    /\ coerce_loop (S k) (b :: t) = dec ++ coerce_loop k s'
    /\ (length s' < length (b :: t))%nat
    /\ goodChunk chunk dec.
Proof.
  cbn [string_loop coerce_loop].
  destruct (DecodeRune (b :: t)) as [r size] eqn:D.
  pose proof (DecodeRune_decoded _ _ _ D) as
    [E _ _|c t' E Hc -> ->|c t' E Hc -> ->|c t' E Hc Hsz Hlen Henc Hhigh Hpre];
    try discriminate E; try (injection E as <- <-).
  - (* ASCII *)
    assert ((code b <? RuneSelf) = true) as -> by (apply N.ltb_lt; exact Hc).
    assert ((code b =? RuneError) = false) as ->.
    { apply N.eqb_neq. unfold RuneError. lia. }
    cbn [andb firstn skipn]. eexists _, [b], t. repeat split; try reflexivity.
    + cbn [length]. lia.
    + apply ascii_chunk, Hc.
    + apply ascii_chunk, Hc.
    + apply ascii_chunk, Hc.
  - (* a byte that is not UTF-8 *)
    assert ((code b <? RuneSelf) = false) as -> by (apply N.ltb_ge; exact Hc).
    rewrite N.eqb_refl. cbn [Nat.eqb andb skipn].
    eexists _, _, t. split; [reflexivity|]. split; [reflexivity|].
    split; [cbn [length]; lia|].
    apply goodChunk_intro; [discriminate | reflexivity | intros m Y; reflexivity].
  - (* a well-formed sequence *)
    assert ((code b <? RuneSelf) = false) as -> by (apply N.ltb_ge; exact Hc).
    assert ((size =? 1)%nat = false) as -> by (apply Nat.eqb_neq; lia).
    rewrite andb_false_r.
    assert (Hs' : (length (skipn size (b :: t)) < length (b :: t))%nat).
    { rewrite length_skipn. cbn [length] in *. lia. }
    assert (Hun : forall m Y,
      unquote_loop (S m) (firstn size (b :: t) ++ Y)
      = option_map (app (firstn size (b :: t))) (unquote_loop m Y)).
    { intros m Y. destruct size as [|size']; [lia|].
      cbn [firstn app unquote_loop].
      destruct (high_byte b Hc) as (E1 & E2 & E3 & E4).
      rewrite E2, E1, E3, E4. cbn [orb].
      change (b :: firstn size' t ++ Y) with (firstn (S size') (b :: t) ++ Y).
      rewrite Hpre, Henc, skipn_firstn_app by exact Hlen. reflexivity. }
    destruct ((r =? 8232) || (r =? 8233)) eqn:LS.
    + eexists _, _, _. split; [rewrite <- app_assoc; reflexivity|].
      split; [reflexivity|]. split; [exact Hs'|].
      rewrite <- Henc.
      apply orb_true_iff in LS as [LS|LS]; apply N.eqb_eq in LS; subst r;
        (apply goodChunk_intro; [discriminate | reflexivity | intros m Y; reflexivity]).
    + eexists _, _, _. split; [reflexivity|]. split; [reflexivity|].
      split; [exact Hs'|].
      apply goodChunk_intro.
      * destruct size; [lia|]. discriminate.
      * apply scanChunk_high, Hhigh.
      * exact Hun.
Qed.

Lemma scan_string_loop n : forall s rest,
  (length s <= n)%nat ->
  scanString inString (string_loop n s ++ quote :: rest) = Some (string_loop n s, rest).
Proof.
  induction n as [|k IH]; intros s rest Hn.
  - destruct s; [|cbn [length] in Hn; lia]. reflexivity.
  - destruct s as [|b t]; [reflexivity|].
    destruct (string_step k b t) as (chunk & dec & s' & -> & _ & Hl & _ & Hscan & _).
    rewrite <- app_assoc, Hscan, IH by lia. reflexivity.
Qed.

Lemma unquote_string_loop n : forall s m,
  (length s <= n)%nat -> (length (string_loop n s) <= m)%nat ->
  unquote_loop m (string_loop n s) = Some (coerce_loop n s).
Proof.
  induction n as [|k IH]; intros s m Hn Hm.
  - destruct s; [|cbn [length] in Hn; lia]. destruct m; reflexivity.
  - destruct s as [|b t]; [destruct m; reflexivity|].
    destruct (string_step k b t) as (chunk & dec & s' & E1 & E2 & Hl & Hne & _ & Hun).
    rewrite E1 in *. rewrite E2.
    rewrite length_app in Hm.
    destruct chunk as [|c0 chunk]; [congruence|].
    destruct m as [|m]; [cbn [length] in Hm; lia|].
    rewrite Hun, IH; [reflexivity| |]; cbn [length] in *; lia.
Qed.

(** A string written by the encoder is read back coerced to UTF-8. *)
Lemma parseString_encodeString s rest :
  parseString (string_loop (length s) s ++ quote :: rest) = Some (coerce s, rest).
Proof.
  unfold parseString, unquote, coerce.
  rewrite scan_string_loop by lia.
  rewrite unquote_string_loop by lia. reflexivity.
Qed.

Ltac mono_case H :=
  match type of H with
  | match ?x with _ => _ end = Some _ =>
    lazymatch x with
    | parseValue _ _ _ => fail
    | parseElements _ _ _ => fail
    | parseMembers _ _ _ => fail
    | _ => destruct x eqn:?; try discriminate H
    end
  end.

(** The equations of the parser, one round at a time. *)
Lemma parseValue_S n d s :
  parseValue (S n) d s =
  match s with
  | [] => None
  | c :: s' =>
    if isc c "{" then
      if maxNestingDepth <? d + 1 then None else
      match skipSpace s' with
      | c1 :: s1 =>
        if isc c1 "}" then Some (JObject [], s1)
        else match parseMembers n (d + 1) (c1 :: s1) with
             | Some (ms, rest) => Some (JObject ms, rest)
             | None => None
             end
      | [] => None
      end
    else if isc c "[" then
      if maxNestingDepth <? d + 1 then None else
      match skipSpace s' with
      | c1 :: s1 =>
        if isc c1 "]" then Some (JArray [], s1)
        else match parseElements n (d + 1) (c1 :: s1) with
             | Some (vs, rest) => Some (JArray vs, rest)
             | None => None
             end
      | [] => None
      end
    else if isc c quote then
      match parseString s' with
      | Some (t, rest) => Some (JString t, rest)
      | None => None
      end
    else if isc c "-" || isDigit c then
      match parseNumber s with
      | Some (t, rest) => Some (JNumber t, rest)
      | None => None
      end
    else if strings.HasPrefix s (lit "true") then Some (JBool true, skipn 4 s)
    else if strings.HasPrefix s (lit "false") then Some (JBool false, skipn 5 s)
    else if strings.HasPrefix s (lit "null") then Some (JNull, skipn 4 s)
    else None
  end.
Proof. reflexivity. Qed.

Lemma parseElements_S n d s :
  parseElements (S n) d s =
  match parseValue n d s with
  | Some (v, rest) =>
    match skipSpace rest with
    | c :: s1 =>
      if isc c "]" then Some ([v], s1)
      else if isc c "," then
        match parseElements n d (skipSpace s1) with
        | Some (vs, rest') => Some (v :: vs, rest')
        | None => None
        end
      else None
    | [] => None
    end
  | None => None
  end.
Proof. reflexivity. Qed.

Lemma parseMembers_S n d s :
  parseMembers (S n) d s =
  match s with
  | c :: s' =>
    if isc c quote then
      match parseString s' with
      | Some (key, rest) =>
        match skipSpace rest with
        | c1 :: s1 =>
          if isc c1 ":" then
            match parseValue n d (skipSpace s1) with
            | Some (v, rest1) =>
              match skipSpace rest1 with
              | c2 :: s2 =>
                if isc c2 "}" then Some ([(key, v)], s2)
                else if isc c2 "," then
                  match parseMembers n d (skipSpace s2) with
                  | Some (ms, rest2) => Some ((key, v) :: ms, rest2)
                  | None => None
                  end
                else None
              | [] => None
              end
            | None => None
            end
          else None
        | [] => None
        end
      | None => None
      end
    else None
  | [] => None
  end.
Proof. reflexivity. Qed.

Lemma parse_mono n :
  (forall d s r, parseValue n d s = Some r -> parseValue (S n) d s = Some r)
  /\ (forall d s r, parseElements n d s = Some r -> parseElements (S n) d s = Some r)
  /\ (forall d s r, parseMembers n d s = Some r -> parseMembers (S n) d s = Some r).
Proof.
  induction n as [|n (IHv & IHe & IHm)].
  { repeat split; intros d s r H; discriminate H. }
  repeat split; intros d s r H.
  - rewrite parseValue_S in H. rewrite parseValue_S.
    repeat mono_case H; try exact H.
    + destruct (parseMembers n _ _) as [[ms rest]|] eqn:E; [|discriminate H].
      rewrite (IHm _ _ _ E). exact H.
    + destruct (parseElements n _ _) as [[vs rest]|] eqn:E; [|discriminate H].
      rewrite (IHe _ _ _ E). exact H.
  - rewrite parseElements_S in H. rewrite parseElements_S.
    destruct (parseValue n d s) as [[v rest]|] eqn:E; [|discriminate H].
    rewrite (IHv _ _ _ E).
    repeat mono_case H; try exact H.
    destruct (parseElements n _ _) as [[vs rest']|] eqn:E'; [|discriminate H].
    rewrite (IHe _ _ _ E'). exact H.
  - rewrite parseMembers_S in H. rewrite parseMembers_S.
    repeat mono_case H.
    destruct (parseValue n _ _) as [[v rest1]|] eqn:E; [|discriminate H].
    rewrite (IHv _ _ _ E).
    repeat mono_case H; try exact H.
    destruct (parseMembers n _ _) as [[ms rest2]|] eqn:E'; [|discriminate H].
    rewrite (IHm _ _ _ E'). exact H.
Qed.

Lemma parseValue_mono n m d s r :
  (n <= m)%nat -> parseValue n d s = Some r -> parseValue m d s = Some r.
Proof.
  induction 1 as [|m _ IH]; [auto|]. intros H. apply parse_mono, IH, H.
Qed.

Lemma skipSpace_quote s : skipSpace (quote :: s) = quote :: s.
Proof. reflexivity. Qed.

Lemma encodeString_app s rest :
  encodeString s ++ rest = quote :: string_loop (length s) s ++ quote :: rest.
Proof. unfold encodeString. cbn [app]. rewrite <- app_assoc. reflexivity. Qed.

Lemma encodeField_app k value rest :
  encodeField k value ++ rest = encodeString (lit k) ++ ":"%char :: value ++ rest.
Proof. unfold encodeField. rewrite <- !app_assoc. reflexivity. Qed.

Lemma skipSpace_encodeField k value rest :
  skipSpace (encodeField k value ++ rest) = encodeField k value ++ rest.
Proof. rewrite encodeField_app, encodeString_app. reflexivity. Qed.

Lemma parseValue_string n d s rest :
  parseValue (S n) d (encodeString s ++ rest) = Some (JString (coerce s), rest).
Proof.
  rewrite parseValue_S, encodeString_app.
  change (isc quote "{") with false. change (isc quote "[") with false.
  change (isc quote quote) with true. cbv iota.
  rewrite parseString_encodeString. reflexivity.
Qed.

Lemma parseValue_bool n d b rest :
  parseValue (S n) d (encodeBool b ++ rest) = Some (JBool b, rest).
Proof. rewrite parseValue_S. destruct b; reflexivity. Qed.

Lemma parseMembers_field n d k value rest :
  parseMembers (S n) d (encodeField k value ++ rest) =
  match parseValue n d (skipSpace (value ++ rest)) with
  | Some (v, rest1) =>
    match skipSpace rest1 with
    | c2 :: s2 =>
      if isc c2 "}" then Some ([(coerce (lit k), v)], s2)
      else if isc c2 "," then
        match parseMembers n d (skipSpace s2) with
        | Some (ms, rest2) => Some ((coerce (lit k), v) :: ms, rest2)
        | None => None
        end
      else None
    | [] => None
    end
  | None => None
  end.
Proof.
  rewrite parseMembers_S, encodeField_app, encodeString_app.
  change (isc quote quote) with true. cbv iota.
  rewrite parseString_encodeString. reflexivity.
Qed.

(** A member with a string value that is followed by another member. *)
Lemma parseMembers_string n d k s k' value' rest :
  parseMembers (S (S n)) d
    (encodeField k (encodeString s) ++ ","%char :: encodeField k' value' ++ rest) =
  match parseMembers (S n) d (encodeField k' value' ++ rest) with
  | Some (ms, rest2) => Some ((coerce (lit k), JString (coerce s)) :: ms, rest2)
  | None => None
  end.
Proof.
  rewrite parseMembers_field.
  rewrite (encodeString_app s), skipSpace_quote, <- encodeString_app.
  rewrite parseValue_string.
  change (skipSpace (","%char :: encodeField k' value' ++ rest))
    with (","%char :: encodeField k' value' ++ rest).
  cbv iota. change (isc "," "}") with false. change (isc "," ",") with true. cbv iota.
  rewrite skipSpace_encodeField. reflexivity.
Qed.

(** The last member, with a bool value. *)
Lemma parseMembers_bool_last n d k b rest :
  parseMembers (S (S n)) d (encodeField k (encodeBool b) ++ "}"%char :: rest) =
  Some ([(coerce (lit k), JBool b)], rest).
Proof.
  rewrite parseMembers_field.
  assert (skipSpace (encodeBool b ++ "}"%char :: rest) = encodeBool b ++ "}"%char :: rest) as ->
    by (destruct b; reflexivity).
  rewrite parseValue_bool. reflexivity.
Qed.

Lemma parseValue_encodeInner n d v rest :
  (d + 1 <= maxNestingDepth) ->
  parseValue (8 + n) d (encodeInner v ++ rest) = Some (valueOfInner v, rest).
Proof.
  intros Hd. unfold encodeInner. rewrite <- !app_assoc.
  change (8 + n)%nat with (S (S (S (S (S (S (S (S n)))))))).
  rewrite parseValue_S. cbn [lit list_ascii_of_string app].
  change (isc "{" "{") with true. cbv iota.
  assert ((maxNestingDepth <? d + 1) = false) as -> by (apply N.ltb_ge; exact Hd).
  rewrite encodeField_app, encodeString_app, skipSpace_quote.
  change (isc quote "}") with false. cbv iota.
  rewrite <- encodeString_app, <- encodeField_app.
  rewrite !parseMembers_string, parseMembers_bool_last. reflexivity.
Qed.

Lemma parseValue_encodeOwnershipVoucher n v rest :
  parseValue (10 + n) 0 (encodeOwnershipVoucher v ++ rest)
  = Some (valueOfOwnershipVoucher v, rest).
Proof.
  unfold encodeOwnershipVoucher. rewrite <- !app_assoc.
  change (10 + n)%nat with (S (S (8 + n))).
  rewrite parseValue_S. cbn [lit list_ascii_of_string app].
  change (isc "{" "{") with true. cbv iota.
  change (maxNestingDepth <? 0 + 1) with false. cbv iota.
  rewrite encodeField_app, encodeString_app, skipSpace_quote.
  change (isc quote "}") with false. cbv iota.
  rewrite <- encodeString_app, <- encodeField_app.
  rewrite parseMembers_field.
  assert (skipSpace (encodeInner (OV v) ++ "}"%char :: rest)
          = encodeInner (OV v) ++ "}"%char :: rest) as -> by reflexivity.
  rewrite parseValue_encodeInner by (vm_compute; discriminate).
  reflexivity.
Qed.

Lemma length_encodeOwnershipVoucher v : (10 <= length (encodeOwnershipVoucher v))%nat.
Proof.
  unfold encodeOwnershipVoucher, encodeInner, encodeField, encodeString.
  rewrite !length_app. cbn [lit list_ascii_of_string length]. lia.
Qed.

Lemma parse_encodeOwnershipVoucher v :
  parse (encodeOwnershipVoucher v) = Some (valueOfOwnershipVoucher v).
Proof.
  unfold parse.
  assert (skipSpace (encodeOwnershipVoucher v) = encodeOwnershipVoucher v) as -> by reflexivity.
  pose proof (parseValue_encodeOwnershipVoucher 0 v []) as H. rewrite app_nil_r in H.
  pose proof (length_encodeOwnershipVoucher v) as Hl.
  assert (Hm : (10 + 0 <= 2 * length (encodeOwnershipVoucher v) + 2)%nat) by lia.
  rewrite (parseValue_mono _ _ _ _ _ Hm H). reflexivity.
Qed.

Lemma storeOwnershipVoucher_value v :
  storeOwnershipVoucher (valueOfOwnershipVoucher v) zeroOwnershipVoucher
  = (coerceOwnershipVoucher v, false).
Proof. reflexivity. Qed.

(** What [Unmarshal] reads from what [Marshal] writes. *)
Lemma Unmarshal_encode v :
  Unmarshal (encodeOwnershipVoucher v) zeroOwnershipVoucher = Ok (coerceOwnershipVoucher v).
Proof.
  unfold Unmarshal. rewrite parse_encodeOwnershipVoucher, storeOwnershipVoucher_value.
  reflexivity.
Qed.

Lemma DecodeRune_size s r size :
  s <> [] -> DecodeRune s = (r, size) -> (1 <= size <= length s)%nat.
Proof.
  intros Hs D.
  destruct (DecodeRune_decoded _ _ _ D) as [E| c t E _ _ ->| c t E _ _ ->| c t E _ Hsz Hl _ _ _];
    subst; cbn [length]; try congruence; try lia.
  cbn [length] in Hl. lia.
Qed.

Lemma coerce_loop_valid n : forall s,
  (length s <= n)%nat -> Valid_loop n s = true -> coerce_loop n s = s.
Proof.
  induction n as [|k IH]; intros s Hn V.
  - destruct s; [reflexivity|discriminate V].
  - destruct s as [|b t]; [reflexivity|].
    cbn [Valid_loop coerce_loop] in *.
    destruct (DecodeRune (b :: t)) as [r size] eqn:D.
    destruct ((r =? RuneError) && (size =? 1)%nat); [discriminate V|].
    assert (Hne : b :: t <> []) by discriminate.
    pose proof (DecodeRune_size _ _ _ Hne D) as Hs.
    rewrite IH; [apply firstn_skipn| |exact V].
    rewrite length_skipn. cbn [length] in *. lia.
Qed.

(** A string of well-formed UTF-8 is written and read back unchanged. *)
Lemma coerce_valid s : Valid s = true -> coerce s = s.
Proof. apply coerce_loop_valid. lia. Qed.

Lemma coerce_nil_iff s : coerce s = [] <-> s = [].
Proof.
  split; [|intros ->; reflexivity].
  unfold coerce. destruct s as [|b t]; [reflexivity|].
  cbn [length coerce_loop].
  destruct (DecodeRune (b :: t)) as [r size] eqn:D.
  assert (Hne : b :: t <> []) by discriminate.
    pose proof (DecodeRune_size _ _ _ Hne D) as Hs.
  destruct ((r =? RuneError) && (size =? 1)%nat).
  - intros H. apply (f_equal (@length _)) in H. rewrite length_app in H.
    cbn in H. lia.
  - intros H. apply (f_equal (@length _)) in H. rewrite length_app, length_firstn in H.
    cbn [length] in *. lia.
Qed.


(** *** The bounds on rounds are never reached

    Each loop that the model runs for a bounded number of rounds consumes
    input in every round: with the bound that its caller gives, it ends
    because the input ends, and a larger bound changes nothing. *)

Lemma string_loop_S n b t :
  string_loop (S n) (b :: t) =
  if code b <? RuneSelf then
    (if htmlSafeSet b then [b] else escapeByte b) ++ string_loop n t
  else
    let '(c, size) := DecodeRune (b :: t) in
    if (c =? RuneError) && (size =? 1)%nat then
      (backslash :: lit "ufffd") ++ string_loop n (skipn size (b :: t))
    else if (c =? 8232) || (c =? 8233) then
      (backslash :: lit "u202") ++ [hex (N.land c 15)] ++ string_loop n (skipn size (b :: t))
    else firstn size (b :: t) ++ string_loop n (skipn size (b :: t)).
Proof. reflexivity. Qed.

Lemma DecodeRune_skipn b t c size n :
  DecodeRune (b :: t) = (c, size) -> (length (b :: t) <= S n)%nat ->
  (length (skipn size (b :: t)) <= n)%nat.
Proof.
  intros D Hn. assert (Hne : b :: t <> []) by discriminate.
  pose proof (DecodeRune_size _ _ _ Hne D) as Hs.
  rewrite length_skipn. lia.
Qed.

Lemma string_loop_rounds n : forall s,
  (length s <= n)%nat -> string_loop (S n) s = string_loop n s.
Proof.
  induction n as [|k IH]; intros s Hn.
  - destruct s; [reflexivity|cbn [length] in Hn; lia].
  - destruct s as [|b t]; [reflexivity|].
    rewrite (string_loop_S (S k)), (string_loop_S k).
    destruct (code b <? RuneSelf).
    { rewrite IH by (cbn [length] in Hn; lia). reflexivity. }
    destruct (DecodeRune (b :: t)) as [c size] eqn:D.
    rewrite IH by (eapply DecodeRune_skipn; eassumption). reflexivity.
Qed.

Lemma coerce_loop_rounds n : forall s,
  (length s <= n)%nat -> coerce_loop (S n) s = coerce_loop n s.
Proof.
  induction n as [|k IH]; intros s Hn.
  - destruct s; [reflexivity|cbn [length] in Hn; lia].
  - destruct s as [|b t]; [reflexivity|].
    change (coerce_loop (S (S k)) (b :: t)) with
      (let '(c, size) := DecodeRune (b :: t) in
       if (c =? RuneError) && (size =? 1)%nat
       then EncodeRune RuneError ++ coerce_loop (S k) (skipn size (b :: t))
       else firstn size (b :: t) ++ coerce_loop (S k) (skipn size (b :: t))).
    change (coerce_loop (S k) (b :: t)) with
      (let '(c, size) := DecodeRune (b :: t) in
       if (c =? RuneError) && (size =? 1)%nat
       then EncodeRune RuneError ++ coerce_loop k (skipn size (b :: t))
       else firstn size (b :: t) ++ coerce_loop k (skipn size (b :: t))).
    destruct (DecodeRune (b :: t)) as [c size] eqn:D.
    rewrite IH by (eapply DecodeRune_skipn; eassumption). reflexivity.
Qed.

Lemma Valid_loop_rounds n : forall s,
  (length s <= n)%nat -> Valid_loop (S n) s = Valid_loop n s.
Proof.
  induction n as [|k IH]; intros s Hn.
  - destruct s; [reflexivity|cbn [length] in Hn; lia].
  - destruct s as [|b t]; [reflexivity|].
    change (Valid_loop (S (S k)) (b :: t)) with
      (let '(r, size) := DecodeRune (b :: t) in
       if (r =? RuneError) && (size =? 1)%nat then false
       else Valid_loop (S k) (skipn size (b :: t))).
    change (Valid_loop (S k) (b :: t)) with
      (let '(r, size) := DecodeRune (b :: t) in
       if (r =? RuneError) && (size =? 1)%nat then false
       else Valid_loop k (skipn size (b :: t))).
    destruct (DecodeRune (b :: t)) as [c size] eqn:D.
    rewrite IH by (eapply DecodeRune_skipn; eassumption). reflexivity.
Qed.

Lemma unquote_loop_S n c s1 :
  unquote_loop (S n) (c :: s1) =
  let s := c :: s1 in
  if isc c backslash then
    match s1 with
    | [] => None
    | e :: s2 =>
      let emit (b : bytes) (rest : bytes) :=
        option_map (app b) (unquote_loop n rest) in
      if isc e quote || isc e backslash || isc e "/" || isc e "'" then emit [e] s2
      else if isc e "b" then emit ["008"%char] s2
      else if isc e "f" then emit ["012"%char] s2
      else if isc e "n" then emit ["010"%char] s2
      else if isc e "r" then emit ["013"%char] s2
      else if isc e "t" then emit ["009"%char] s2
      else if isc e "u" then
        match getu4 s with
        | None => None
        | Some rr =>
          let s6 := skipn 6 s in
          if utf16.IsSurrogate rr then
            let dec := match getu4 s6 with
                       | Some rr1 => utf16.DecodeRune rr rr1
                       | None => utf8.RuneError
                       end in
            if negb (dec =? utf8.RuneError)
            then emit (utf8.EncodeRune dec) (skipn 6 s6)
            else emit (utf8.EncodeRune utf8.RuneError) s6
          else emit (utf8.EncodeRune rr) s6
        end
      else None
    end
  else if isc c quote || (code c <? 32) then None
  else if code c <? utf8.RuneSelf then
    option_map (cons c) (unquote_loop n s1)
  else
    let '(rr, size) := utf8.DecodeRune s in
    option_map (app (utf8.EncodeRune rr)) (unquote_loop n (skipn size s)).
Proof. reflexivity. Qed.

Lemma unquote_loop_rounds n : forall s,
  (length s <= n)%nat -> unquote_loop (S n) s = unquote_loop n s.
Proof.
  induction n as [|k IH]; intros s Hn.
  - destruct s; [reflexivity|cbn [length] in Hn; lia].
  - destruct s as [|c s1]; [reflexivity|].
    rewrite (unquote_loop_S (S k)), (unquote_loop_S k). cbv zeta.
    destruct (DecodeRune (c :: s1)) as [rr size] eqn:D.
    pose proof (DecodeRune_skipn _ _ _ _ _ D Hn) as H5.
    cbn [length] in Hn.
    rewrite (IH s1) by lia.
    rewrite (IH (skipn size (c :: s1))) by exact H5.
    rewrite (IH (skipn 6 (c :: s1))) by (rewrite length_skipn; cbn [length]; lia).
    rewrite (IH (skipn 6 (skipn 6 (c :: s1))))
      by (rewrite !length_skipn; cbn [length]; lia).
    destruct s1 as [|e s2]; [reflexivity|].
    rewrite (IH s2) by (cbn [length] in Hn; lia).
    reflexivity.
Qed.

Lemma skipSpace_length s : (length (skipSpace s) <= length s)%nat.
Proof.
  induction s as [|c s IH]; [reflexivity|].
  cbn [skipSpace]. destruct (isSpace c); cbn [length]; lia.
Qed.

Lemma scanString_length s : forall st raw rest,
  scanString st s = Some (raw, rest) -> (length rest < length s)%nat.
Proof.
  induction s as [|c s IH]; intros st raw rest H; [discriminate H|].
  cbn [scanString] in H. cbn [length].
  assert (K : forall st', consRaw c (scanString st' s) = Some (raw, rest) ->
                          (length rest < S (length s))%nat).
  { intros st' E. unfold consRaw in E.
    destruct (scanString st' s) as [[raw' rest']|] eqn:E'; [|discriminate E].
    injection E as _ <-. apply IH in E'. lia. }
  destruct st as [| |due].
  - destruct (isc c quote); [injection H as _ <-; lia|].
    destruct (isc c backslash); [eapply K, H|].
    destruct (code c <? 32); [discriminate H|eapply K, H].
  - destruct (isc c "b" || isc c "f" || isc c "n" || isc c "r" || isc c "t"
              || isc c backslash || isc c "/" || isc c quote); [eapply K, H|].
    destruct (isc c "u"); [eapply K, H|discriminate H].
  - destruct (isHex c); [eapply K, H|discriminate H].
Qed.

Lemma parseString_length s t rest :
  parseString s = Some (t, rest) -> (length rest < length s)%nat.
Proof.
  unfold parseString. intros H.
  destruct (scanString inString s) as [[raw rest']|] eqn:E; [|discriminate H].
  destruct (unquote raw); [|discriminate H]. injection H as _ <-.
  eapply scanString_length, E.
Qed.

Lemma digits_length s : forall d rest,
  digits s = (d, rest) -> (length rest <= length s)%nat.
Proof.
  induction s as [|c s IH]; intros d rest H; cbn [digits] in H.
  - injection H as _ <-. reflexivity.
  - destruct (isDigit c).
    + destruct (digits s) as [d' rest'] eqn:E. injection H as _ <-.
      specialize (IH _ _ eq_refl). cbn [length]. lia.
    + injection H as _ <-. reflexivity.
Qed.

Lemma digits1_length s d rest :
  digits1 s = Some (d, rest) -> (length rest <= length s)%nat.
Proof.
  unfold digits1. destruct (digits s) as [d' rest'] eqn:E.
  destruct d'; intros H; [discriminate H|]. injection H as _ <-.
  eapply digits_length, E.
Qed.

Lemma parseNumber_length s t rest :
  parseNumber s = Some (t, rest) -> (length rest < length s)%nat.
Proof.
  unfold parseNumber. intros H.
  destruct (match s with
            | [] => ([], s)
            | c :: s' => if isc c "-" then ([c], s') else ([], s)
            end) as [sign s0] eqn:E0.
  assert (L0 : (length s0 <= length s)%nat).
  { destruct s as [|c s']; [injection E0 as _ <-; reflexivity|].
    destruct (isc c "-"); injection E0 as _ <-; cbn [length]; lia. }
  destruct s0 as [|c s1]; [discriminate H|]. cbn [length] in L0.
  destruct (if isc c "0" then Some ([c], s1)
            else if isDigit c then let '(d, r) := digits s1 in Some (c :: d, r)
            else None) as [[i s2]|] eqn:E1; [|discriminate H].
  assert (L2 : (length s2 <= length s1)%nat).
  { destruct (isc c "0"); [injection E1 as _ <-; reflexivity|].
    destruct (isDigit c); [|discriminate E1].
    destruct (digits s1) as [d r] eqn:Ed. injection E1 as _ <-.
    eapply digits_length, Ed. }
  destruct (match s2 with
            | [] => Some ([], s2)
            | c2 :: s3 =>
              if isc c2 "." then
                match digits1 s3 with
                | Some (d, r) => Some (c2 :: d, r)
                | None => None
                end
              else Some ([], s2)
            end) as [[f s4]|] eqn:E2; [|discriminate H].
  assert (L4 : (length s4 <= length s2)%nat).
  { destruct s2 as [|c2 s3]; [injection E2 as _ <-; reflexivity|].
    destruct (isc c2 "."); [|injection E2 as _ <-; reflexivity].
    destruct (digits1 s3) as [[d r]|] eqn:Ed; [|discriminate E2].
    injection E2 as _ <-. apply digits1_length in Ed. cbn [length]. lia. }
  destruct (match s4 with
            | [] => Some ([], s4)
            | c4 :: s5 =>
              if isc c4 "e" || isc c4 "E" then
                let '(sg, s6) := match s5 with
                                 | [] => ([], s5)
                                 | c5 :: s5' =>
                                   if isc c5 "+" || isc c5 "-"
                                   then ([c5], s5') else ([], s5)
                                 end in
                match digits1 s6 with
                | Some (d, r) => Some (c4 :: sg ++ d, r)
                | None => None
                end
              else Some ([], s4)
            end) as [[e s7]|] eqn:E3; [|discriminate H].
  assert (L7 : (length s7 <= length s4)%nat).
  { destruct s4 as [|c4 s5]; [injection E3 as _ <-; reflexivity|].
    destruct (isc c4 "e" || isc c4 "E"); [|injection E3 as _ <-; reflexivity].
    destruct (match s5 with
              | [] => ([], s5)
              | c5 :: s5' => if isc c5 "+" || isc c5 "-" then ([c5], s5') else ([], s5)
              end) as [sg s6] eqn:E6.
    assert (L6 : (length s6 <= length s5)%nat).
    { destruct s5 as [|c5 s5']; [injection E6 as _ <-; reflexivity|].
      destruct (isc c5 "+" || isc c5 "-"); injection E6 as _ <-; cbn [length]; lia. }
    destruct (digits1 s6) as [[d r]|] eqn:Ed; [|discriminate E3].
    injection E3 as _ <-. apply digits1_length in Ed. cbn [length]. lia. }
  injection H as _ <-. lia.
Qed.

Lemma HasPrefix_length s p : strings.HasPrefix s p = true -> (length p <= length s)%nat.
Proof. unfold strings.HasPrefix. intros [H _]%andb_true_iff. apply Nat.leb_le, H. Qed.

(** A value, a list of elements, a list of members: parsing one consumes
    input. *)
Lemma parse_consumes n :
  (forall d s v rest, parseValue n d s = Some (v, rest) -> (length rest < length s)%nat)
  /\ (forall d s vs rest, parseElements n d s = Some (vs, rest) ->
        (length rest < length s)%nat)
  /\ (forall d s ms rest, parseMembers n d s = Some (ms, rest) ->
        (length rest < length s)%nat).
Proof.
  induction n as [|n (IHv & IHe & IHm)].
  { repeat split; intros; discriminate. }
  repeat split.
  - intros d s v rest H. rewrite parseValue_S in H.
    destruct s as [|c s']; [discriminate H|]. cbn [length].
    destruct (isc c "{").
    { destruct (maxNestingDepth <? d + 1); [discriminate H|].
      pose proof (skipSpace_length s') as Hk.
      destruct (skipSpace s') as [|c1 s1]; [discriminate H|]. cbn [length] in Hk.
      destruct (isc c1 "}"); [injection H as _ <-; lia|].
      destruct (parseMembers n (d + 1) (c1 :: s1)) as [[ms r]|] eqn:E; [|discriminate H].
      injection H as _ <-. apply IHm in E. cbn [length] in E. lia. }
    destruct (isc c "[").
    { destruct (maxNestingDepth <? d + 1); [discriminate H|].
      pose proof (skipSpace_length s') as Hk.
      destruct (skipSpace s') as [|c1 s1]; [discriminate H|]. cbn [length] in Hk.
      destruct (isc c1 "]"); [injection H as _ <-; lia|].
      destruct (parseElements n (d + 1) (c1 :: s1)) as [[vs r]|] eqn:E; [|discriminate H].
      injection H as _ <-. apply IHe in E. cbn [length] in E. lia. }
    destruct (isc c quote).
    { destruct (parseString s') as [[t r]|] eqn:E; [|discriminate H].
      injection H as _ <-. apply parseString_length in E. lia. }
    destruct (isc c "-" || isDigit c).
    { destruct (parseNumber (c :: s')) as [[t r]|] eqn:E; [|discriminate H].
      injection H as _ <-. apply parseNumber_length in E. cbn [length] in E. lia. }
    destruct (strings.HasPrefix (c :: s') (lit "true")) eqn:P1.
    { injection H as _ <-. apply HasPrefix_length in P1.
      rewrite length_skipn. cbn [length lit list_ascii_of_string] in *. lia. }
    destruct (strings.HasPrefix (c :: s') (lit "false")) eqn:P2.
    { injection H as _ <-. apply HasPrefix_length in P2.
      rewrite length_skipn. cbn [length lit list_ascii_of_string] in *. lia. }
    destruct (strings.HasPrefix (c :: s') (lit "null")) eqn:P3; [|discriminate H].
    injection H as _ <-. apply HasPrefix_length in P3.
    rewrite length_skipn. cbn [length lit list_ascii_of_string] in *. lia.
  - intros d s vs rest H. rewrite parseElements_S in H.
    destruct (parseValue n d s) as [[v r]|] eqn:E; [|discriminate H].
    apply IHv in E. pose proof (skipSpace_length r) as Hk.
    destruct (skipSpace r) as [|c s1]; [discriminate H|]. cbn [length] in Hk.
    destruct (isc c "]"); [injection H as _ <-; lia|].
    destruct (isc c ","); [|discriminate H].
    destruct (parseElements n d (skipSpace s1)) as [[vs' r']|] eqn:E'; [|discriminate H].
    injection H as _ <-. apply IHe in E'. pose proof (skipSpace_length s1). lia.
  - intros d s ms rest H. rewrite parseMembers_S in H.
    destruct s as [|c s']; [discriminate H|]. cbn [length].
    destruct (isc c quote); [|discriminate H].
    destruct (parseString s') as [[key r]|] eqn:E; [|discriminate H].
    apply parseString_length in E. pose proof (skipSpace_length r) as Hk.
    destruct (skipSpace r) as [|c1 s1]; [discriminate H|]. cbn [length] in Hk.
    destruct (isc c1 ":"); [|discriminate H].
    destruct (parseValue n d (skipSpace s1)) as [[v r1]|] eqn:E1; [|discriminate H].
    apply IHv in E1. pose proof (skipSpace_length s1) as Hk1.
    pose proof (skipSpace_length r1) as Hk2.
    destruct (skipSpace r1) as [|c2 s2]; [discriminate H|]. cbn [length] in Hk2.
    destruct (isc c2 "}"); [injection H as _ <-; lia|].
    destruct (isc c2 ","); [|discriminate H].
    destruct (parseMembers n d (skipSpace s2)) as [[ms' r2]|] eqn:E2; [|discriminate H].
    injection H as _ <-. apply IHm in E2. pose proof (skipSpace_length s2). lia.
Qed.

(** With twice the length of the input as rounds (and one more for a list
    of elements or members), one more round changes nothing. *)
Lemma parse_rounds n :
  (forall d s, (2 * length s <= n)%nat -> parseValue (S n) d s = parseValue n d s)
  /\ (forall d s, (2 * length s + 1 <= n)%nat ->
        parseElements (S n) d s = parseElements n d s)
  /\ (forall d s, (2 * length s + 1 <= n)%nat ->
        parseMembers (S n) d s = parseMembers n d s).
Proof.
  induction n as [|n (IHv & IHe & IHm)].
  { repeat split; intros d s H; try lia.
    destruct s; [reflexivity|cbn [length] in H; lia]. }
  destruct (parse_consumes n) as (Cv & _ & _).
  repeat split; intros d s H.
  - rewrite (parseValue_S (S n)), (parseValue_S n).
    destruct s as [|c s']; [reflexivity|]. cbn [length] in H.
    pose proof (skipSpace_length s') as Hk.
    destruct (skipSpace s') as [|c1 s1]; [reflexivity|]. cbn [length] in Hk.
    rewrite IHm by (cbn [length]; lia). rewrite IHe by (cbn [length]; lia).
    reflexivity.
  - rewrite (parseElements_S (S n)), (parseElements_S n).
    rewrite IHv by lia.
    destruct (parseValue n d s) as [[v r]|] eqn:E; [|reflexivity].
    apply Cv in E. pose proof (skipSpace_length r) as Hk.
    destruct (skipSpace r) as [|c s1]; [reflexivity|]. cbn [length] in Hk.
    pose proof (skipSpace_length s1).
    rewrite IHe by lia. reflexivity.
  - rewrite (parseMembers_S (S n)), (parseMembers_S n).
    destruct s as [|c s']; [reflexivity|]. cbn [length] in H.
    destruct (isc c quote); [|reflexivity].
    destruct (parseString s') as [[key r]|] eqn:E; [|reflexivity].
    apply parseString_length in E. pose proof (skipSpace_length r) as Hk.
    destruct (skipSpace r) as [|c1 s1]; [reflexivity|]. cbn [length] in Hk.
    pose proof (skipSpace_length s1) as Hk1.
    rewrite IHv by lia.
    destruct (parseValue n d (skipSpace s1)) as [[v r1]|] eqn:E1; [|reflexivity].
    apply Cv in E1. pose proof (skipSpace_length r1) as Hk2.
    destruct (skipSpace r1) as [|c2 s2]; [reflexivity|]. cbn [length] in Hk2.
    pose proof (skipSpace_length s2).
    rewrite IHm by lia. reflexivity.
Qed.

Lemma parseValue_rounds n m d s :
  (2 * length s <= n)%nat -> (n <= m)%nat -> parseValue m d s = parseValue n d s.
Proof.
  intros Hn. induction 1 as [|m Hm IH]; [reflexivity|].
  rewrite <- IH. apply parse_rounds. lia.
Qed.

(** The rounds that [parse] allows are enough: with more, it returns the
    same. *)
Lemma parse_rounds_enough data m :
  (2 * length data + 2 <= m)%nat ->
  parseValue m 0 (skipSpace data) = parseValue (2 * length data + 2) 0 (skipSpace data).
Proof.
  intros H. apply parseValue_rounds; [|exact H].
  pose proof (skipSpace_length data). lia.
Qed.

End JsonFacts.

(** ** Facts about [New] and [VerifyAndUnmarshal] *)

Section OwnershipVoucherFacts.

Context {T : TimePkg} {P : Pkcs7Pkg T}.



Lemma VerifyAndUnmarshal_unmarshal_error in_ certPool w p7 err :
  in_ <> [] -> Parse in_ = Ok p7 ->
  json.Unmarshal (Content p7) zeroOwnershipVoucher = Err err ->
  VerifyAndUnmarshal in_ certPool w = (Err (ErrUnmarshal err), w).
Proof.
  intros Hne HP HU. unfold VerifyAndUnmarshal.
  destruct in_ as [|c t]; [congruence|]. cbn [length Nat.eqb]. rewrite HP, HU. reflexivity.
Qed.


Lemma VerifyAndUnmarshal_ok in_ certPool w p7 ov :
  in_ <> [] -> Parse in_ = Ok p7 ->
  json.Unmarshal (Content p7) zeroOwnershipVoucher = Ok ov ->
  VerifyWithChain p7 certPool = None ->
  VerifyAndUnmarshal in_ certPool w = (Ok ov, w).
Proof.
  intros Hne HP HU HV. unfold VerifyAndUnmarshal.
  destruct in_ as [|c t]; [congruence|]. cbn [length Nat.eqb]. rewrite HP, HU, HV. reflexivity.
Qed.


(** [New] with a valid signer: the envelope it returns, and what a verifier
    finds in it. *)
Lemma New_signs w serial pdcPem cert key :
  ValidSigner cert key ->
  exists out p7,
    New serial pdcPem cert key w = (Ok out, afterNew w)
    /\ out <> []
    /\ Parse out = Ok p7
    /\ Content p7 = json.encodeOwnershipVoucher (newVoucher (clock w 0) serial pdcPem)
    /\ (forall pool, Trusts pool cert (clock w 1) -> VerifyWithChain p7 pool = None).
Proof.
  intros HV.
  destruct (sign_then_verify
              (json.encodeOwnershipVoucher (newVoucher (clock w 0) serial pdcPem))
              cert key (clock w 1) HV)
    as (sd0 & sd1 & out & p7 & H0 & H1 & H2 & H3 & H4 & H5 & H6).
  exists out, p7. repeat split; try assumption.
  unfold New, bind, AddSigner, bind, ret, time_Now, json.Marshal.
  cbn [clock files dirs artifactDirectory]. rewrite H0. cbn [clock]. rewrite H1, H2.
  reflexivity.
Qed.

(** A voucher made by [New] and verified against a pool that trusts the
    signer: the claims come back as JSON carries them. *)
Lemma New_VerifyAndUnmarshal w serial pdcPem cert key pool :
  ValidSigner cert key -> Trusts pool cert (clock w 1) ->
  exists out,
    New serial pdcPem cert key w = (Ok out, afterNew w)
    /\ forall w',
         VerifyAndUnmarshal out pool w'
         = (Ok (json.coerceOwnershipVoucher (newVoucher (clock w 0) serial pdcPem)), w').
Proof.
  intros HV HT.
  destruct (New_signs w serial pdcPem cert key HV) as (out & p7 & HN & Hne & HP & HC & HW).
  exists out. split; [exact HN|]. intros w'.
  apply (VerifyAndUnmarshal_ok out pool w' p7); auto.
  rewrite HC. apply Unmarshal_encode.
Qed.

End OwnershipVoucherFacts.

(** ** Facts about the artifact loading *)

Section ServerFacts.

Context {T : TimePkg} {L : TlsPkg} {F : FilepathPkg}.

Lemma readKeypair_world name w : readKeypair name w = (fst (readKeypair name w), w).
Proof.
  unfold readKeypair, bind, flag_artifactDirectory, os_ReadFile, ret.
  destruct (files w _); [|reflexivity]. destruct (files w _); reflexivity.
Qed.

Lemma readOVs_loop_world dir entries : forall ovs w,
  readOVs_loop dir entries ovs w = (fst (readOVs_loop dir entries ovs w), w).
Proof.
  induction entries as [|name entries IH]; intros ovs w; [reflexivity|].
  cbn [readOVs_loop]. destruct (strings.HasPrefix name (lit "ov")); [|apply IH].
  unfold bind, os_ReadFile. destruct (files w _); [apply IH|reflexivity].
Qed.

Lemma readOVs_world w : readOVs w = (fst (readOVs w), w).
Proof.
  unfold readOVs, bind, flag_artifactDirectory, os_ReadDir, ret.
  destruct (dirs w _) as [entries|]; [|reflexivity].
  rewrite readOVs_loop_world. destruct (fst _) as [ovs|]; [|reflexivity].
  destruct (size ovs =? 0)%nat; reflexivity.
Qed.

(** The steps of [parseSecurityArtifacts], in their order: the first that
    fails decides the error. *)
Lemma parseSecurityArtifacts_steps w :
  parseSecurityArtifacts w =
  (match fst (readKeypair (lit "oc") w) with
   | Err err => Err err
   | Ok oc =>
     match fst (readKeypair (lit "pdc") w) with
     | Err err => Err err
     | Ok pdc =>
       match fst (readKeypair (lit "vendorca") w) with
       | Err err => Err err
       | Ok vendorCA =>
         match fst (readOVs w) with
         | Err err => Err err
         | Ok ovs =>
           match generateServerTlsCert pdc with
           | Err err => Err err
           | Ok tlsCert =>
             Ok {| OC := oc; PDC := pdc; VendorCA := vendorCA; OVs := ovs;
                   TLSKeypair := tlsCert |}
           end
         end
       end
     end
   end, w).
Proof.
  unfold parseSecurityArtifacts, bind.
  rewrite (readKeypair_world (lit "oc") w).
  destruct (fst (readKeypair (lit "oc") w)) as [oc|]; [|reflexivity].
  rewrite (readKeypair_world (lit "pdc") w).
  destruct (fst (readKeypair (lit "pdc") w)) as [pdc|]; [|reflexivity].
  rewrite (readKeypair_world (lit "vendorca") w).
  destruct (fst (readKeypair (lit "vendorca") w)) as [vendorCA|]; [|reflexivity].
  rewrite (readOVs_world w).
  destruct (fst (readOVs w)) as [ovs|]; [|reflexivity].
  cbn [fst]. destruct (generateServerTlsCert pdc); reflexivity.
Qed.

End ServerFacts.

(** ** Further facts about [unicode/utf8] and [encoding/json] *)

Section JsonProperties.

Import utf8 json.
Local Open Scope N_scope.

Lemma Valid_loop_S n b t :
  Valid_loop (S n) (b :: t) =
  let '(r, size) := DecodeRune (b :: t) in
  if (r =? RuneError) && (size =? 1)%nat then false
  else Valid_loop n (skipn size (b :: t)).
Proof. reflexivity. Qed.

Lemma Valid_loop_more m : forall n s,
  (length s <= n)%nat -> Valid_loop (m + n) s = Valid_loop n s.
Proof.
  induction m as [|m IH]; intros n s H; [reflexivity|].
  cbn [Nat.add]. rewrite Valid_loop_rounds by lia. apply IH, H.
Qed.

(** A well-formed rune in front does not change whether the text is
    well-formed. *)
Lemma Valid_rune c rest : wellFormedRune c -> Valid (c ++ rest) = Valid rest.
Proof.
  intros [Hne H]. destruct (H rest) as (r & D & E).
  unfold Valid. destruct c as [|b t]; [congruence|].
  cbn [app length] in *. rewrite Valid_loop_S, D, E.
  change (skipn (S (length t)) (b :: t ++ rest)) with (skipn (length t) (t ++ rest)).
  rewrite skipn_app, skipn_all, Nat.sub_diag. cbn [skipn app].
  rewrite length_app. apply Valid_loop_more. lia.
Qed.

Lemma wellFormedRune_ascii c : code c < 128 -> wellFormedRune [c].
Proof.
  intros Hc. split; [discriminate|]. intros rest. exists (code c).
  cbn [app length]. rewrite DecodeRune_cons.
  assert (first (code c) = as_ascii) as ->.
  { unfold first. apply N.ltb_lt in Hc. rewrite Hc. reflexivity. }
  split; [reflexivity|]. apply andb_false_iff. left. apply N.eqb_neq.
  unfold RuneError. lia.
Qed.







Lemma isc_eq c d : isc c d = true -> c = d.
Proof. apply Ascii.eqb_eq. Qed.













End JsonProperties.

(** ** What the decoder returns is well-formed UTF-8 *)

Section DecoderProperties.

Import utf8 json.
Local Open Scope N_scope.

Lemma In_nRange len : forall lo n,
  lo <= n < lo + N.of_nat len -> In n (nRange lo len).
Proof.
  induction len as [|len IH]; intros lo n H; [lia|].
  cbn [nRange]. destruct (N.eq_dec lo n) as [->|Hne]; [left; reflexivity|].
  right. apply IH. lia.
Qed.

Lemma encodedHead2_all : forallb encodedHead2_ok (nRange 2 30) = true.
Proof. vm_cast_no_check (eq_refl true). Qed.

Lemma encodedLast_all : forallb encodedLast_ok (nRange 0 64) = true.
Proof. vm_cast_no_check (eq_refl true). Qed.

Lemma encodedHead3_all :
  forallb (fun h => implb (inHead3 h) (encodedHead3_ok h)) (nRange 32 992) = true.
Proof. vm_cast_no_check (eq_refl true). Qed.

Lemma encodedHead4_all : forallb encodedHead4_ok (nRange 1024 (128 * 128)) = true.
Proof. vm_cast_no_check (eq_refl true). Qed.

Lemma shiftr6_bounds r a b : a * 64 <= r < b * 64 -> a <= N.shiftr r 6 < b.
Proof.
  intros [H1 H2]. rewrite N.shiftr_div_pow2. change (2 ^ 6) with 64. split.
  - apply N.div_le_lower_bound; lia.
  - apply N.Div0.div_lt_upper_bound. lia.
Qed.

Lemma code_toByte x : x < 256 -> code (toByte x) = x.
Proof.
  intros H. unfold code, toByte. change 255 with (N.ones 8).
  rewrite N.land_ones, N.mod_small by exact H. apply N_ascii_embedding. exact H.
Qed.

(** Sequences of two, three and four bytes that [DecodeRune] accepts. *)
Lemma wellFormedRune_2 c0 c1 lo hi :
  first (code c0) = lead 2 lo hi -> outside lo hi c1 = false -> wellFormedRune [c0; c1].
Proof.
  intros F O1. split; [discriminate|]. intros rest. exists (rune2 c0 c1).
  cbn [app length]. rewrite DecodeRune_cons, F, O1. split; [reflexivity|].
  apply andb_false_r.
Qed.

Lemma wellFormedRune_3 c0 c1 c2 lo hi :
  first (code c0) = lead 3 lo hi -> outside lo hi c1 = false ->
  outside 128 191 c2 = false -> wellFormedRune [c0; c1; c2].
Proof.
  intros F O1 O2. split; [discriminate|]. intros rest. exists (rune3 c0 c1 c2).
  cbn [app length]. rewrite DecodeRune_cons, F, O1, O2. split; [reflexivity|].
  apply andb_false_r.
Qed.

Lemma wellFormedRune_4 c0 c1 c2 c3 lo hi :
  first (code c0) = lead 4 lo hi -> outside lo hi c1 = false ->
  outside 128 191 c2 = false -> outside 128 191 c3 = false ->
  wellFormedRune [c0; c1; c2; c3].
Proof.
  intros F O1 O2 O3. split; [discriminate|]. intros rest. exists (rune4 c0 c1 c2 c3).
  cbn [app length]. rewrite DecodeRune_cons, F, O1, O2, O3. split; [reflexivity|].
  apply andb_false_r.
Qed.

Lemma encodedLast r : outside 128 191 (toByte (N.lor 128 (N.land r 63))) = false.
Proof.
  pose proof encodedLast_all as A. rewrite forallb_forall in A.
  specialize (A (N.land r 63)). unfold encodedLast_ok in A.
  apply negb_true_iff, A, In_nRange. pose proof (land63_lt r). lia.
Qed.

(** What [EncodeRune] writes is read by [DecodeRune] as one rune. *)
Lemma wellFormedRune_EncodeRune r : wellFormedRune (EncodeRune r).
Proof.
  unfold EncodeRune, MaxRune.
  destruct (N.leb_spec r 127) as [H1|H1].
  { apply wellFormedRune_ascii. rewrite code_toByte; lia. }
  destruct (N.leb_spec r 2047) as [H2|H2].
  { pose proof encodedHead2_all as A. rewrite forallb_forall in A.
    assert (Hh : 2 <= N.shiftr r 6 < 32) by (apply shiftr6_bounds; lia).
    specialize (A (N.shiftr r 6) (In_nRange 30 2 (N.shiftr r 6) ltac:(lia))).
    unfold encodedHead2_ok in A.
    destruct (first _) as [| |sz lo hi] eqn:F; try discriminate.
    apply andb_true_iff in A as [A Hhi]. apply andb_true_iff in A as [Hsz Hlo].
    apply Nat.eqb_eq in Hsz. apply N.eqb_eq in Hlo, Hhi. subst.
    eapply wellFormedRune_2; [exact F|apply encodedLast]. }
  assert (E3 : wellFormedRune (encode3 RuneError)).
  { eapply (wellFormedRune_3 _ _ _ 128 191); reflexivity. }
  destruct (N.ltb_spec 1114111 r) as [H3|H3]; [exact E3|].
  destruct (N.leb_spec 55296 r) as [H4|H4];
    [destruct (N.leb_spec r 57343) as [H5|H5]; [exact E3|]|]; cbn [orb andb].
  - (* above the surrogates *)
    destruct (N.leb_spec r 65535) as [H6|H6].
    + pose proof encodedHead3_all as A. rewrite forallb_forall in A.
      assert (Hh : 896 <= N.shiftr r 6 < 1024) by (apply shiftr6_bounds; lia).
      specialize (A (N.shiftr r 6) (In_nRange 992 32 (N.shiftr r 6) ltac:(lia))).
      assert (Hin : inHead3 (N.shiftr r 6) = true).
      { unfold inHead3. apply orb_true_iff. right.
        apply andb_true_iff. split; apply N.leb_le; lia. }
      rewrite Hin in A. cbn [implb] in A. unfold encodedHead3_ok, encodeHead3 in A.
      destruct (first _) as [| |sz lo hi] eqn:F; try discriminate.
      apply andb_true_iff in A as [Hsz O1]. apply Nat.eqb_eq in Hsz. subst sz.
      apply negb_true_iff in O1. unfold encode3.
      replace (N.shiftr r 12) with (N.shiftr (N.shiftr r 6) 6)
        by (rewrite N.shiftr_shiftr; reflexivity).
      eapply wellFormedRune_3; [exact F|exact O1|apply encodedLast].
    + pose proof encodedHead4_all as A. rewrite forallb_forall in A.
      assert (Hh : 1024 <= N.shiftr r 6 < 17408) by (apply shiftr6_bounds; lia).
      specialize (A (N.shiftr r 6) (In_nRange (128 * 128) 1024 (N.shiftr r 6) ltac:(lia))).
      unfold encodedHead4_ok, encodeHead4 in A.
      destruct (first _) as [| |sz lo hi] eqn:F; try discriminate.
      apply andb_true_iff in A as [A O2]. apply andb_true_iff in A as [Hsz O1].
      apply Nat.eqb_eq in Hsz. subst sz. apply negb_true_iff in O1, O2.
      replace (N.shiftr r 18) with (N.shiftr (N.shiftr r 6) 12)
        by (rewrite N.shiftr_shiftr; reflexivity).
      replace (N.shiftr r 12) with (N.shiftr (N.shiftr r 6) 6)
        by (rewrite N.shiftr_shiftr; reflexivity).
      eapply wellFormedRune_4; [exact F|exact O1|exact O2|apply encodedLast].
  - (* below the surrogates *)
    destruct (N.leb_spec r 65535) as [H6|H6]; [|lia].
    pose proof encodedHead3_all as A. rewrite forallb_forall in A.
    assert (Hh : 32 <= N.shiftr r 6 < 864) by (apply shiftr6_bounds; lia).
    specialize (A (N.shiftr r 6) (In_nRange 992 32 (N.shiftr r 6) ltac:(lia))).
    assert (Hin : inHead3 (N.shiftr r 6) = true).
    { unfold inHead3. apply orb_true_iff. left.
      apply andb_true_iff. split; apply N.leb_le; lia. }
    rewrite Hin in A. cbn [implb] in A. unfold encodedHead3_ok, encodeHead3 in A.
    destruct (first _) as [| |sz lo hi] eqn:F; try discriminate.
    apply andb_true_iff in A as [Hsz O1]. apply Nat.eqb_eq in Hsz. subst sz.
    apply negb_true_iff in O1. unfold encode3.
    replace (N.shiftr r 12) with (N.shiftr (N.shiftr r 6) 6)
      by (rewrite N.shiftr_shiftr; reflexivity).
    eapply wellFormedRune_3; [exact F|exact O1|apply encodedLast].
Qed.

End DecoderProperties.

Section DecoderProperties2.

Import utf8 json.
Local Open Scope N_scope.

Lemma emit_Valid (b : bytes) (r : option bytes) (t : bytes) :
  wellFormedRune b ->
  (forall t', r = Some t' -> Valid t' = true) ->
  option_map (app b) r = Some t -> Valid t = true.
Proof.
  intros Hb IH H. destruct r as [t'|]; [|discriminate].
  injection H as <-. rewrite Valid_rune by exact Hb. apply IH. reflexivity.
Qed.

Lemma escaped_ascii e :
  isc e quote || isc e backslash || isc e "/" || isc e "'" = true -> code e < 128.
Proof.
  intros H. repeat (apply orb_true_iff in H as [H|H]); apply isc_eq in H; subst e;
    reflexivity.
Qed.

(** The value of a string literal is well-formed UTF-8. *)
Lemma unquote_loop_Valid n : forall s t, unquote_loop n s = Some t -> Valid t = true.
Proof.
  induction n as [|n IH]; intros s t.
  - destruct s; [intros [= <-]; reflexivity|discriminate].
  - destruct s as [|c s1]; [intros [= <-]; reflexivity|].
    rewrite unquote_loop_S. cbv zeta.
    destruct (isc c backslash).
    + destruct s1 as [|e s2]; [discriminate|].
      destruct (isc e quote || isc e backslash || isc e "/" || isc e "'") eqn:E.
      { apply emit_Valid; [apply wellFormedRune_ascii, escaped_ascii, E|apply IH]. }
      destruct (isc e "b");
        [apply emit_Valid; [apply wellFormedRune_ascii; reflexivity|apply IH]|].
      destruct (isc e "f");
        [apply emit_Valid; [apply wellFormedRune_ascii; reflexivity|apply IH]|].
      destruct (isc e "n");
        [apply emit_Valid; [apply wellFormedRune_ascii; reflexivity|apply IH]|].
      destruct (isc e "r");
        [apply emit_Valid; [apply wellFormedRune_ascii; reflexivity|apply IH]|].
      destruct (isc e "t");
        [apply emit_Valid; [apply wellFormedRune_ascii; reflexivity|apply IH]|].
      destruct (isc e "u"); [|discriminate].
      destruct (getu4 (c :: e :: s2)) as [rr|]; [|discriminate].
      destruct (utf16.IsSurrogate rr).
      * destruct (negb _);
          (apply emit_Valid; [apply wellFormedRune_EncodeRune|apply IH]).
      * apply emit_Valid; [apply wellFormedRune_EncodeRune|apply IH].
    + destruct (isc c quote || (code c <? 32)); [discriminate|].
      destruct (code c <? RuneSelf) eqn:Hc.
      * change (cons c) with (app [c]).
        apply emit_Valid; [|apply IH].
        apply wellFormedRune_ascii. apply N.ltb_lt in Hc. exact Hc.
      * destruct (DecodeRune (c :: s1)) as [rr size].
        apply emit_Valid; [apply wellFormedRune_EncodeRune|apply IH].
Qed.

Lemma parseString_Valid s t rest : parseString s = Some (t, rest) -> Valid t = true.
Proof.
  unfold parseString. destruct (scanString inString s) as [[raw r]|]; [|discriminate].
  destruct (unquote raw) as [t'|] eqn:U; [|discriminate].
  intros [= <- <-]. eapply unquote_loop_Valid. exact U.
Qed.

(** The strings of a value that the parser returns are well-formed UTF-8. *)
Lemma parse_stringsValid n : forall d s,
  (forall v rest, parseValue n d s = Some (v, rest) -> stringsValid v = true)
  /\ (forall vs rest, parseElements n d s = Some (vs, rest) ->
        forallb stringsValid vs = true)
  /\ (forall ms rest, parseMembers n d s = Some (ms, rest) ->
        forallb (fun m => stringsValid (snd m)) ms = true).
Proof.
  induction n as [|n IH]; intros d s; [repeat split; discriminate|].
  repeat split.
  - intros v rest. rewrite parseValue_S.
    destruct s as [|c s']; [discriminate|].
    destruct (isc c "{").
    { destruct (maxNestingDepth <? d + 1); [discriminate|].
      destruct (skipSpace s') as [|c1 s1]; [discriminate|].
      destruct (isc c1 "}"); [intros [= <- <-]; reflexivity|].
      destruct (parseMembers n (d + 1) (c1 :: s1)) as [[ms r]|] eqn:E; [|discriminate].
      intros [= <- <-]. cbn [stringsValid]. eapply (IH (d + 1) (c1 :: s1)). exact E. }
    destruct (isc c "[").
    { destruct (maxNestingDepth <? d + 1); [discriminate|].
      destruct (skipSpace s') as [|c1 s1]; [discriminate|].
      destruct (isc c1 "]"); [intros [= <- <-]; reflexivity|].
      destruct (parseElements n (d + 1) (c1 :: s1)) as [[vs r]|] eqn:E; [|discriminate].
      intros [= <- <-]. cbn [stringsValid]. eapply (IH (d + 1) (c1 :: s1)). exact E. }
    destruct (isc c quote).
    { destruct (parseString s') as [[t r]|] eqn:E; [|discriminate].
      intros [= <- <-]. cbn [stringsValid]. eapply parseString_Valid. exact E. }
    destruct (isc c "-" || isDigit c).
    { destruct (parseNumber (c :: s')) as [[t r]|]; [|discriminate].
      intros [= <- <-]. reflexivity. }
    destruct (strings.HasPrefix (c :: s') (lit "true")); [intros [= <- <-]; reflexivity|].
    destruct (strings.HasPrefix (c :: s') (lit "false")); [intros [= <- <-]; reflexivity|].
    destruct (strings.HasPrefix (c :: s') (lit "null")); [intros [= <- <-]; reflexivity|].
    discriminate.
  - intros vs rest. rewrite parseElements_S.
    destruct (parseValue n d s) as [[v r]|] eqn:E; [|discriminate].
    apply (IH d s) in E.
    destruct (skipSpace r) as [|c s1]; [discriminate|].
    destruct (isc c "]").
    { intros [= <- <-]. cbn [forallb]. rewrite E. reflexivity. }
    destruct (isc c ","); [|discriminate].
    destruct (parseElements n d (skipSpace s1)) as [[vs' r']|] eqn:E'; [|discriminate].
    apply (IH d (skipSpace s1)) in E'.
    intros [= <- <-]. cbn [forallb]. rewrite E, E'. reflexivity.
  - intros ms rest. rewrite parseMembers_S.
    destruct s as [|c s']; [discriminate|].
    destruct (isc c quote); [|discriminate].
    destruct (parseString s') as [[key r]|]; [|discriminate].
    destruct (skipSpace r) as [|c1 s1]; [discriminate|].
    destruct (isc c1 ":"); [|discriminate].
    destruct (parseValue n d (skipSpace s1)) as [[v r1]|] eqn:E; [|discriminate].
    apply (IH d (skipSpace s1)) in E.
    destruct (skipSpace r1) as [|c2 s2]; [discriminate|].
    destruct (isc c2 "}").
    { intros [= <- <-]. cbn [forallb snd]. rewrite E. reflexivity. }
    destruct (isc c2 ","); [|discriminate].
    destruct (parseMembers n d (skipSpace s2)) as [[ms' r']|] eqn:E'; [|discriminate].
    apply (IH d (skipSpace s2)) in E'.
    intros [= <- <-]. cbn [forallb snd]. rewrite E, E'. reflexivity.
Qed.

Lemma parse_Valid data j : parse data = Some j -> stringsValid j = true.
Proof.
  unfold parse.
  destruct (parseValue _ 0 (skipSpace data)) as [[v rest]|] eqn:E; [|discriminate].
  destruct (skipSpace rest); [|discriminate]. intros [= <-].
  eapply parse_stringsValid. exact E.
Qed.

(** Storing keeps the strings of the struct well-formed. *)

Lemma storeString_Valid j cur :
  stringsValid j = true -> Valid cur = true -> Valid (fst (storeString j cur)) = true.
Proof. destruct j; cbn [storeString fst stringsValid]; auto. Qed.

Lemma storeInnerField_Valid i j v :
  stringsValid j = true -> validInner v = true ->
  validInner (fst (storeInnerField i j v)) = true.
Proof.
  intros Hj Hv. unfold validInner in Hv.
  apply andb_true_iff in Hv as [Hv H5]. apply andb_true_iff in Hv as [Hv H4].
  apply andb_true_iff in Hv as [Hv H3]. apply andb_true_iff in Hv as [H1 H2].
  unfold storeInnerField.
  do 5 (destruct i as [|i];
        [match goal with
         | |- context [storeString j ?cur] =>
           pose proof (storeString_Valid j cur Hj ltac:(assumption)) as Hs;
           destruct (storeString j cur) as [x e]; cbn [fst] in *;
           unfold validInner;
           cbn [CreatedOn ExpiresOn SerialNumber Assertion PinnedDomainCert];
           rewrite ?H1, ?H2, ?H3, ?H4, ?H5, ?Hs; reflexivity
         end|]).
  destruct (storeBool j (DomainCertRevocationChecks v)) as [x e]. cbn [fst].
  unfold validInner. cbn [CreatedOn ExpiresOn SerialNumber Assertion PinnedDomainCert].
  rewrite H1, H2, H3, H4, H5. reflexivity.
Qed.

Lemma storeMembers_invariant {A} (good : A -> bool) names
    (store : nat -> value -> A -> decoding A) members :
  (forall i j v, stringsValid j = true -> good v = true -> good (fst (store i j v)) = true) ->
  forallb (fun m => stringsValid (snd m)) members = true ->
  forall v, good v = true -> good (fst (storeMembers names store members v)) = true.
Proof.
  intros Hstore Hm v Hv. unfold storeMembers.
  assert (G : forall acc : decoding A, good (fst acc) = true ->
            good (fst (fold_left
              (fun (acc : decoding A) (m : bytes * value) =>
                 match findField names (fst m) with
                 | Some i => let '(v', e) := store i (snd m) (fst acc) in (v', snd acc || e)
                 | None => acc
                 end) members acc)) = true).
  { induction members as [|m ms IHm]; intros acc Hacc; [exact Hacc|].
    cbn [forallb] in Hm. apply andb_true_iff in Hm as [Hm1 Hm2].
    cbn [fold_left]. apply IHm; [exact Hm2|].
    destruct (findField names (fst m)) as [i|]; [|exact Hacc].
    pose proof (Hstore i (snd m) (fst acc) Hm1 Hacc) as Hs.
    destruct (store i (snd m) (fst acc)) as [v' e]. exact Hs. }
  apply G. exact Hv.
Qed.

Lemma storeInner_Valid j v :
  stringsValid j = true -> validInner v = true -> validInner (fst (storeInner j v)) = true.
Proof.
  intros Hj Hv. destruct j; cbn [storeInner fst]; try exact Hv.
  apply storeMembers_invariant; [apply storeInnerField_Valid|exact Hj|exact Hv].
Qed.

Lemma storeOwnershipVoucher_Valid j v :
  stringsValid j = true -> validClaims v = true ->
  validClaims (fst (storeOwnershipVoucher j v)) = true.
Proof.
  intros Hj Hv. destruct j; cbn [storeOwnershipVoucher fst]; try exact Hv.
  apply (storeMembers_invariant validClaims); [|exact Hj|exact Hv].
  intros i j' v' Hj' Hv'. unfold storeOwnershipVoucherField.
  pose proof (storeInner_Valid j' (OV v') Hj' Hv') as Hs.
  destruct (storeInner j' (OV v')) as [x e]. exact Hs.
Qed.

Lemma Unmarshal_Valid data v v' :
  validClaims v = true -> Unmarshal data v = Ok v' -> validClaims v' = true.
Proof.
  intros Hv. unfold Unmarshal. destruct (parse data) as [j|] eqn:P; [|discriminate].
  pose proof (storeOwnershipVoucher_Valid j v (parse_Valid _ _ P) Hv) as Hs.
  destruct (storeOwnershipVoucher j v) as [x [|]]; [discriminate|].
  intros [= <-]. exact Hs.
Qed.

End DecoderProperties2.

(** ** Further facts about the artifact loading *)

Section ServerProperties.

Context {T : TimePkg} {L : TlsPkg} {F : FilepathPkg}.

Lemma readKeypair_fst name w :
  fst (readKeypair name w) =
  match files w (Join (artifactDirectory w) (name ++ lit "_pub.pem")) with
  | Err err => Err (ErrReadCert name err)
  | Ok cert =>
    match files w (Join (artifactDirectory w) (name ++ lit "_priv.pem")) with
    | Err err => Err (ErrReadKey name err)
    | Ok key => Ok {| Cert := cert; Key := key |}
    end
  end.
Proof.
  unfold readKeypair, bind, flag_artifactDirectory, os_ReadFile, ret.
  destruct (files w _); [|reflexivity]. destruct (files w _); reflexivity.
Qed.

Lemma find_last {A} (p : A -> bool) (l : list A) (a : A) :
  find p (l ++ [a]) =
  match find p l with
  | Some x => Some x
  | None => if p a then Some a else None
  end.
Proof.
  induction l as [|b l IH]; [reflexivity|].
  cbn [app find]. destruct (p b); [reflexivity|exact IH].
Qed.

(** The loop of [readOVs], one entry at a time. *)
Lemma readOVs_loop_cons dir name entries ovs (w : World T) :
  fst (readOVs_loop dir (name :: entries) ovs w) =
  if isOV name then
    match files w (Join dir name) with
    | Err err => Err (ErrReadOV err)
    | Ok data => fst (readOVs_loop dir entries (<[trimmed name := data]> ovs) w)
    end
  else fst (readOVs_loop dir entries ovs w).
Proof.
  cbn [readOVs_loop]. unfold isOV.
  destruct (strings.HasPrefix name (lit "ov")); [|reflexivity].
  unfold bind, os_ReadFile. destruct (files w _); reflexivity.
Qed.

Lemma readOVs_fst (w : World T) :
  fst (readOVs w) =
  match dirs w (artifactDirectory w) with
  | Err err => Err (ErrListDir err)
  | Ok entries =>
    match fst (readOVs_loop (artifactDirectory w) entries ∅ w) with
    | Err err => Err err
    | Ok ovs => if (size ovs =? 0)%nat then Err ErrNoOVs else Ok ovs
    end
  end.
Proof.
  unfold readOVs, bind, flag_artifactDirectory, os_ReadDir, ret.
  destruct (dirs w _) as [entries|]; [|reflexivity].
  rewrite readOVs_loop_world. cbn [fst].
  destruct (fst (readOVs_loop (artifactDirectory w) entries ∅ w)) as [ovs|]; [|reflexivity].
  destruct (size ovs =? 0)%nat; reflexivity.
Qed.

Lemma OVList_lookup_empty (k : bytes) : (∅ : OVList) !! k = None.
Proof. apply lookup_empty. Qed.

(** The loop fails with the error of a file only. *)
Lemma readOVs_loop_error dir entries : forall ovs (w : World T) e,
  fst (readOVs_loop dir entries ovs w) = Err e -> exists err, e = ErrReadOV err.
Proof.
  induction entries as [|n entries IH]; intros ovs w e; [discriminate|].
  rewrite readOVs_loop_cons. destruct (isOV n); [|apply IH].
  destruct (files w _) as [d|err]; [apply IH|]. intros [= <-]. eauto.
Qed.

(** The vouchers after the loop: the last entry filed under a key decides
    its voucher, and the keys of no entry keep what they had. *)
Lemma readOVs_loop_lookup dir entries k : forall ovs (w : World T) m,
  fst (readOVs_loop dir entries ovs w) = Ok m ->
  m !! k =
  match find (fun n => isOV n && bytes_eqb (trimmed n) k) (rev entries) with
  | Some n => match files w (Join dir n) with Ok d => Some d | Err _ => None end
  | None => ovs !! k
  end.
Proof.
  induction entries as [|n entries IH]; intros ovs w m.
  - intros [= <-]. reflexivity.
  - rewrite readOVs_loop_cons. cbn [rev]. rewrite find_last.
    destruct (isOV n) eqn:Hov; cbn [andb].
    + destruct (files w (Join dir n)) as [d|err] eqn:Hf; [|discriminate].
      intros H. rewrite (IH _ _ _ H).
      destruct (find _ (rev entries)); [reflexivity|].
      destruct (bytes_eqb (trimmed n) k) eqn:E.
      * apply bytes_eqb_eq in E. subst k. rewrite Hf. apply lookup_insert_eq.
      * apply lookup_insert_ne.
        intros Heq. rewrite Heq, bytes_eqb_refl in E. discriminate.
    + intros H. rewrite (IH _ _ _ H).
      destruct (find _ (rev entries)); reflexivity.
Qed.

(** When the loop succeeds, every entry it reads was readable. *)
Lemma readOVs_loop_readable dir entries : forall ovs (w : World T) m n,
  fst (readOVs_loop dir entries ovs w) = Ok m ->
  In n entries -> isOV n = true -> exists d, files w (Join dir n) = Ok d.
Proof.
  induction entries as [|n0 entries IH]; intros ovs w m n; [intros _ []|].
  rewrite readOVs_loop_cons. intros H [->|Hin] Hov.
  - rewrite Hov in H. destruct (files w (Join dir n)) as [d|]; [eauto|discriminate].
  - destruct (isOV n0); [|eapply IH; eassumption].
    destruct (files w (Join dir n0)); [eapply IH; eassumption|discriminate].
Qed.

(** The loop reads the entries named [ov...] only. *)
Lemma readOVs_loop_filter dir entries : forall ovs (w : World T),
  fst (readOVs_loop dir (List.filter isOV entries) ovs w)
  = fst (readOVs_loop dir entries ovs w).
Proof.
  induction entries as [|n entries IH]; intros ovs w; [reflexivity|].
  cbn [List.filter]. rewrite (readOVs_loop_cons dir n entries).
  destruct (isOV n) eqn:Hov; [|apply IH].
  rewrite readOVs_loop_cons, Hov. destruct (files w _); [apply IH|reflexivity].
Qed.

Lemma readOVs_loop_ext dir entries : forall ovs (w w' : World T),
  (forall n, In n entries -> isOV n = true ->
             files w' (Join dir n) = files w (Join dir n)) ->
  fst (readOVs_loop dir entries ovs w') = fst (readOVs_loop dir entries ovs w).
Proof.
  induction entries as [|n entries IH]; intros ovs w w' H; [reflexivity|].
  rewrite !readOVs_loop_cons. destruct (isOV n) eqn:Hov.
  - rewrite (H n (or_introl eq_refl) Hov).
    destruct (files w _); [|reflexivity]. apply IH.
    intros n' Hin. apply H. right; exact Hin.
  - apply IH. intros n' Hin. apply H. right; exact Hin.
Qed.

Lemma readOVs_loop_none dir entries : forall ovs (w : World T),
  Forall (fun n => isOV n = false) entries ->
  fst (readOVs_loop dir entries ovs w) = Ok ovs.
Proof.
  induction entries as [|n entries IH]; intros ovs w H; [reflexivity|].
  inversion H as [|? ? Hn Hrest]; subst.
  rewrite readOVs_loop_cons, Hn. apply IH, Hrest.
Qed.

Lemma readKeypair_ok name (w : World T) pair :
  fst (readKeypair name w) = Ok pair <->
  files w (Join (artifactDirectory w) (name ++ lit "_pub.pem")) = Ok (Cert pair)
  /\ files w (Join (artifactDirectory w) (name ++ lit "_priv.pem")) = Ok (Key pair).
Proof.
  rewrite readKeypair_fst.
  destruct (files w (Join _ (name ++ lit "_pub.pem"))) as [cert|e1].
  - destruct (files w (Join _ (name ++ lit "_priv.pem"))) as [key|e2].
    + split.
      * intros [= <-]. split; reflexivity.
      * intros [[= ->] [= ->]]. destruct pair; reflexivity.
    + split; [discriminate|]. intros [_ H]; discriminate.
  - split; [discriminate|]. intros [H _]; discriminate.
Qed.

(** The vouchers that [readOVs] returns, key by key. *)
Lemma readOVs_lookup (w : World T) (entries : list bytes) (ovs : OVList) (k : bytes) :
  dirs w (artifactDirectory w) = Ok entries ->
  fst (readOVs w) = Ok ovs ->
  ovs !! k =
  match find (fun n => isOV n && bytes_eqb (trimmed n) k) (rev entries) with
  | Some n =>
    match files w (Join (artifactDirectory w) n) with
    | Ok data => Some data
    | Err _ => None
    end
  | None => None
  end.
Proof.
  intros Hd. rewrite readOVs_fst, Hd.
  destruct (fst (readOVs_loop _ entries ∅ w)) as [m|e] eqn:Hl; [|discriminate].
  destruct (size m =? 0)%nat; [discriminate|]. intros [= <-].
  rewrite (readOVs_loop_lookup _ _ k _ _ _ Hl).
  destruct (find _ (rev entries)); [reflexivity|apply lookup_empty].
Qed.

Lemma trimmed_standard id : trimmed (lit "ov_" ++ id ++ lit ".txt") = id.
Proof. unfold trimmed. rewrite TrimPrefix_app. apply TrimSuffix_app. Qed.

(** The voucher of [ov_<id>.txt], when no other entry has the key [id]. *)
Lemma readOVs_lookup_standard (w : World T) (entries : list bytes) (ovs : OVList)
    (id data : bytes) :
  dirs w (artifactDirectory w) = Ok entries ->
  fst (readOVs w) = Ok ovs ->
  In (lit "ov_" ++ id ++ lit ".txt") entries ->
  (forall n, In n entries -> isOV n = true -> trimmed n = id ->
     n = lit "ov_" ++ id ++ lit ".txt") ->
  files w (Join (artifactDirectory w) (lit "ov_" ++ id ++ lit ".txt")) = Ok data ->
  ovs !! id = Some data.
Proof.
  intros Hd Hr Hin Huniq Hf.
  rewrite (readOVs_lookup w entries ovs id Hd Hr).
  destruct (find _ (rev entries)) as [n|] eqn:Hfind.
  - apply find_some in Hfind as [Hin' Hp]. apply andb_true_iff in Hp as [Hov Ht].
    apply bytes_eqb_eq in Ht. apply in_rev in Hin'.
    rewrite (Huniq n Hin' Hov Ht), Hf. reflexivity.
  - apply in_rev in Hin. apply (find_none _ _ Hfind) in Hin.
    assert (isOV (lit "ov_" ++ id ++ lit ".txt") = true) as Hov by reflexivity.
    rewrite Hov, trimmed_standard, bytes_eqb_refl in Hin. discriminate.
Qed.

End ServerProperties.

(** * The claims *)

Section Claims.

Context {T : TimePkg} {P : Pkcs7Pkg T}.

(** C1, as amended.  Sign/verify agreement: for every serial number that is
    well-formed UTF-8, every pinned-domain certificate and every vendor CA key
    pair whose certificate the pool trusts at the signing time, [New] returns
    bytes, verifying them succeeds in every world, and the claims returned
    have the serial number that was signed. *)
Theorem New_VerifyAndUnmarshal_serial
    (w : World T) (serial pdcPem : bytes) (cert : Certificate) (key : PrivateKey)
    (pool : CertPool) :
  utf8.Valid serial = true ->
  ValidSigner cert key ->
  Trusts pool cert (clock w 1) ->
  exists out w1 ov,
    New serial pdcPem cert key w = (Ok out, w1)
    /\ (forall w', VerifyAndUnmarshal out pool w' = (Ok ov, w'))
    /\ SerialNumber (OV ov) = serial.
Proof.
  intros Hu Hs Ht.
  destruct (New_VerifyAndUnmarshal w serial pdcPem cert key pool Hs Ht) as (out & HN & HV).
  exists out, (afterNew w), (json.coerceOwnershipVoucher (newVoucher (clock w 0) serial pdcPem)).
  split; [exact HN|]. split; [exact HV|].
  cbn [json.coerceOwnershipVoucher json.coerceInner newVoucher OV SerialNumber].
  apply coerce_valid, Hu.
Qed.

(** C8, as amended.  The serial number of the claims that come back from a
    voucher made by [New] is the serial given, with each byte that is not
    UTF-8 replaced by U+FFFD: it is empty exactly when the serial given is
    empty.  Neither [New] nor [VerifyAndUnmarshal] refuses an empty serial. *)
Theorem New_VerifyAndUnmarshal_serial_as_given
    (w : World T) (serial pdcPem : bytes) (cert : Certificate) (key : PrivateKey)
    (pool : CertPool) :
  ValidSigner cert key ->
  Trusts pool cert (clock w 1) ->
  exists out w1 ov,
    New serial pdcPem cert key w = (Ok out, w1)
    /\ (forall w', VerifyAndUnmarshal out pool w' = (Ok ov, w'))
    /\ SerialNumber (OV ov) = json.coerce serial
    /\ (SerialNumber (OV ov) = [] <-> serial = []).
Proof.
  intros Hs Ht.
  destruct (New_VerifyAndUnmarshal w serial pdcPem cert key pool Hs Ht) as (out & HN & HV).
  exists out, (afterNew w), (json.coerceOwnershipVoucher (newVoucher (clock w 0) serial pdcPem)).
  split; [exact HN|]. split; [exact HV|].
  cbn [json.coerceOwnershipVoucher json.coerceInner newVoucher OV SerialNumber].
  split; [reflexivity|apply coerce_nil_iff].
Qed.




(** C10.  The content is decoded before the signature is checked: when the
    envelope parses and its content does not decode, the error is the
    decoder's, whatever the verification of the envelope against the pool
    would have said. *)
Theorem VerifyAndUnmarshal_unmarshal_before_verify
    (in_ : bytes) (certPool : CertPool) (w : World T) (p7 : PKCS7)
    (err : json.UnmarshalError) (verdict : option Pkcs7Error) :
  in_ <> [] ->
  Parse in_ = Ok p7 ->
  json.Unmarshal (Content p7) zeroOwnershipVoucher = Err err ->
  VerifyWithChain p7 certPool = verdict ->
  VerifyAndUnmarshal in_ certPool w = (Err (ErrUnmarshal err), w).
Proof.
  intros Hne HP HU _. eapply VerifyAndUnmarshal_unmarshal_error; eassumption.
Qed.


End Claims.

(** C2.  Codec round trip: claims whose strings are well-formed UTF-8 are
    marshalled without error, and unmarshalling the bytes gives the claims
    back. *)
Theorem Unmarshal_Marshal_roundtrip (claims : OwnershipVoucher) :
  validClaims claims = true ->
  exists data,
    json.Marshal claims = Ok data
    /\ json.Unmarshal data zeroOwnershipVoucher = Ok claims.
Proof.
  intros Hv. exists (json.encodeOwnershipVoucher claims). split; [reflexivity|].
  rewrite Unmarshal_encode. f_equal.
  unfold validClaims in Hv.
  apply andb_true_iff in Hv as [Hv H5]. apply andb_true_iff in Hv as [Hv H4].
  apply andb_true_iff in Hv as [Hv H3]. apply andb_true_iff in Hv as [H1 H2].
  destruct claims as [[c e s a p d]]. cbn [OV CreatedOn ExpiresOn SerialNumber Assertion
    PinnedDomainCert DomainCertRevocationChecks] in *.
  unfold json.coerceOwnershipVoucher, json.coerceInner.
  cbn [OV CreatedOn ExpiresOn SerialNumber Assertion PinnedDomainCert
       DomainCertRevocationChecks].
  rewrite !coerce_valid by assumption. reflexivity.
Qed.

(** C6.  PEM stripping inverse: for a certificate block with the standard
    framing, putting the header and the footer back around what
    [RemovePemHeaders] returns gives the block again, byte for byte. *)
Theorem RemovePemHeaders_inverse (pemBlock : bytes) :
  wellFormedPem pemBlock = true ->
  AddPemHeaders (RemovePemHeaders pemBlock) = pemBlock.
Proof.
  intros H. apply wellFormedPem_shape in H as [body ->].
  rewrite RemovePemHeaders_framed. reflexivity.
Qed.

Section ServerClaims.

Context {T : TimePkg} {L : TlsPkg} {F : FilepathPkg}.

(** C9, as amended.  The TLS identity is made from the certificate and the
    key of the PDC key pair.  When they do not match, the loading fails and
    returns no artifacts; the error is the one of the TLS identity when the
    three key pairs and the vouchers have been read, and the error of the
    first of those steps that failed otherwise. *)
Theorem parseSecurityArtifacts_tls_mismatch
    (w : World T) (pdc : KeyPair) (err : TlsError) :
  fst (readKeypair (lit "pdc") w) = Ok pdc ->
  X509KeyPair (Cert pdc) (Key pdc) = Err err ->
  (exists e, parseSecurityArtifacts w = (Err e, w))
  /\ (forall oc vendorCA ovs,
        fst (readKeypair (lit "oc") w) = Ok oc ->
        fst (readKeypair (lit "vendorca") w) = Ok vendorCA ->
        fst (readOVs w) = Ok ovs ->
        parseSecurityArtifacts w = (Err (ErrTLS err), w)).
Proof.
  intros Hpdc Hx.
  assert (Hg : generateServerTlsCert pdc = Err (ErrTLS err))
    by (unfold generateServerTlsCert; rewrite Hx; reflexivity).
  rewrite parseSecurityArtifacts_steps, Hpdc. split.
  - destruct (fst (readKeypair (lit "oc") w)); [|eexists; reflexivity].
    destruct (fst (readKeypair (lit "vendorca") w)); [|eexists; reflexivity].
    destruct (fst (readOVs w)); [|eexists; reflexivity].
    rewrite Hg. eexists; reflexivity.
  - intros oc vendorCA ovs -> -> ->. rewrite Hg. reflexivity.
Qed.

End ServerClaims.

(** * Further properties of the code *)

(** ** [RemovePemHeaders] *)

Lemma HasSuffix_last s p a b :
  a <> b -> strings.HasSuffix (s ++ [a]) (p ++ [b]) = false.
Proof.
  intros Hab. destruct (strings.HasSuffix (s ++ [a]) (p ++ [b])) eqn:H; [|reflexivity].
  apply HasSuffix_inv in H. rewrite app_assoc in H.
  apply app_inj_tail in H as [_ H]. contradiction.
Qed.

(** X1.  The framing is removed from around every body: what is between
    the header line and the footer line is returned as it is, also when the
    body holds further PEM blocks, of which only the outermost header and
    footer go. *)
Theorem RemovePemHeaders_strips_framing (body : bytes) :
  RemovePemHeaders
    (lit "-----BEGIN CERTIFICATE-----" ++ [LF] ++ body
     ++ [LF] ++ lit "-----END CERTIFICATE-----" ++ [LF])
  = body.
Proof. apply (RemovePemHeaders_framed body). Qed.

(** X2.  [RemovePemHeaders] removes at most one header from the start and
    at most one footer from the end, and changes nothing between them: the
    input is the result with nothing or the header before it and nothing or
    the footer after it. *)
Theorem RemovePemHeaders_decompose (pemBlock : bytes) :
  exists before after,
    pemBlock = before ++ RemovePemHeaders pemBlock ++ after
    /\ (before = [] \/ before = pemHeader)
    /\ (after = [] \/ after = pemFooter).
Proof.
  unfold RemovePemHeaders, strings.TrimPrefix, strings.TrimSuffix.
  destruct (strings.HasPrefix pemBlock pemHeader) eqn:Hp.
  - apply HasPrefix_inv in Hp. set (rest := skipn (length pemHeader) pemBlock) in *.
    destruct (strings.HasSuffix rest pemFooter) eqn:Hs.
    + apply HasSuffix_inv in Hs. exists pemHeader, pemFooter.
      rewrite <- Hs. auto.
    + exists pemHeader, []. rewrite app_nil_r. auto.
  - destruct (strings.HasSuffix pemBlock pemFooter) eqn:Hs.
    + apply HasSuffix_inv in Hs. exists [], pemFooter. auto.
    + exists [], []. rewrite app_nil_r. auto.
Qed.

(** X3.  The footer is removed only with the line feed that ends it: from
    a certificate block whose last line is not ended by a line feed, the
    header is removed and the footer line stays in the result. *)
Theorem RemovePemHeaders_keeps_unterminated_footer (body : bytes) :
  RemovePemHeaders
    (lit "-----BEGIN CERTIFICATE-----" ++ [LF] ++ body
     ++ [LF] ++ lit "-----END CERTIFICATE-----")
  = body ++ [LF] ++ lit "-----END CERTIFICATE-----".
Proof.
  unfold RemovePemHeaders.
  change (lit "-----BEGIN CERTIFICATE-----" ++ [LF] ++ body
          ++ [LF] ++ lit "-----END CERTIFICATE-----")
    with (pemHeader ++ body ++ [LF] ++ lit "-----END CERTIFICATE-----").
  rewrite TrimPrefix_app. apply TrimSuffix_absent.
  change ([LF] ++ lit "-----END CERTIFICATE-----")
    with (([LF] ++ lit "-----END CERTIFICATE----") ++ ["-"%char]).
  change pemFooter with (([LF] ++ lit "-----END CERTIFICATE-----") ++ [LF]).
  rewrite app_assoc. apply HasSuffix_last. discriminate.
Qed.

(** X4.  Only line feeds end the lines that [RemovePemHeaders] knows: a
    certificate block whose lines end with a carriage return and a line feed
    is returned whole, with its header and its footer. *)
Theorem RemovePemHeaders_keeps_crlf_framing (body : bytes) :
  RemovePemHeaders
    (lit "-----BEGIN CERTIFICATE-----" ++ [CR; LF] ++ body
     ++ [CR; LF] ++ lit "-----END CERTIFICATE-----" ++ [CR; LF])
  = lit "-----BEGIN CERTIFICATE-----" ++ [CR; LF] ++ body
    ++ [CR; LF] ++ lit "-----END CERTIFICATE-----" ++ [CR; LF].
Proof.
  unfold RemovePemHeaders.
  rewrite TrimPrefix_absent.
  - apply TrimSuffix_absent.
    change (lit "-----BEGIN CERTIFICATE-----" ++ [CR; LF] ++ body
            ++ [CR; LF] ++ lit "-----END CERTIFICATE-----" ++ [CR; LF])
      with ((lit "-----BEGIN CERTIFICATE-----" ++ [CR; LF]) ++ body
            ++ (([CR; LF] ++ lit "-----END CERTIFICATE-----") ++ [CR]) ++ [LF]).
    destruct (strings.HasSuffix _ pemFooter) eqn:H; [|reflexivity].
    apply HasSuffix_inv in H.
    change pemFooter with (([LF] ++ lit "-----END CERTIFICATE----") ++ ["-"%char] ++ [LF])
      in H at 2.
    rewrite !app_assoc in H. apply app_inj_tail in H as [H _].
    apply app_inj_tail in H as [_ H]. discriminate.
  - unfold strings.HasPrefix. apply andb_false_iff. right.
    cbn [lit list_ascii_of_string app pemHeader length firstn].
    reflexivity.
Qed.

(** ** [New] and [VerifyAndUnmarshal] *)

(** Claims of well-formed UTF-8 are written and read back unchanged. *)
Lemma coerceOwnershipVoucher_valid (v : OwnershipVoucher) :
  validClaims v = true -> json.coerceOwnershipVoucher v = v.
Proof.
  unfold validClaims. intros Hv.
  apply andb_true_iff in Hv as [Hv H5]. apply andb_true_iff in Hv as [Hv H4].
  apply andb_true_iff in Hv as [Hv H3]. apply andb_true_iff in Hv as [H1 H2].
  destruct v as [[c e s a p d]].
  cbn [OV CreatedOn ExpiresOn SerialNumber Assertion PinnedDomainCert] in *.
  unfold json.coerceOwnershipVoucher, json.coerceInner.
  cbn [OV CreatedOn ExpiresOn SerialNumber Assertion PinnedDomainCert
       DomainCertRevocationChecks].
  rewrite !coerce_valid by assumption. reflexivity.
Qed.

Section VoucherTheorems.

Context {T : TimePkg} {P : Pkcs7Pkg T}.

(** X5.  The whole voucher survives signing and verification: when the
    strings of the claims that [New] builds are well-formed UTF-8, [New]
    reads the clock twice and nothing else, and [VerifyAndUnmarshal] returns
    these claims, field for field. *)
Theorem New_VerifyAndUnmarshal_claims
    (w : World T) (serial pdcPem : bytes) (cert : Certificate) (key : PrivateKey)
    (pool : CertPool) :
  validClaims (newVoucher (clock w 0) serial pdcPem) = true ->
  ValidSigner cert key ->
  Trusts pool cert (clock w 1) ->
  exists out,
    New serial pdcPem cert key w = (Ok out, afterNew w)
    /\ forall w',
         VerifyAndUnmarshal out pool w' = (Ok (newVoucher (clock w 0) serial pdcPem), w').
Proof.
  intros Hv Hs Ht.
  destruct (New_VerifyAndUnmarshal w serial pdcPem cert key pool Hs Ht) as (out & HN & HV).
  exists out. split; [exact HN|]. intros w'. rewrite HV.
  rewrite (coerceOwnershipVoucher_valid _ Hv). reflexivity.
Qed.

(** X6.  The pinned domain certificate of a voucher made from a PEM block:
    [New] signs the body of the block without its framing, and the verifier
    gets this body back byte for byte when it is well-formed UTF-8, as the
    base64 text of a certificate is. *)
Theorem New_VerifyAndUnmarshal_pinned_cert
    (w : World T) (serial body : bytes) (cert : Certificate) (key : PrivateKey)
    (pool : CertPool) :
  utf8.Valid body = true ->
  ValidSigner cert key ->
  Trusts pool cert (clock w 1) ->
  exists out w1 ov,
    New serial (pemHeader ++ body ++ pemFooter) cert key w = (Ok out, w1)
    /\ (forall w', VerifyAndUnmarshal out pool w' = (Ok ov, w'))
    /\ PinnedDomainCert (OV ov) = body.
Proof.
  intros Hu Hs Ht.
  destruct (New_VerifyAndUnmarshal w serial (pemHeader ++ body ++ pemFooter) cert key pool
              Hs Ht) as (out & HN & HV).
  eexists out, (afterNew w), _. split; [exact HN|]. split; [exact HV|].
  cbn [json.coerceOwnershipVoucher json.coerceInner newVoucher OV PinnedDomainCert].
  rewrite RemovePemHeaders_framed. apply coerce_valid, Hu.
Qed.

(** X7.  [VerifyAndUnmarshal] returns claims only from an input that is
    not empty and parses as an envelope whose content decodes to these claims
    and whose signature verifies against the pool: no claims are returned from
    an envelope that fails the verification. *)
Theorem VerifyAndUnmarshal_ok_iff
    (in_ : bytes) (certPool : CertPool) (w : World T) (ov : OwnershipVoucher) :
  fst (VerifyAndUnmarshal in_ certPool w) = Ok ov <->
  in_ <> []
  /\ exists p7,
       Parse in_ = Ok p7
       /\ json.Unmarshal (Content p7) zeroOwnershipVoucher = Ok ov
       /\ VerifyWithChain p7 certPool = None.
Proof.
  unfold VerifyAndUnmarshal. split.
  - destruct in_ as [|c t]; [discriminate|]. cbn [length Nat.eqb].
    destruct (Parse (c :: t)) as [p7|] eqn:HP; [|discriminate].
    destruct (json.Unmarshal (Content p7) zeroOwnershipVoucher) as [v|] eqn:HU;
      [|discriminate].
    destruct (VerifyWithChain p7 certPool) eqn:HV; [discriminate|].
    intros [= <-]. split; [discriminate|]. exists p7. auto.
  - intros (Hne & p7 & HP & HU & HV).
    destruct in_ as [|c t]; [congruence|]. cbn [length Nat.eqb].
    rewrite HP, HU, HV. reflexivity.
Qed.

End VoucherTheorems.

(** X8.  Claims of well-formed UTF-8 that differ are marshalled to bytes
    that differ: the signed content determines the claims. *)
Theorem Marshal_injective (a b : OwnershipVoucher) :
  validClaims a = true -> validClaims b = true ->
  json.Marshal a = json.Marshal b -> a = b.
Proof.
  intros Ha Hb H. unfold json.Marshal in H.
  assert (E : json.encodeOwnershipVoucher a = json.encodeOwnershipVoucher b)
    by congruence.
  pose proof (Unmarshal_encode a) as Ua. pose proof (Unmarshal_encode b) as Ub.
  rewrite E, Ub in Ua.
  rewrite (coerceOwnershipVoucher_valid _ Ha), (coerceOwnershipVoucher_valid _ Hb) in Ua.
  congruence.
Qed.

(** ** The vouchers from signing to loading to verification *)

Section StoredVoucher.

Context {T : TimePkg} {P : Pkcs7Pkg T} {L : TlsPkg} {F : FilepathPkg}.

(** X9.  A voucher that [New] has made for a serial number of well-formed
    UTF-8, stored in the artifact directory as [ov_<serial>.txt], is found by
    [readOVs] under the serial number, and [VerifyAndUnmarshal] accepts the
    bytes found against a pool that trusts the signer and returns claims with
    this serial number: the key of the voucher list agrees with the claims. *)
Theorem stored_voucher_found_and_verified
    (w0 w : World T) (serial pdcPem : bytes) (cert : Certificate) (key : PrivateKey)
    (pool : CertPool) (out : bytes) (entries : list bytes) (ovs : OVList) :
  utf8.Valid serial = true ->
  ValidSigner cert key ->
  Trusts pool cert (clock w0 1) ->
  fst (New serial pdcPem cert key w0) = Ok out ->
  dirs w (artifactDirectory w) = Ok entries ->
  In (lit "ov_" ++ serial ++ lit ".txt") entries ->
  (forall n, In n entries -> isOV n = true -> trimmed n = serial ->
     n = lit "ov_" ++ serial ++ lit ".txt") ->
  files w (Join (artifactDirectory w) (lit "ov_" ++ serial ++ lit ".txt")) = Ok out ->
  fst (readOVs w) = Ok ovs ->
  exists ov,
    ovs !! serial = Some out
    /\ VerifyAndUnmarshal out pool w = (Ok ov, w)
    /\ SerialNumber (OV ov) = serial.
Proof.
  intros Hu Hs Ht HN Hd Hin Huniq Hf Hr.
  destruct (New_VerifyAndUnmarshal w0 serial pdcPem cert key pool Hs Ht) as (out' & HN' & HV).
  rewrite HN' in HN. cbn [fst] in HN. injection HN as ->.
  eexists. split; [|split; [apply HV|]].
  - eapply readOVs_lookup_standard; eassumption.
  - cbn [json.coerceOwnershipVoucher json.coerceInner newVoucher OV SerialNumber].
    apply coerce_valid, Hu.
Qed.

End StoredVoucher.

(** ** The encoding and the decoding of the claims *)


Section DecodedClaims.

Context {T : TimePkg} {P : Pkcs7Pkg T}.

(** X11.  Whatever the input, the strings of the claims that
    [VerifyAndUnmarshal] returns are well-formed UTF-8: the decoder replaces
    every byte of a JSON string that is not part of a well-formed sequence, and
    every escape of a surrogate without its pair, by U+FFFD. *)
Theorem VerifyAndUnmarshal_claims_are_utf8
    (in_ : bytes) (certPool : CertPool) (w : World T) (ov : OwnershipVoucher) :
  fst (VerifyAndUnmarshal in_ certPool w) = Ok ov ->
  validClaims ov = true.
Proof.
  unfold VerifyAndUnmarshal.
  destruct (length in_ =? 0)%nat; [discriminate|].
  destruct (Parse in_) as [p7|]; [|discriminate].
  destruct (json.Unmarshal (Content p7) zeroOwnershipVoucher) as [v|] eqn:U; [|discriminate].
  destruct (VerifyWithChain p7 certPool); [discriminate|].
  intros [= <-]. eapply Unmarshal_Valid; [|exact U]. reflexivity.
Qed.

(** X12.  The claims that [VerifyAndUnmarshal] returns can be marshalled
    again and unmarshalled without loss: encoding them and decoding the bytes
    gives the same claims. *)
Theorem VerifyAndUnmarshal_claims_roundtrip
    (in_ : bytes) (certPool : CertPool) (w : World T) (ov : OwnershipVoucher) :
  fst (VerifyAndUnmarshal in_ certPool w) = Ok ov ->
  exists data,
    json.Marshal ov = Ok data
    /\ json.Unmarshal data zeroOwnershipVoucher = Ok ov.
Proof.
  intros H. exists (json.encodeOwnershipVoucher ov). split; [reflexivity|].
  rewrite Unmarshal_encode. f_equal. apply coerceOwnershipVoucher_valid.
  revert H. unfold VerifyAndUnmarshal.
  destruct (length in_ =? 0)%nat; [discriminate|].
  destruct (Parse in_) as [p7|]; [|discriminate].
  destruct (json.Unmarshal (Content p7) zeroOwnershipVoucher) as [v|] eqn:U; [|discriminate].
  destruct (VerifyWithChain p7 certPool); [discriminate|].
  intros [= <-]. eapply Unmarshal_Valid; [|exact U]. reflexivity.
Qed.

End DecodedClaims.

(** ** The artifact loading *)

Section ServerTheorems.

Context {T : TimePkg} {L : TlsPkg} {F : FilepathPkg}.

(** X13.  [readKeypair] returns a pair exactly when both of its files can be
    read, and the pair holds the bytes of the two files as they are: nothing
    is parsed or checked. *)
Theorem readKeypair_ok_iff (name : bytes) (w : World T) (pair : KeyPair) :
  fst (readKeypair name w) = Ok pair <->
  files w (Join (artifactDirectory w) (name ++ lit "_pub.pem")) = Ok (Cert pair)
  /\ files w (Join (artifactDirectory w) (name ++ lit "_priv.pem")) = Ok (Key pair).
Proof. apply readKeypair_ok. Qed.

(** X14.  The six key files are read in a fixed order, the certificate and
    then the key of [oc], of [pdc] and of [vendorca]; the first that cannot be
    read decides the error of [parseSecurityArtifacts], whatever the state of
    the later files, of the vouchers and of the TLS identity. *)
Theorem parseSecurityArtifacts_read_order (w : World T) (err : OsError) :
  let file := fun name : string => files w (Join (artifactDirectory w) (lit name)) in
  let failsWith := fun e : LoadError => parseSecurityArtifacts w = (Err e, w) in
  (file "oc_pub.pem" = Err err -> failsWith (ErrReadCert (lit "oc") err))
  /\ (forall a, file "oc_pub.pem" = Ok a ->
      file "oc_priv.pem" = Err err -> failsWith (ErrReadKey (lit "oc") err))
  /\ (forall a b, file "oc_pub.pem" = Ok a -> file "oc_priv.pem" = Ok b ->
      file "pdc_pub.pem" = Err err -> failsWith (ErrReadCert (lit "pdc") err))
  /\ (forall a b c, file "oc_pub.pem" = Ok a -> file "oc_priv.pem" = Ok b ->
      file "pdc_pub.pem" = Ok c ->
      file "pdc_priv.pem" = Err err -> failsWith (ErrReadKey (lit "pdc") err))
  /\ (forall a b c d, file "oc_pub.pem" = Ok a -> file "oc_priv.pem" = Ok b ->
      file "pdc_pub.pem" = Ok c -> file "pdc_priv.pem" = Ok d ->
      file "vendorca_pub.pem" = Err err -> failsWith (ErrReadCert (lit "vendorca") err))
  /\ (forall a b c d e, file "oc_pub.pem" = Ok a -> file "oc_priv.pem" = Ok b ->
      file "pdc_pub.pem" = Ok c -> file "pdc_priv.pem" = Ok d ->
      file "vendorca_pub.pem" = Ok e ->
      file "vendorca_priv.pem" = Err err -> failsWith (ErrReadKey (lit "vendorca") err)).
Proof.
  intros file failsWith. unfold failsWith. rewrite parseSecurityArtifacts_steps.
  rewrite !readKeypair_fst.
  change (lit "oc" ++ lit "_pub.pem") with (lit "oc_pub.pem").
  change (lit "oc" ++ lit "_priv.pem") with (lit "oc_priv.pem").
  change (lit "pdc" ++ lit "_pub.pem") with (lit "pdc_pub.pem").
  change (lit "pdc" ++ lit "_priv.pem") with (lit "pdc_priv.pem").
  change (lit "vendorca" ++ lit "_pub.pem") with (lit "vendorca_pub.pem").
  change (lit "vendorca" ++ lit "_priv.pem") with (lit "vendorca_priv.pem").
  subst file. cbv beta.
  repeat split; intros; repeat match goal with H : files _ _ = _ |- _ => rewrite H; clear H end;
    reflexivity.
Qed.

(** X15.  What a successful loading returns: the bytes of the six key files
    as they are, the vouchers of [readOVs], and the TLS identity made of the
    PDC certificate and the PDC key.  The certificates and keys of [oc] and
    [vendorca] are not checked against each other. *)
Theorem parseSecurityArtifacts_ok_iff (w : World T) (sa : SecurityArtifacts) :
  let file := fun name : string => files w (Join (artifactDirectory w) (lit name)) in
  fst (parseSecurityArtifacts w) = Ok sa <->
  file "oc_pub.pem" = Ok (Cert (OC sa)) /\ file "oc_priv.pem" = Ok (Key (OC sa))
  /\ file "pdc_pub.pem" = Ok (Cert (PDC sa)) /\ file "pdc_priv.pem" = Ok (Key (PDC sa))
  /\ file "vendorca_pub.pem" = Ok (Cert (VendorCA sa))
  /\ file "vendorca_priv.pem" = Ok (Key (VendorCA sa))
  /\ fst (readOVs w) = Ok (OVs sa)
  /\ X509KeyPair (Cert (PDC sa)) (Key (PDC sa)) = Ok (TLSKeypair sa).
Proof.
  intros file. subst file. cbv beta.
  change (lit "oc_pub.pem") with (lit "oc" ++ lit "_pub.pem").
  change (lit "oc_priv.pem") with (lit "oc" ++ lit "_priv.pem").
  change (lit "pdc_pub.pem") with (lit "pdc" ++ lit "_pub.pem").
  change (lit "pdc_priv.pem") with (lit "pdc" ++ lit "_priv.pem").
  change (lit "vendorca_pub.pem") with (lit "vendorca" ++ lit "_pub.pem").
  change (lit "vendorca_priv.pem") with (lit "vendorca" ++ lit "_priv.pem").
  rewrite parseSecurityArtifacts_steps. cbn [fst].
  pose proof (readKeypair_ok (lit "oc") w (OC sa)) as Ho.
  pose proof (readKeypair_ok (lit "pdc") w (PDC sa)) as Hp.
  pose proof (readKeypair_ok (lit "vendorca") w (VendorCA sa)) as Hv.
  split.
  - intros H.
    destruct (fst (readKeypair (lit "oc") w)) as [oc|]; [|discriminate].
    destruct (fst (readKeypair (lit "pdc") w)) as [pdc|]; [|discriminate].
    destruct (fst (readKeypair (lit "vendorca") w)) as [vca|]; [|discriminate].
    destruct (fst (readOVs w)) as [ovs|]; [|discriminate].
    unfold generateServerTlsCert in H.
    destruct (X509KeyPair (Cert pdc) (Key pdc)) as [t|] eqn:Hx; [|discriminate].
    injection H as <-. cbn [OC PDC VendorCA OVs TLSKeypair] in *.
    destruct Ho as [Ho _], Hp as [Hp _], Hv as [Hv _].
    specialize (Ho eq_refl) as [? ?]. specialize (Hp eq_refl) as [? ?].
    specialize (Hv eq_refl) as [? ?]. auto 10.
  - intros (H1 & H2 & H3 & H4 & H5 & H6 & H7 & H8).
    destruct Ho as [_ Ho], Hp as [_ Hp], Hv as [_ Hv].
    rewrite (Ho (conj H1 H2)), (Hp (conj H3 H4)), (Hv (conj H5 H6)), H7.
    unfold generateServerTlsCert. rewrite H8. destruct sa; reflexivity.
Qed.

(** X16.  The error of the TLS identity is reported exactly when the three
    key pairs and the vouchers have been loaded and the PDC key does not go
    with the PDC certificate. *)
Theorem parseSecurityArtifacts_tls_error_iff (w : World T) (err : TlsError) :
  fst (parseSecurityArtifacts w) = Err (ErrTLS err) <->
  exists oc pdc vendorCA ovs,
    fst (readKeypair (lit "oc") w) = Ok oc
    /\ fst (readKeypair (lit "pdc") w) = Ok pdc
    /\ fst (readKeypair (lit "vendorca") w) = Ok vendorCA
    /\ fst (readOVs w) = Ok ovs
    /\ X509KeyPair (Cert pdc) (Key pdc) = Err err.
Proof.
  rewrite parseSecurityArtifacts_steps. cbn [fst]. split.
  - intros H.
    destruct (fst (readKeypair (lit "oc") w)) as [oc|e] eqn:Ho.
    2:{ rewrite readKeypair_fst in Ho.
        repeat match type of Ho with match ?x with _ => _ end = _ => destruct x end;
          congruence. }
    destruct (fst (readKeypair (lit "pdc") w)) as [pdc|e] eqn:Hp.
    2:{ rewrite readKeypair_fst in Hp.
        repeat match type of Hp with match ?x with _ => _ end = _ => destruct x end;
          congruence. }
    destruct (fst (readKeypair (lit "vendorca") w)) as [vca|e] eqn:Hv.
    2:{ rewrite readKeypair_fst in Hv.
        repeat match type of Hv with match ?x with _ => _ end = _ => destruct x end;
          congruence. }
    destruct (fst (readOVs w)) as [ovs|e] eqn:Hr.
    2:{ rewrite readOVs_fst in Hr.
        destruct (dirs w _) as [entries|]; [|congruence].
        destruct (fst (readOVs_loop _ entries ∅ w)) as [m|e'] eqn:Hl.
        - destruct (size m =? 0)%nat; congruence.
        - apply readOVs_loop_error in Hl as [x ->]. congruence. }
    unfold generateServerTlsCert in H.
    destruct (X509KeyPair (Cert pdc) (Key pdc)) as [t|e] eqn:Hx; [discriminate|].
    injection H as ->. exists oc, pdc, vca, ovs. auto.
  - intros (oc & pdc & vca & ovs & -> & -> & -> & -> & Hx).
    unfold generateServerTlsCert. rewrite Hx. reflexivity.
Qed.

(** X17.  [readOVs] looks at the entries whose name starts with [ov] and at
    nothing else: two directories with the same such entries, in the same
    order and with the same contents, give the same result, whatever other
    entries they have and whether those can be read. *)
Theorem readOVs_reads_ov_entries_only (w w' : World T) (entries entries' : list bytes) :
  artifactDirectory w' = artifactDirectory w ->
  dirs w (artifactDirectory w) = Ok entries ->
  dirs w' (artifactDirectory w) = Ok entries' ->
  List.filter isOV entries' = List.filter isOV entries ->
  (forall n, In n entries -> isOV n = true ->
     files w' (Join (artifactDirectory w) n) = files w (Join (artifactDirectory w) n)) ->
  fst (readOVs w') = fst (readOVs w).
Proof.
  intros Hd He He' Hf Hfiles. rewrite !readOVs_fst, Hd, He, He'.
  rewrite <- (readOVs_loop_filter _ entries'), <- (readOVs_loop_filter _ entries), Hf.
  rewrite (readOVs_loop_ext _ (List.filter isOV entries) ∅ w w'); [reflexivity|].
  intros n Hin Hov. apply filter_In in Hin as [Hin _]. apply Hfiles; assumption.
Qed.

(** X18.  With a directory that can be listed, [readOVs] reports that it
    found no vouchers exactly when no entry has a name that starts with
    [ov]. *)
Theorem readOVs_no_vouchers_iff (w : World T) (entries : list bytes) :
  dirs w (artifactDirectory w) = Ok entries ->
  (fst (readOVs w) = Err ErrNoOVs <-> Forall (fun n => isOV n = false) entries).
Proof.
  intros Hd. rewrite readOVs_fst, Hd. split.
  - intros H. apply List.Forall_forall. intros n Hin.
    destruct (isOV n) eqn:Hov; [exfalso|reflexivity].
    destruct (fst (readOVs_loop _ entries ∅ w)) as [m|e] eqn:Hl.
    + destruct (readOVs_loop_readable _ _ _ _ _ _ Hl Hin Hov) as [d Hd'].
      pose proof (readOVs_loop_lookup _ _ (trimmed n) _ _ _ Hl) as Hk.
      destruct (find _ (rev entries)) as [n'|] eqn:Hfind.
      * apply find_some in Hfind as [Hin' Hp]. apply andb_true_iff in Hp as [Hov' _].
        apply in_rev in Hin'.
        destruct (readOVs_loop_readable _ _ _ _ _ _ Hl Hin' Hov') as [d' Hd''].
        rewrite Hd'' in Hk.
        destruct (size m =? 0)%nat eqn:Hs; [|discriminate].
        apply Nat.eqb_eq, map_size_empty_iff in Hs. subst m.
        rewrite OVList_lookup_empty in Hk. discriminate.
      * pose proof (find_none _ _ Hfind n (proj1 (in_rev _ _) Hin)) as Hp. cbv beta in Hp.
        rewrite Hov, bytes_eqb_refl in Hp. discriminate.
    + apply readOVs_loop_error in Hl as [x ->]. discriminate.
  - intros H. rewrite (readOVs_loop_none _ _ _ _ H). reflexivity.
Qed.

(** X19.  Every voucher that [readOVs] returns was read from an entry of the
    directory whose name starts with [ov], and is filed under that name
    without a leading [ov_] and a trailing [.txt]. *)
Theorem readOVs_sound (w : World T) (ovs : OVList) (k data : bytes) :
  fst (readOVs w) = Ok ovs ->
  ovs !! k = Some data ->
  exists entries n,
    dirs w (artifactDirectory w) = Ok entries
    /\ In n entries /\ isOV n = true /\ trimmed n = k
    /\ files w (Join (artifactDirectory w) n) = Ok data.
Proof.
  rewrite readOVs_fst. destruct (dirs w _) as [entries|]; [|discriminate].
  destruct (fst (readOVs_loop _ entries ∅ w)) as [m|e] eqn:Hl; [|discriminate].
  destruct (size m =? 0)%nat; [discriminate|]. intros [= <-] Hk.
  rewrite (readOVs_loop_lookup _ _ k _ _ _ Hl) in Hk.
  destruct (find _ (rev entries)) as [n|] eqn:Hfind.
  - apply find_some in Hfind as [Hin Hp]. apply andb_true_iff in Hp as [Hov Ht].
    apply bytes_eqb_eq in Ht. apply in_rev in Hin.
    exists entries, n. repeat split; try assumption.
    destruct (files w _) as [d|]; congruence.
  - rewrite OVList_lookup_empty in Hk. discriminate.
Qed.

(** X20.  When [readOVs] succeeds, every entry of the directory whose name
    starts with [ov] has a voucher under its key, whether or not the name has
    the form [ov_..txt]; so the vouchers returned are never empty. *)
Theorem readOVs_complete (w : World T) (entries : list bytes) (ovs : OVList) (n : bytes) :
  dirs w (artifactDirectory w) = Ok entries ->
  fst (readOVs w) = Ok ovs ->
  In n entries -> isOV n = true ->
  exists data, ovs !! trimmed n = Some data.
Proof.
  intros Hd. rewrite readOVs_fst, Hd.
  destruct (fst (readOVs_loop _ entries ∅ w)) as [m|e] eqn:Hl; [|discriminate].
  destruct (size m =? 0)%nat; [discriminate|]. intros [= <-] Hin Hov.
  rewrite (readOVs_loop_lookup _ _ (trimmed n) _ _ _ Hl).
  destruct (find _ (rev entries)) as [n'|] eqn:Hfind.
  - apply find_some in Hfind as [Hin' Hp]. apply andb_true_iff in Hp as [Hov' _].
    apply in_rev in Hin'.
    destruct (readOVs_loop_readable _ _ _ _ _ _ Hl Hin' Hov') as [d' ->]. eauto.
  - pose proof (find_none _ _ Hfind n (proj1 (in_rev _ _) Hin)) as Hp. cbv beta in Hp.
    rewrite Hov, bytes_eqb_refl in Hp. discriminate.
Qed.

(** X21.  When several entries have the same key, the last of them in the
    listing decides the voucher: the voucher under a key is the content of the
    last entry that starts with [ov] and has this key. *)
Theorem readOVs_last_wins (w : World T) (entries : list bytes) (ovs : OVList) (k : bytes) :
  dirs w (artifactDirectory w) = Ok entries ->
  fst (readOVs w) = Ok ovs ->
  ovs !! k =
  match find (fun n => isOV n && bytes_eqb (trimmed n) k) (rev entries) with
  | Some n =>
    match files w (Join (artifactDirectory w) n) with
    | Ok data => Some data
    | Err _ => None
    end
  | None => None
  end.
Proof. apply readOVs_lookup. Qed.

(** X22.  One voucher file that cannot be read makes the whole loading of
    the vouchers fail, with the error of [os.ReadFile] as it is: the error is
    that of the first entry named [ov...] that cannot be read. *)
Theorem readOVs_read_error (w : World T) (before after : list bytes) (n : bytes)
    (err : OsError) :
  dirs w (artifactDirectory w) = Ok (before ++ n :: after) ->
  (forall p, In p before -> isOV p = true ->
     exists data, files w (Join (artifactDirectory w) p) = Ok data) ->
  isOV n = true ->
  files w (Join (artifactDirectory w) n) = Err err ->
  fst (readOVs w) = Err (ErrReadOV err).
Proof.
  intros Hd Hb Hov Hf. rewrite readOVs_fst, Hd.
  assert (E : forall ovs, fst (readOVs_loop (artifactDirectory w) (before ++ n :: after) ovs w)
                          = Err (ErrReadOV err)).
  { clear Hd. induction before as [|p before IH]; intros ovs.
    - cbn [app]. rewrite readOVs_loop_cons, Hov, Hf. reflexivity.
    - cbn [app]. rewrite readOVs_loop_cons. destruct (isOV p) eqn:Hp.
      + destruct (Hb p (or_introl eq_refl) Hp) as [d ->]. apply IH.
        intros q Hq. apply Hb. right; exact Hq.
      + apply IH. intros q Hq. apply Hb. right; exact Hq. }
  rewrite E. reflexivity.
Qed.

(** X23.  The voucher of the file [ov_<id>.txt] is found under the key
    [<id>], for every identifier, when no other entry of the directory has
    this key. *)
Theorem readOVs_finds_voucher (w : World T) (entries : list bytes) (ovs : OVList)
    (id data : bytes) :
  dirs w (artifactDirectory w) = Ok entries ->
  fst (readOVs w) = Ok ovs ->
  In (lit "ov_" ++ id ++ lit ".txt") entries ->
  (forall n, In n entries -> isOV n = true -> trimmed n = id ->
     n = lit "ov_" ++ id ++ lit ".txt") ->
  files w (Join (artifactDirectory w) (lit "ov_" ++ id ++ lit ".txt")) = Ok data ->
  ovs !! id = Some data.
Proof. apply readOVs_lookup_standard. Qed.

End ServerTheorems.

(** * The claims on examples *)

Import Ref.

(** C1 at the serial number 123A. *)
Lemma New_VerifyAndUnmarshal_serial_witness :
  exists out w1 ov,
    New (lit "123A") Ex.domainPem Ex.vendorCert Ex.vendorKey Ex.w0
    = (Ok out, w1)
    /\ (forall w', VerifyAndUnmarshal out Ex.pool w' = (Ok ov, w'))
    /\ SerialNumber (OV ov) = lit "123A".
Proof. apply (New_VerifyAndUnmarshal_serial (P := pkcs7)); reflexivity. Defined.

(** C1, the claim as stated fails: a serial number that is not UTF-8, here
    the one byte 0xFF, comes back as U+FFFD. *)
Lemma New_VerifyAndUnmarshal_serial_not_utf8 :
  exists out w1 ov,
    New ["255"%char] Ex.domainPem Ex.vendorCert Ex.vendorKey Ex.w0
    = (Ok out, w1)
    /\ VerifyAndUnmarshal out Ex.pool w1 = (Ok ov, w1)
    /\ SerialNumber (OV ov) = ["239"; "191"; "189"]%char
    /\ bytes_eqb (SerialNumber (OV ov)) ["255"%char] = false.
Proof.
  destruct (New_VerifyAndUnmarshal (P := pkcs7) Ex.w0 ["255"%char] Ex.domainPem
              Ex.vendorCert Ex.vendorKey Ex.pool eq_refl eq_refl) as (out & HN & HV).
  exists out, (afterNew Ex.w0). eexists. split; [exact HN|]. split; [apply HV|].
  split; reflexivity.
Qed.

(** C2 at the claims of a voucher for 123A. *)
Lemma Unmarshal_Marshal_roundtrip_witness :
  exists data,
    json.Marshal Ex.claims0 = Ok data
    /\ json.Unmarshal data zeroOwnershipVoucher = Ok Ex.claims0.
Proof. apply Unmarshal_Marshal_roundtrip. reflexivity. Defined.



(** C6 at the domain certificate. *)
Lemma RemovePemHeaders_inverse_witness :
  wellFormedPem Ex.domainPem = true
  /\ AddPemHeaders (RemovePemHeaders Ex.domainPem) = Ex.domainPem.
Proof. split; [reflexivity|]. apply RemovePemHeaders_inverse. reflexivity. Defined.



(** C8 at the serial number 123A. *)
Lemma New_VerifyAndUnmarshal_serial_as_given_witness :
  exists out w1 ov,
    New (lit "123A") Ex.domainPem Ex.vendorCert Ex.vendorKey Ex.w0
    = (Ok out, w1)
    /\ (forall w', VerifyAndUnmarshal out Ex.pool w' = (Ok ov, w'))
    /\ SerialNumber (OV ov) = json.coerce (lit "123A")
    /\ (SerialNumber (OV ov) = [] <-> lit "123A" = []).
Proof. apply (New_VerifyAndUnmarshal_serial_as_given (P := pkcs7)); reflexivity. Defined.

(** C8, the claim as stated fails: [New] signs a voucher for the empty
    serial, and [VerifyAndUnmarshal] returns its claims. *)
Lemma New_VerifyAndUnmarshal_empty_serial :
  exists out w1 ov,
    New [] Ex.domainPem Ex.vendorCert Ex.vendorKey Ex.w0 = (Ok out, w1)
    /\ VerifyAndUnmarshal out Ex.pool w1 = (Ok ov, w1)
    /\ SerialNumber (OV ov) = [].
Proof.
  destruct (New_VerifyAndUnmarshal (P := pkcs7) Ex.w0 [] Ex.domainPem
              Ex.vendorCert Ex.vendorKey Ex.pool eq_refl eq_refl) as (out & HN & HV).
  exists out, (afterNew Ex.w0). eexists. split; [exact HN|]. split; [apply HV|].
  reflexivity.
Qed.

(** C9 at a directory with the three key pairs and one voucher. *)
Lemma parseSecurityArtifacts_tls_mismatch_witness :
  (exists e, parseSecurityArtifacts Ex.wMismatch
             = (Err e, Ex.wMismatch))
  /\ (forall oc vendorCA ovs,
        fst (readKeypair (lit "oc") Ex.wMismatch) = Ok oc ->
        fst (readKeypair (lit "vendorca") Ex.wMismatch) = Ok vendorCA ->
        fst (readOVs Ex.wMismatch) = Ok ovs ->
        parseSecurityArtifacts Ex.wMismatch
        = (Err (ErrTLS KeyMismatch), Ex.wMismatch)).
Proof.
  apply (parseSecurityArtifacts_tls_mismatch (L := tls) (F := filepath)
           Ex.wMismatch {| Cert := lit "PPb"; Key := lit "x" |} KeyMismatch);
    reflexivity.
Defined.

(** C9, the claim as stated fails: with a PDC key that does not match the
    PDC certificate and no voucher in the directory, the error is the one of
    the vouchers. *)
Lemma parseSecurityArtifacts_no_vouchers_first :
  fst (readKeypair (lit "pdc") Ex.wNoVouchers)
  = Ok {| Cert := lit "PPb"; Key := lit "x" |}
  /\ X509KeyPair (lit "PPb") (lit "x") = Err KeyMismatch
  /\ parseSecurityArtifacts Ex.wNoVouchers
     = (Err ErrNoOVs, Ex.wNoVouchers).
Proof.
  split; [reflexivity|]. split; [reflexivity|].
  rewrite parseSecurityArtifacts_steps. reflexivity.
Qed.

(** C10 at an envelope whose signature verifies and whose content is no
    JSON text. *)
Lemma VerifyAndUnmarshal_unmarshal_before_verify_witness :
  Ex.seal (lit "not json") <> []
  /\ VerifyWithChain (Pkcs7Pkg := pkcs7)
       (mksignedData (lit "not json")
          [mksigner Ex.vendorCert (sign Ex.vendorKey (lit "not json"))]) Ex.pool
     = None
  /\ VerifyAndUnmarshal (Ex.seal (lit "not json")) Ex.pool Ex.w0
     = (Err (ErrUnmarshal json.SyntaxError), Ex.w0).
Proof.
  split; [discriminate|]. split; [reflexivity|].
  apply (VerifyAndUnmarshal_unmarshal_before_verify (P := pkcs7)
           (Ex.seal (lit "not json")) Ex.pool Ex.w0
           (mksignedData (lit "not json")
              [mksigner Ex.vendorCert (sign Ex.vendorKey (lit "not json"))])
           json.SyntaxError None); try reflexivity. discriminate.
Defined.

(** The four errors of [VerifyAndUnmarshal], each on an input that causes
    it, and the precedence of the decoder's error over the verifier's. *)
Example VerifyAndUnmarshal_example_empty :
  fst (VerifyAndUnmarshal [] Ex.pool Ex.w0) = Err ErrEmpty.
Proof. reflexivity. Qed.

Example VerifyAndUnmarshal_example_not_an_envelope :
  fst (VerifyAndUnmarshal (lit "{}") Ex.pool Ex.w0) = Err (ErrParse NotAnEnvelope).
Proof. reflexivity. Qed.

Example VerifyAndUnmarshal_example_wrong_type :
  fst (VerifyAndUnmarshal (Ex.seal (lit "[]")) Ex.pool Ex.w0)
  = Err (ErrUnmarshal json.UnmarshalTypeError).
Proof. reflexivity. Qed.

Example VerifyAndUnmarshal_example_untrusted :
  fst (VerifyAndUnmarshal (Ex.seal (lit "{}")) [] Ex.w0) = Err (ErrVerify UntrustedSigner).
Proof. reflexivity. Qed.

Example VerifyAndUnmarshal_example_unsigned_not_json :
  fst (VerifyAndUnmarshal (lit "0Cnot json") Ex.pool Ex.w0)
  = Err (ErrUnmarshal json.SyntaxError).
Proof. reflexivity. Qed.

(** The encoding of the claims of a voucher, and what the decoder makes of
    keys in another case and of members it does not know. *)
Example Marshal_example :
  json.Marshal Ex.claims0
  = Ok (lit "{" ++ json.encodeString (lit "ietf-voucher:voucher") ++ lit ":{"
        ++ json.encodeString (lit "created-on") ++ lit ":"
        ++ json.encodeString (lit "1700000000000000000") ++ lit ","
        ++ json.encodeString (lit "expires-on") ++ lit ":"
        ++ json.encodeString (lit "1731536000000000000") ++ lit ","
        ++ json.encodeString (lit "serial-number") ++ lit ":"
        ++ json.encodeString (lit "123A") ++ lit ","
        ++ json.encodeString (lit "assertion") ++ lit ":"
        ++ json.encodeString [] ++ lit ","
        ++ json.encodeString (lit "pinned-domain-cert") ++ lit ":"
        ++ json.encodeString (lit "MIIBszCCAVmgAwIBAgIU") ++ lit ","
        ++ json.encodeString (lit "domain-cert-revocation-checks") ++ lit ":false}}").
Proof. reflexivity. Qed.

Example Unmarshal_example_fold_and_unknown :
  json.Unmarshal
    (lit "{ " ++ json.encodeString (lit "IETF-Voucher:Voucher") ++ lit " : {"
     ++ json.encodeString (lit "Serial-Number") ++ lit ": "
     ++ json.encodeString (lit "123A") ++ lit ", "
     ++ json.encodeString (lit "nonce") ++ lit ": [1, 2.5e+3, {}], "
     ++ json.encodeString (lit "assertion") ++ lit ": null } }")
    zeroOwnershipVoucher
  = Ok {| OV := {| CreatedOn := []; ExpiresOn := []; SerialNumber := lit "123A";
                   Assertion := []; PinnedDomainCert := [];
                   DomainCertRevocationChecks := false |} |}.
Proof. reflexivity. Qed.

Example encodeString_example_escapes :
  json.encodeString [ "<"%char; json.quote; LF; "001"%char; "255"%char ]
  = [json.quote] ++ (json.backslash :: lit "u003c") ++ [json.backslash; json.quote]
    ++ [json.backslash; "n"%char] ++ (json.backslash :: lit "u0001")
    ++ (json.backslash :: lit "ufffd") ++ [json.quote].
Proof. reflexivity. Qed.

(** The loading on the two directories. *)
Example parseSecurityArtifacts_example_mismatch :
  fst (parseSecurityArtifacts Ex.wMismatch) = Err (ErrTLS KeyMismatch).
Proof. vm_compute. reflexivity. Qed.

Example ovExpiry_example : ovExpiry = 31536000000000000%Z.
Proof. reflexivity. Qed.

(** * The further properties on examples *)

Ltac each_entry Hin Hov :=
  repeat (destruct Hin as [<-|Hin]; [first [reflexivity | discriminate Hov]|]);
  destruct Hin.

Ltac each_key Hin Hov Hk :=
  repeat (destruct Hin as [<-|Hin];
          [first [reflexivity | discriminate Hov | cbv in Hk; discriminate Hk]|]);
  destruct Hin.

(** X17 at the directory with the key pairs and at the one with the vouchers
    alone. *)
Lemma readOVs_reads_ov_entries_only_witness :
  fst (readOVs Ex.wOnlyVouchers) = fst (readOVs Ex.wLoaded).
Proof.
  apply (readOVs_reads_ov_entries_only (F := filepath) Ex.wLoaded Ex.wOnlyVouchers
           Ex.loadedEntries [ lit "ov_123A.txt"; lit "ov_123B.txt" ]);
    try reflexivity.
  intros n Hin Hov. each_entry Hin Hov.
Defined.

(** X18 at the directory without vouchers. *)
Lemma readOVs_no_vouchers_iff_witness :
  fst (readOVs Ex.wNoVouchers) = Err ErrNoOVs
  <-> Forall (fun n => isOV n = false)
        [ lit "oc_priv.pem"; lit "oc_pub.pem"; lit "pdc_priv.pem"; lit "pdc_pub.pem";
          lit "vendorca_priv.pem"; lit "vendorca_pub.pem" ].
Proof. apply (readOVs_no_vouchers_iff (F := filepath) Ex.wNoVouchers). reflexivity. Defined.

(** X19 at the voucher under 123A. *)
Lemma readOVs_sound_witness :
  exists entries n,
    dirs Ex.wLoaded (artifactDirectory Ex.wLoaded) = Ok entries
    /\ In n entries /\ isOV n = true /\ trimmed n = lit "123A"
    /\ files Ex.wLoaded (Join (artifactDirectory Ex.wLoaded) n) = Ok (Ex.seal (lit "{}")).
Proof.
  apply (readOVs_sound (F := filepath) Ex.wLoaded Ex.ovsLoaded); reflexivity.
Defined.

(** X20 at the entry [ov_123B.txt]. *)
Lemma readOVs_complete_witness :
  exists data, Ex.ovsLoaded !! trimmed (lit "ov_123B.txt") = Some data.
Proof.
  apply (readOVs_complete (F := filepath) Ex.wLoaded Ex.loadedEntries);
    try reflexivity.
  cbn. tauto.
Defined.

(** X21 at two entries with the key 123A: the second decides. *)
Lemma readOVs_last_wins_witness :
  exists ovs : OVList,
    fst (readOVs Ex.wSameKey) = Ok ovs /\ ovs !! lit "123A" = Some (lit "second").
Proof.
  eexists. split; [reflexivity|].
  rewrite (readOVs_last_wins (F := filepath) Ex.wSameKey [ lit "ov_123A"; lit "ov_123A.txt" ]);
    reflexivity.
Defined.

(** X22 at a directory whose second voucher is missing. *)
Lemma readOVs_read_error_witness :
  fst (readOVs Ex.wUnreadable) = Err (ErrReadOV ErrNotExist).
Proof.
  apply (readOVs_read_error (F := filepath) Ex.wUnreadable [ lit "ov_123A.txt" ]
           [ lit "ov_123C.txt" ] (lit "ov_123B.txt")); try reflexivity.
  intros p [<-|[]] _. eexists. reflexivity.
Defined.

(** X23 at the voucher of 123A. *)
Lemma readOVs_finds_voucher_witness :
  Ex.ovsLoaded !! lit "123A" = Some (Ex.seal (lit "{}")).
Proof.
  apply (readOVs_finds_voucher (F := filepath) Ex.wLoaded Ex.loadedEntries);
    try reflexivity.
  - cbn. tauto.
  - intros n Hin Hov Hk. each_key Hin Hov Hk.
Defined.

(** X5 at the voucher for 123A. *)
Lemma New_VerifyAndUnmarshal_claims_witness :
  exists out,
    New (lit "123A") Ex.domainPem Ex.vendorCert Ex.vendorKey Ex.w0
    = (Ok out, afterNew Ex.w0)
    /\ forall w', VerifyAndUnmarshal out Ex.pool w' = (Ok Ex.claims0, w').
Proof. apply (New_VerifyAndUnmarshal_claims (P := pkcs7)); reflexivity. Defined.

(** X6 at the domain certificate. *)
Lemma New_VerifyAndUnmarshal_pinned_cert_witness :
  exists out w1 ov,
    New (lit "123A") Ex.domainPem Ex.vendorCert Ex.vendorKey Ex.w0 = (Ok out, w1)
    /\ (forall w', VerifyAndUnmarshal out Ex.pool w' = (Ok ov, w'))
    /\ PinnedDomainCert (OV ov) = lit "MIIBszCCAVmgAwIBAgIU".
Proof.
  apply (New_VerifyAndUnmarshal_pinned_cert (P := pkcs7) Ex.w0 (lit "123A")
           (lit "MIIBszCCAVmgAwIBAgIU")); reflexivity.
Defined.

(** X8 at the claims for 123A and the claims that decoding their encoding
    gives. *)
Lemma Marshal_injective_witness :
  Ex.claims0 = json.coerceOwnershipVoucher Ex.claims0.
Proof. apply Marshal_injective; reflexivity. Defined.

(** X9 at the voucher for 123A, stored among the key pairs. *)
Lemma stored_voucher_found_and_verified_witness :
  exists ov,
    Ex.ovsStored !! lit "123A" = Some Ex.signedVoucher
    /\ VerifyAndUnmarshal Ex.signedVoucher Ex.pool Ex.wStored = (Ok ov, Ex.wStored)
    /\ SerialNumber (OV ov) = lit "123A".
Proof.
  apply (stored_voucher_found_and_verified (P := pkcs7) (F := filepath) (L := tls)
           Ex.w0 Ex.wStored (lit "123A") Ex.domainPem Ex.vendorCert Ex.vendorKey
           Ex.pool Ex.signedVoucher Ex.entries Ex.ovsStored); try reflexivity.
  - cbn. tauto.
  - intros n Hin Hov Hk. each_key Hin Hov Hk.
Defined.

(** X11 at a serial number written with
    bytes that are not UTF-8. *)
Lemma VerifyAndUnmarshal_claims_are_utf8_witness :
  fst (VerifyAndUnmarshal (Ex.seal Ex.rawContent) Ex.pool Ex.w0) = Ok Ex.rawClaims
  /\ validClaims Ex.rawClaims = true.
Proof.
  split; [reflexivity|].
  apply (VerifyAndUnmarshal_claims_are_utf8 (P := pkcs7) (Ex.seal Ex.rawContent) Ex.pool
           Ex.w0).
  reflexivity.
Defined.

(** X12 at the same voucher. *)
Lemma VerifyAndUnmarshal_claims_roundtrip_witness :
  exists data,
    json.Marshal Ex.rawClaims = Ok data
    /\ json.Unmarshal data zeroOwnershipVoucher = Ok Ex.rawClaims.
Proof.
  apply (VerifyAndUnmarshal_claims_roundtrip (P := pkcs7) (Ex.seal Ex.rawContent) Ex.pool
           Ex.w0).
  reflexivity.
Defined.
